(** * Z-Hub catalog front-end: the client-side data pipeline

    A shallow embedding of the script blocks of the three catalog views
    (compositions, modules, datasets): asset loading, facet extraction,
    free-text search, grouping, and the issue URL builder.

    Conventions of the embedding.
    - A JavaScript string, taken to be well-formed text, is the [string] of
      its UTF-8 bytes.  Equality, concatenation and substring search are
      those of the bytes.  The order of [sort] is the order of UTF-16 code
      units, computed on the bytes ([strLtb]).  [toLowerCase] is the case
      mapping of ASCII text; a statement that depends on the case mapping of
      a text says through [isAscii] that the text is ASCII.
    - A value produced by [response.json()] is a [JsValue].
    - An expression that can throw evaluates to a [Completion]. *)

From Stdlib Require Import List String Ascii Bool Arith NArith DecimalString.
From Stdlib Require Import Permutation Sorted OrdersEx RelationClasses Lia.
Import ListNotations.
Open Scope string_scope.

(** ** Values and completions *)

(** The values the views handle.  [JNum] carries the number's decimal
    rendering, the text [String(n)] returns, which identifies a JSON number. *)
#[warnings="-register-all"]
Inductive JsValue : Type :=
| JUndefined
| JNull
| JBool (b : bool)
| JNum (repr : string)
| JStr (s : string)
| JArr (elems : list JsValue)
| JObj (props : list (string * JsValue)).

(** What a [throw] or a rejected promise carries: the built-in errors the
    code can meet, and [new Error(message)]. *)
Inductive Exn : Type :=
| TypeError
| ReferenceError
| SyntaxError
| AbortError
| JsError (message : string).

Inductive Completion (A : Type) : Type :=
| Normal (a : A)
| Throw (e : Exn).
Arguments Normal {A} a.
Arguments Throw {A} e.

Definition bind {A B : Type} (c : Completion A) (k : A -> Completion B) : Completion B :=
  match c with
  | Normal a => k a
  | Throw e => Throw e
  end.

Notation "x <- c ;; k" := (bind c (fun x => k))
  (at level 100, c at next level, right associativity).

(** [a || b] on two boolean-valued expressions: [b] is evaluated only when
    [a] is falsy, and an exception of either operand propagates. *)
Definition orElse (a b : Completion bool) : Completion bool :=
  x <- a ;; if x then Normal true else b.
Infix "|||" := orElse (at level 50, left associativity).

Definition isArray (v : JsValue) : bool :=
  match v with
  | JArr _ => true
  | _ => false
  end.

(** ** Strings *)

Definition lowerAscii (c : ascii) : ascii :=
  let n := nat_of_ascii c in
  if ((65 <=? n) && (n <=? 90))%nat then ascii_of_nat (n + 32) else c.

(** [s.toLowerCase()] for ASCII [s]: the letters [A] to [Z] become [a] to
    [z].  The bytes of other characters are left as they are, which is not
    what the language does with them (it maps [U+00C9] to [U+00E9], [U+212A]
    to [k], a final sigma by its context): see [isAscii]. *)
Fixpoint toLowerCase (s : string) : string :=
  match s with
  | EmptyString => EmptyString
  | String c s' => String (lowerAscii c) (toLowerCase s')
  end.

(** [s.includes(q)]: [q] starts at some position of [s]. *)
Fixpoint includes (s q : string) : bool :=
  prefix q s ||
  match s with
  | EmptyString => false
  | String _ s' => includes s' q
  end.

(** A string used as a condition is truthy unless it is empty. *)
Definition truthyStr (s : string) : bool :=
  negb (s =? "").

(** [a || b] on strings. *)
Definition orStr (a b : string) : string :=
  if truthyStr a then a else b.

(** The decimal rendering of a non-negative integer in a template literal. *)
Definition showN (n : N) : string :=
  NilZero.string_of_uint (N.to_uint n).

(** ** Property reads and method calls on JSON data *)

Fixpoint lookup (k : string) (props : list (string * JsValue)) : JsValue :=
  match props with
  | [] => JUndefined
  | (k', v) :: rest => if k' =? k then v else lookup k rest
  end.

(** [v.k] for the identifiers the views read ([name], [description], [tags],
    [usedIn], [capabilities], [category]), none of which is defined on a
    prototype: reading from [undefined] or [null] throws, a property an object
    does not own is [undefined], and so is any of them on a primitive or an
    array. *)
Definition getProp (v : JsValue) (k : string) : Completion JsValue :=
  match v with
  | JUndefined | JNull => Throw TypeError
  | JObj props => Normal (lookup k props)
  | _ => Normal JUndefined
  end.

(** [v.toLowerCase()]: only a string has the method. *)
Definition callToLowerCase (v : JsValue) : Completion string :=
  match v with
  | JStr s => Normal (toLowerCase s)
  | _ => Throw TypeError
  end.

(** [v.toLowerCase().includes(query)] *)
Definition lowerIncludes (v : JsValue) (query : string) : Completion bool :=
  s <- callToLowerCase v ;; Normal (includes s query).

(** [Array.prototype.some] with a callback that may throw: stops at the
    first element the callback accepts. *)
Fixpoint some (f : JsValue -> Completion bool) (l : list JsValue) : Completion bool :=
  match l with
  | [] => Normal false
  | x :: l' => b <- f x ;; if b then Normal true else some f l'
  end.

(** [v.some(f)]: only an array has the method. *)
Definition callSome (v : JsValue) (f : JsValue -> Completion bool) : Completion bool :=
  match v with
  | JArr l => some f l
  | _ => Throw TypeError
  end.

(** [v?.some(f)]: [undefined] when [v] is [undefined] or [null], which the
    enclosing [||] chain and [filter] only test for truthiness, hence
    [false] here. *)
Definition optSome (v : JsValue) (f : JsValue -> Completion bool) : Completion bool :=
  match v with
  | JUndefined | JNull => Normal false
  | _ => callSome v f
  end.

(** [Array.prototype.filter] with a callback that may throw. *)
Fixpoint filterM (f : JsValue -> Completion bool) (l : list JsValue) : Completion (list JsValue) :=
  match l with
  | [] => Normal []
  | x :: l' =>
      b <- f x ;;
      r <- filterM f l' ;;
      Normal (if b then x :: r else r)
  end.

(** [v.filter(f)] *)
Definition callFilter (v : JsValue) (f : JsValue -> Completion bool) : Completion JsValue :=
  match v with
  | JArr l => r <- filterM f l ;; Normal (JArr r)
  | _ => Throw TypeError
  end.

(** [v === s] for a string [s]. *)
Definition strictEqStr (v : JsValue) (s : string) : bool :=
  match v with
  | JStr t => t =? s
  | _ => false
  end.

(** ** Conversions and comparisons used by facets and grouping *)

(** Evaluations made one after the other: the first that throws ends them. *)
Fixpoint sequence {A : Type} (cs : list (Completion A)) : Completion (list A) :=
  match cs with
  | [] => Normal []
  | c :: cs' => a <- c ;; r <- sequence cs' ;; Normal (a :: r)
  end.

(** The object owns a property named [k]. *)
Definition owns (k : string) (props : list (string * JsValue)) : bool :=
  existsb (fun p => fst p =? k) props.

(** [String(v)], which is also the property key [v] becomes in [obj[v]] and
    the text [sort()] compares.  An array is joined with commas, its
    [undefined] and [null] elements rendering as nothing.  An object is
    converted by the [toString] it finds: the one of [Object.prototype],
    unless the object owns a property of that name, whose value, being data,
    cannot be called; then the conversion falls back on [valueOf], which
    gives no primitive, and throws. *)
Fixpoint toStringJs (v : JsValue) : Completion string :=
  match v with
  | JUndefined => Normal "undefined"
  | JNull => Normal "null"
  | JBool true => Normal "true"
  | JBool false => Normal "false"
  | JNum repr => Normal repr
  | JStr s => Normal s
  | JArr elems =>
      parts <- sequence (map (fun x => match x with
                                       | JUndefined | JNull => Normal ""
                                       | _ => toStringJs x
                                       end) elems) ;;
      Normal (String.concat "," parts)
  | JObj props =>
      if owns "toString" props then Throw TypeError else Normal "[object Object]"
  end.

(** SameValueZero, the equality of [Set].  Two arrays or two objects are
    the same value only when they are the same reference, and every array
    or object of a parsed payload is a reference of its own. *)
Definition sameValueZero (a b : JsValue) : bool :=
  match a, b with
  | JUndefined, JUndefined => true
  | JNull, JNull => true
  | JBool x, JBool y => Bool.eqb x y
  | JNum x, JNum y => x =? y
  | JStr x, JStr y => x =? y
  | _, _ => false
  end.

Section SetOf.
Context {A : Type} (same : A -> A -> bool).

(** [set.add(x)]: a value already in the set keeps its place. *)
Fixpoint setAdd (x : A) (s : list A) : list A :=
  match s with
  | [] => [x]
  | y :: s' => if same y x then s else y :: setAdd x s'
  end.

(** [Array.from(new Set(l))]: the distinct values of [l] in the order of
    their first occurrence. *)
Definition newSet (l : list A) : list A :=
  fold_left (fun s x => setAdd x s) l [].

End SetOf.

(** The place of a byte of UTF-8 text in the order of UTF-16 code units.
    Two texts differ first at a byte of one character each.  The order of
    these bytes is the order of the two characters, and that is the order of
    their code units, with one exception: a character above [U+FFFF] (first
    byte [F0] and above) is written with surrogates, code units [D800] to
    [DFFF], which come before the code units [E000] to [FFFF] (first bytes
    [EE] and [EF]).  So these two first bytes are ranked after the others. *)
Definition unitRank (c : ascii) : N :=
  let n := N_of_ascii c in
  if (n <? 238)%N then n
  else if (n <? 240)%N then (n + 16)%N
  else (n - 2)%N.

(** [a < b] on strings: the first unit that differs decides, and a text
    comes before every text it starts. *)
Fixpoint strLtb (a b : string) : bool :=
  match a, b with
  | _, EmptyString => false
  | EmptyString, String _ _ => true
  | String x a', String y b' =>
      if (x =? y)%char then strLtb a' b' else (unitRank x <? unitRank y)%N
  end.

Definition isUndefined (v : JsValue) : bool :=
  match v with
  | JUndefined => true
  | _ => false
  end.

(** The order of [Array.prototype.sort()] without a comparator: [undefined]
    comes after every other value and is not converted; two other values are
    converted to strings, the first one first, and compare by them. *)
Definition sortBefore (x y : JsValue) : Completion bool :=
  match x, y with
  | JUndefined, _ => Normal false
  | _, JUndefined => Normal true
  | _, _ => xs <- toStringJs x ;; ys <- toStringJs y ;; Normal (strLtb xs ys)
  end.

(** [sort] is stable, which determines its result: an insertion sort that
    puts an element in front of the first one it must precede.  A conversion
    that throws ends the sort; an array with a single element is not
    compared with anything. *)
Fixpoint sortInsert (x : JsValue) (l : list JsValue) : Completion (list JsValue) :=
  match l with
  | [] => Normal [x]
  | y :: l' =>
      b <- sortBefore x y ;;
      if b then Normal (x :: y :: l')
      else r <- sortInsert x l' ;; Normal (y :: r)
  end.

Definition sortDefault (l : list JsValue) : Completion (list JsValue) :=
  fold_left (fun acc x => s <- acc ;; sortInsert x s) l (Normal []).

(** [Array.prototype.map] with a callback that may throw. *)
Fixpoint mapM (f : JsValue -> Completion JsValue) (l : list JsValue) : Completion (list JsValue) :=
  match l with
  | [] => Normal []
  | x :: l' => y <- f x ;; r <- mapM f l' ;; Normal (y :: r)
  end.

(** [v.map(f)] *)
Definition callMap (v : JsValue) (f : JsValue -> Completion JsValue) : Completion (list JsValue) :=
  match v with
  | JArr l => mapM f l
  | _ => Throw TypeError
  end.

(** The facet list of both views, which differ in the sentinel only:
    [[sentinel, ...Array.from(new Set(coll.map(c => c.category))).sort()]]. *)
Definition facets (sentinel : string) (coll : JsValue) : Completion (list JsValue) :=
  cats <- callMap coll (fun c => getProp c "category") ;;
  sorted <- sortDefault (newSet sameValueZero cats) ;;
  Normal (JStr sentinel :: sorted).


(** ** The network and the candidate URLs of an asset *)

(** What the network answers to one request: no response at all, no response
    within the time allowed, or a response with a status and a body, which
    may ([Some]) or may not ([None]) be JSON text. *)
Inductive Fetched : Type :=
| NetworkFailure
| TimedOut
| Response (status : N) (body : option JsValue).

Definition Network : Type := string -> Fetched.

(** [res.ok] *)
Definition ok (status : N) : bool :=
  ((200 <=? status) && (status <=? 299))%N.

Fixpoint allSlashes (s : string) : bool :=
  match s with
  | EmptyString => true
  | String c s' => (c =? "/")%char && allSlashes s'
  end.

(** [s.replace(/\/+$/g, '/')]: a run of slashes that ends the string
    becomes one slash. *)
Fixpoint replaceTrailingSlashes (s : string) : string :=
  match s with
  | EmptyString => EmptyString
  | String c s' =>
      if (c =? "/")%char && allSlashes s' then "/"
      else String c (replaceTrailingSlashes s')
  end.

(** [s.replace(/^$/g, '/')]: only the empty string matches. *)
Definition replaceEmpty (s : string) : string :=
  if s =? "" then "/" else s.

(** [(import.meta.env.BASE_URL || '/').replace(/\/+$/g, '/').replace(/^$/g, '/')] *)
Definition baseOf (BASE_URL : string) : string :=
  replaceEmpty (replaceTrailingSlashes (orStr BASE_URL "/")).

(** The [map] over the deduplicated candidates; [clock i] is what
    [Date.now()] returns in the callback of the element of index [i]. *)
Fixpoint cacheBust (clock : nat -> N) (i : nat) (us : list string) : list string :=
  match us with
  | [] => []
  | u :: rest =>
      (u ++ (if includes u "?" then "" else "?ts=" ++ showN (clock i)))
      :: cacheBust clock (S i) rest
  end.

(** The candidate URLs of the asset [file], in the order they are tried. *)
Definition candidatesOf (BASE_URL : string) (clock : nat -> N) (file : string) : list string :=
  cacheBust clock 0
    (newSet String.eqb [baseOf BASE_URL ++ file; "/" ++ file; file]).

(** The state of the candidate loop: the collection, [lastErr], and the
    URLs requested so far. *)
Record Loop : Type := mkLoop {
  coll : JsValue;
  lastErr : option Exn;
  requested : list string
}.

(** The loop of [loadModules] and [loadCommunityDatasets] over the
    candidates, for a given [tryFetch]:
    [[
    for (const url of candidates) {
      try {
        const data = await tryFetch(url);
        coll = Array.isArray(data) ? data : [];
        lastErr = undefined;
        break;
      } catch (e) { lastErr = e; }
    }
    ]] *)
Fixpoint fetchLoop (tryFetch : string -> Completion JsValue)
    (candidates : list string) (s : Loop) : Loop :=
  match candidates with
  | [] => s
  | url :: rest =>
      match tryFetch url with
      | Normal data =>
          mkLoop (if isArray data then data else JArr []) None (requested s ++ [url])
      | Throw e =>
          fetchLoop tryFetch rest (mkLoop (coll s) (Some e) (requested s ++ [url]))
      end
  end.

(** ** Compositions view *)

Module Compositions.

(** The reactive state of the view. *)
Record View : Type := mkView {
  compositions : JsValue;
  searchQuery : string;
  selectedCategory : string
}.

Definition categories (compositions : JsValue) : Completion (list JsValue) :=
  facets "All" compositions.

Definition categoryMatch (selectedCategory : string) (c : JsValue) : Completion bool :=
  cat <- getProp c "category" ;; Normal (strictEqStr cat selectedCategory).

(** The callback of the search [filter]. *)
Definition searchMatch (query : string) (c : JsValue) : Completion bool :=
  (n <- getProp c "name" ;; lowerIncludes n query)
  ||| (d <- getProp c "description" ;; lowerIncludes d query)
  ||| (t <- getProp c "tags" ;; callSome t (fun tag => lowerIncludes tag query))
  ||| (u <- getProp c "usedIn" ;; optSome u (fun use => lowerIncludes use query))
  ||| (k <- getProp c "capabilities" ;;
       optSome k (fun cap =>
         (n <- getProp cap "name" ;; lowerIncludes n query)
         ||| (d <- getProp cap "description" ;; lowerIncludes d query))).

Definition filteredCompositions (v : View) : Completion JsValue :=
  filtered <-
    (if negb (selectedCategory v =? "All")
     then callFilter (compositions v) (categoryMatch (selectedCategory v))
     else Normal (compositions v)) ;;
  if truthyStr (searchQuery v)
  then callFilter filtered (searchMatch (toLowerCase (searchQuery v)))
  else Normal filtered.

(** What a run of [loadCompositions] leaves: the view, the URLs requested,
    and the errors written to the console. *)
Record Loaded : Type := mkLoaded {
  view : View;
  requests : list string;
  console : list Exn
}.

(** [[
    try {
      const response = await fetch(import.meta.env.BASE_URL + 'compositions.json');
      compositions.value = await response.json();
    } catch (error) { console.error('Failed to load compositions:', error); }
    ]]
    [fetch] is called without a timer, and the status is not looked at. *)
Definition loadCompositions (BASE_URL : string) (net : Network) (v : View) : Loaded :=
  let url := BASE_URL ++ "compositions.json" in
  match net url with
  | Response _ (Some data) =>
      mkLoaded (mkView data (searchQuery v) (selectedCategory v)) [url] []
  | Response _ None => mkLoaded v [url] [SyntaxError]
  | NetworkFailure | TimedOut => mkLoaded v [url] [TypeError]
  end.

End Compositions.

(** ** Modules view *)

Module Modules.

Record View : Type := mkView {
  modules : JsValue;
  loading : bool;
  error : string;
  searchQuery : string;
  selectedCategory : string
}.

(** The view as [setup] leaves it. *)
Definition initial : View :=
  mkView (JArr []) false "" "" "all".

(** [tryFetch(url)]: the promise is rejected when the request fails, when
    the timer aborts it, when the status is not a success, and when
    [res.json()] cannot parse the body; otherwise it resolves to the data. *)
Definition tryFetch (net : Network) (url : string) : Completion JsValue :=
  match net url with
  | NetworkFailure => Throw TypeError
  | TimedOut => Throw AbortError
  | Response status body =>
      if negb (ok status) then Throw (JsError ("HTTP " ++ showN status ++ " @ " ++ url))
      else match body with
           | Some data => Normal data
           | None => Throw SyntaxError
           end
  end.

(** [loadModules], with the URLs it requested.  The scroll to the anchor
    that ends the function acts on the document only and is left out. *)
Definition loadModules (BASE_URL : string) (clock : nat -> N) (net : Network)
    (v : View) : View * list string :=
  let candidates := candidatesOf BASE_URL clock "modules.json" in
  let r := fetchLoop (tryFetch net) candidates (mkLoop (modules v) None []) in
  let error' :=
    match lastErr r with
    | Some _ => "Failed to load modules. Please try again later."
    | None => ""
    end in
  (mkView (coll r) false error' (searchQuery v) (selectedCategory v), requested r).

(** The callback of the search [filter]. *)
Definition searchMatch (query : string) (m : JsValue) : Completion bool :=
  (n <- getProp m "name" ;; lowerIncludes n query)
  ||| (d <- getProp m "description" ;; lowerIncludes d query)
  ||| (t <- getProp m "tags" ;; callSome t (fun t => lowerIncludes t query)).

Definition categoryMatch (selectedCategory : string) (m : JsValue) : Completion bool :=
  cat <- getProp m "category" ;; Normal (strictEqStr cat selectedCategory).

(** The filtered sequence [modulesByCategory] groups. *)
Definition filteredModules (v : View) : Completion JsValue :=
  filtered <-
    (if truthyStr (searchQuery v)
     then callFilter (modules v) (searchMatch (toLowerCase (searchQuery v)))
     else Normal (modules v)) ;;
  if negb (selectedCategory v =? "all")
  then callFilter filtered (categoryMatch (selectedCategory v))
  else Normal filtered.

(** The object [grouped]: its own properties in the order of their
    creation, each holding the array of its bucket. *)
Definition Grouped : Type := list (string * list JsValue).

Fixpoint ownProp (k : string) (g : Grouped) : option (list JsValue) :=
  match g with
  | [] => None
  | (k', l) :: g' => if k' =? k then Some l else ownProp k g'
  end.

(** The properties every object inherits from [Object.prototype]. *)
Definition objectPrototypeKeys : list string :=
  [ "constructor"; "__proto__"; "hasOwnProperty"; "isPrototypeOf";
    "propertyIsEnumerable"; "toLocaleString"; "toString"; "valueOf";
    "__defineGetter__"; "__defineSetter__"; "__lookupGetter__";
    "__lookupSetter__" ].

Definition inherited (k : string) : bool :=
  existsb (String.eqb k) objectPrototypeKeys.

(** [grouped[k].push(x)] on an own bucket. *)
Fixpoint pushTo (k : string) (x : JsValue) (g : Grouped) : Grouped :=
  match g with
  | [] => []
  | (k', l) :: g' =>
      if k' =? k then (k', (l ++ [x])%list) :: g' else (k', l) :: pushTo k x g'
  end.

(** The body of the [forEach]:
    [[
    if (!grouped[module.category]) { grouped[module.category] = []; }
    grouped[module.category].push(module);
    ]]
    The category is turned into a property key, which throws when it cannot
    be converted.  A key [grouped] does not own but inherits reads as a truthy
    value that has no [push]. *)
Definition groupStep (grouped : Grouped) (module : JsValue) : Completion Grouped :=
  cat <- getProp module "category" ;;
  key <- toStringJs cat ;;
  match ownProp key grouped with
  | Some _ => Normal (pushTo key module grouped)
  | None =>
      if inherited key then Throw TypeError
      else Normal (grouped ++ [(key, [module])])%list
  end.

Fixpoint forEachGroup (l : list JsValue) (grouped : Grouped) : Completion Grouped :=
  match l with
  | [] => Normal grouped
  | module :: l' => g <- groupStep grouped module ;; forEachGroup l' g
  end.

(** [filtered.forEach(...)] from the empty object. *)
Definition groupBy (filtered : JsValue) : Completion Grouped :=
  match filtered with
  | JArr l => forEachGroup l []
  | _ => Throw TypeError
  end.

Definition modulesByCategory (v : View) : Completion Grouped :=
  filtered <- filteredModules v ;; groupBy filtered.

(** *** The order in which the template goes through the buckets

    [v-for="(categoryModules, category) in modulesByCategory"] follows
    [Object.keys]: the keys that are array indices first, in ascending
    numeric order, then the other keys in the order of their creation. *)

Definition digitOf (c : ascii) : option N :=
  let n := N_of_ascii c in
  if ((48 <=? n) && (n <=? 57))%N then Some (n - 48)%N else None.

Fixpoint digitsValue (s : string) (acc : N) : option N :=
  match s with
  | EmptyString => Some acc
  | String c s' =>
      match digitOf c with
      | Some d => digitsValue s' (10 * acc + d)%N
      | None => None
      end
  end.

(** A key is an array index when it is the decimal rendering, without
    leading zeros, of an integer below [2^32 - 1]. *)
Definition arrayIndex (k : string) : option N :=
  match k with
  | EmptyString => None
  | String "0" EmptyString => Some 0%N
  | String "0" _ => None
  | _ =>
      match digitsValue k 0 with
      | Some n => if (n <=? 4294967294)%N then Some n else None
      | None => None
      end
  end.

Fixpoint insertIndexed (e : N * (string * list JsValue))
    (l : list (N * (string * list JsValue))) : list (N * (string * list JsValue)) :=
  match l with
  | [] => [e]
  | e' :: l' => if (fst e <? fst e')%N then e :: e' :: l' else e' :: insertIndexed e l'
  end.

Fixpoint indexedEntries (g : Grouped) : list (N * (string * list JsValue)) :=
  match g with
  | [] => []
  | (k, l) :: g' =>
      match arrayIndex k with
      | Some n => insertIndexed (n, (k, l)) (indexedEntries g')
      | None => indexedEntries g'
      end
  end.

Definition namedEntries (g : Grouped) : Grouped :=
  filter (fun e => match arrayIndex (fst e) with Some _ => false | None => true end) g.

(** The buckets in the order they are displayed. *)
Definition objectEntries (g : Grouped) : Grouped :=
  (map snd (indexedEntries g) ++ namedEntries g)%list.

Definition categories (modules : JsValue) : Completion (list JsValue) :=
  facets "all" modules.

End Modules.

(** ** Datasets view *)

Module Datasets.

Record View : Type := mkView {
  communityDatasets : JsValue;
  sdrbenchDatasets : JsValue;
  loading : bool;
  error : string;
  sdrError : string
}.

(** The view as [setup] leaves it. *)
Definition initial : View :=
  mkView (JArr []) (JArr []) false "" "".

(** [tryFetch(url)] of the two dataset loaders: as in the modules view,
    except that a body that is not JSON rejects with an error of its own. *)
Definition tryFetch (net : Network) (url : string) : Completion JsValue :=
  match net url with
  | NetworkFailure => Throw TypeError
  | TimedOut => Throw AbortError
  | Response status body =>
      if negb (ok status) then Throw (JsError ("HTTP " ++ showN status ++ " @ " ++ url))
      else match body with
           | Some data => Normal data
           | None => Throw (JsError ("Invalid JSON @ " ++ url))
           end
  end.

(** [loadCommunityDatasets], with the URLs it requested. *)
Definition loadCommunityDatasets (BASE_URL : string) (clock : nat -> N) (net : Network)
    (v : View) : View * list string :=
  let candidates := candidatesOf BASE_URL clock "datasets.json" in
  let r := fetchLoop (tryFetch net) candidates (mkLoop (communityDatasets v) None []) in
  let error' :=
    match lastErr r with
    | Some _ => "Failed to load community datasets. Please try again later."
    | None => ""
    end in
  (mkView (coll r) (sdrbenchDatasets v) (loading v) error' (sdrError v), requested r).

(** The list the view starts from.  [SDRBENCH_EMBEDDED] is not declared in
    the script: it is [Some] value when the page defines it, and [None] when
    the reference throws, which the [catch] turns into the empty array. *)
Definition embeddedList (SDRBENCH_EMBEDDED : option JsValue) : JsValue :=
  match SDRBENCH_EMBEDDED with
  | Some e => if isArray e then e else JArr []
  | None => JArr []
  end.

(** [data.length] used as a condition, for an array [data]. *)
Definition lengthTruthy (data : JsValue) : bool :=
  match data with
  | JArr (_ :: _) => true
  | _ => false
  end.

(** The candidate loop of [loadSdrbenchDatasets]:
    [[
    for (const url of candidates) {
      try {
        const data = await tryFetch(url);
        if (Array.isArray(data) && data.length) { sdrbenchDatasets.value = data; }
        break;
      } catch (e) { }
    }
    ]]
    on the collection and the URLs requested so far. *)
Fixpoint overrideLoop (tryFetch : string -> Completion JsValue)
    (candidates : list string) (s : JsValue * list string) : JsValue * list string :=
  match candidates with
  | [] => s
  | url :: rest =>
      match tryFetch url with
      | Normal data =>
          (if isArray data && lengthTruthy data then data else fst s,
           (snd s ++ [url])%list)
      | Throw _ => overrideLoop tryFetch rest (fst s, (snd s ++ [url])%list)
      end
  end.

(** [loadSdrbenchDatasets], with the URLs it requested. *)
Definition loadSdrbenchDatasets (SDRBENCH_EMBEDDED : option JsValue)
    (BASE_URL : string) (clock : nat -> N) (net : Network)
    (v : View) : View * list string :=
  let candidates := candidatesOf BASE_URL clock "sdrbench-datasets.json" in
  let r := overrideLoop (tryFetch net) candidates (embeddedList SDRBENCH_EMBEDDED, []) in
  (mkView (communityDatasets v) (fst r) (loading v) (error v) "", snd r).

(** [loadAll].  The two loaders run interleaved, on separate parts of the
    view; their requests are kept apart. *)
Definition loadAll (SDRBENCH_EMBEDDED : option JsValue)
    (BASE_URL : string) (clock : nat -> N) (net : Network)
    (v : View) : View * (list string * list string) :=
  let v0 := mkView (communityDatasets v) (sdrbenchDatasets v) true (error v) (sdrError v) in
  let (v1, r1) := loadCommunityDatasets BASE_URL clock net v0 in
  let (v2, r2) := loadSdrbenchDatasets SDRBENCH_EMBEDDED BASE_URL clock net v1 in
  (mkView (communityDatasets v2) (sdrbenchDatasets v2) false (error v2) (sdrError v2),
   (r1, r2)).

(** *** The submission form and the issue URL *)

Record Form : Type := mkForm {
  name : string;
  description : string;
  tags : string;
  links : string;
  size : string
}.

Definition hexDigit (n : N) : ascii :=
  ascii_of_N (if (n <? 10)%N then 48 + n else 55 + n).

(** The bytes the [application/x-www-form-urlencoded] serializer leaves as
    they are: ASCII letters and digits, and [*], [-], [.], [_]. *)
Definition unreserved (c : ascii) : bool :=
  let n := N_of_ascii c in
  (((48 <=? n) && (n <=? 57)) || ((65 <=? n) && (n <=? 90))
   || ((97 <=? n) && (n <=? 122))
   || (n =? 42) || (n =? 45) || (n =? 46) || (n =? 95))%N.

Definition encodeByte (c : ascii) : string :=
  if (c =? " ")%char then "+"
  else if unreserved c then String c EmptyString
  else String "%" (String (hexDigit (N_of_ascii c / 16))
                     (String (hexDigit (N_of_ascii c mod 16)) EmptyString)).

Fixpoint urlencode (s : string) : string :=
  match s with
  | EmptyString => EmptyString
  | String c s' => encodeByte c ++ urlencode s'
  end.

(** [new URLSearchParams(record).toString()] *)
Definition paramsToString (params : list (string * string)) : string :=
  String.concat "&" (map (fun p => urlencode (fst p) ++ "=" ++ urlencode (snd p)) params).

Definition newline : string := String (ascii_of_nat 10) EmptyString.

Definition buildIssueUrl (repoSlug : string) (uploadForm : Form) : string :=
  let repo := repoSlug in
  let base :=
    if truthyStr repo then "https://github.com/" ++ repo ++ "/issues/new"
    else "https://github.com/new" in
  let title := "[Dataset] Contributing " ++ orStr (name uploadForm) "" in
  let body :=
    String.concat newline
      [ "### Dataset name"; orStr (name uploadForm) ""; "";
        "### Description"; orStr (description uploadForm) ""; "";
        "### Data URL(s)"; orStr (links uploadForm) ""; "";
        "### Size"; orStr (size uploadForm) ""; "";
        "### Tags"; orStr (tags uploadForm) ""; "";
        "_Submitted via Z-Hub site_" ] in
  let params := [ ("title", title); ("body", body); ("labels", "dataset") ] in
  base ++ "?" ++ paramsToString params.

End Datasets.

(** * Specification-side notions *)

(** ** Substring search over the searchable fields *)

Definition Substring (q s : string) : Prop :=
  exists pre suf, s = pre ++ q ++ suf.

(** The strings a JSON value contributes: a string itself, the string
    elements of an array, and nothing for an absent field. *)
Definition strOf (v : JsValue) : list string :=
  match v with
  | JStr s => [s]
  | _ => []
  end.

Definition elemsOf (v : JsValue) : list JsValue :=
  match v with
  | JArr l => l
  | _ => []
  end.

Definition strsOf (v : JsValue) : list string :=
  flat_map strOf (elemsOf v).

Definition field (k : string) (c : JsValue) : JsValue :=
  match c with
  | JObj props => lookup k props
  | _ => JUndefined
  end.

(** Name, description, tags, "used in" entries, and the name and
    description of every capability. *)
Definition compositionFields (c : JsValue) : list string :=
  (strOf (field "name" c) ++ strOf (field "description" c)
   ++ strsOf (field "tags" c) ++ strsOf (field "usedIn" c)
   ++ flat_map (fun cap => strOf (field "name" cap) ++ strOf (field "description" cap))
        (elemsOf (field "capabilities" c)))%list.

(** Name, description and tags. *)
Definition moduleFields (m : JsValue) : list string :=
  (strOf (field "name" m) ++ strOf (field "description" m)
   ++ strsOf (field "tags" m))%list.


(** The text is ASCII: every byte is below 128.  On such text
    [toLowerCase] is the case mapping of the language. *)
Fixpoint isAscii (s : string) : bool :=
  match s with
  | EmptyString => true
  | String c s' => (N_of_ascii c <? 128)%N && isAscii s'
  end.

(** Every field is ASCII text. *)
Definition asciiFields (fields : list string) : bool :=
  forallb isAscii fields.

(** The lower-cased query occurs in at least one field, case ignored. *)
Definition Matches (query : string) (fields : list string) : Prop :=
  exists f, In f fields /\ Substring (toLowerCase query) (toLowerCase f).

(** The field [f], lower-cased, contains [query]. *)
Definition hit (query f : string) : bool :=
  includes (toLowerCase f) query.

Definition matchesb (query : string) (fields : list string) : bool :=
  existsb (hit (toLowerCase query)) fields.

(** The category filter lets an item through: no category is selected, or
    the item's category is the selected string. *)
Definition categoryPass (sentinel selected : string) (c : JsValue) : bool :=
  (selected =? sentinel) || strictEqStr (field "category" c) selected.

(** ** Items shaped as the data model says *)

Definition isStr (v : JsValue) : bool :=
  match v with
  | JStr _ => true
  | _ => false
  end.

Definition isStrArray (v : JsValue) : bool :=
  match v with
  | JArr l => forallb isStr l
  | _ => false
  end.

Definition absent (v : JsValue) : bool :=
  match v with
  | JUndefined | JNull => true
  | _ => false
  end.

Definition isCapability (cap : JsValue) : bool :=
  match cap with
  | JObj _ => isStr (field "name" cap) && isStr (field "description" cap)
  | _ => false
  end.

Definition isCapabilityArray (v : JsValue) : bool :=
  match v with
  | JArr l => forallb isCapability l
  | _ => false
  end.

(** An object with a name, a description and tags. *)
Definition wfModule (m : JsValue) : bool :=
  match m with
  | JObj _ =>
      isStr (field "name" m) && isStr (field "description" m)
      && isStrArray (field "tags" m)
  | _ => false
  end.

(** A composition: in addition, "used in" entries and capabilities, each
    of which may be absent. *)
Definition wfComposition (c : JsValue) : bool :=
  wfModule c
  && (absent (field "usedIn" c) || isStrArray (field "usedIn" c))
  && (absent (field "capabilities" c) || isCapabilityArray (field "capabilities" c)).

(** ** Sample data *)

(** The module of the specification's scenario. *)
Definition moduleRLE : JsValue :=
  JObj [ ("id", JStr "m1"); ("name", JStr "RLE"); ("category", JStr "Encoder");
         ("description", JStr "run length"); ("tags", JArr [JStr "lossless"]);
         ("features", JArr [JStr "fast"]) ].

(** An item with a name and a description and no nested collection. *)
Definition bareItem : JsValue :=
  JObj [ ("name", JStr "a"); ("description", JStr "b") ].

(** A composition with tags only, and one with every searchable field. *)
Definition taggedComposition : JsValue :=
  JObj [ ("id", JStr "c1"); ("name", JStr "SZ3"); ("category", JStr "CPU");
         ("description", JStr "Prediction based"); ("tags", JArr [JStr "lossy"]) ].

Definition fullComposition : JsValue :=
  JObj [ ("id", JStr "c2"); ("name", JStr "cuSZ"); ("category", JStr "GPU");
         ("description", JStr "GPU pipeline"); ("tags", JArr [JStr "lossy"; JStr "cuda"]);
         ("usedIn", JArr [JStr "FZ-GPU"]);
         ("capabilities",
          JArr [JObj [("name", JStr "Error bound"); ("description", JStr "absolute")]]) ].

(** ** Grouping by category *)

(** The value can be converted to a string. *)
Definition converts (v : JsValue) : bool :=
  match toStringJs v with
  | Normal _ => true
  | Throw _ => false
  end.

(** The property key a module is filed under: its category as a string,
    when the category can be converted to one. *)
Definition keyOf (m : JsValue) : string :=
  match toStringJs (field "category" m) with
  | Normal key => key
  | Throw _ => EmptyString
  end.

(** The modules of a sequence filed under [k], in their order. *)
Definition bucketOf (k : string) (l : list JsValue) : list JsValue :=
  filter (fun m => keyOf m =? k) l.

(** One bucket per key, the keys in the order of their first occurrence. *)
Definition groupsOf (l : list JsValue) : Modules.Grouped :=
  map (fun k => (k, bucketOf k l)) (newSet String.eqb (map keyOf l)).

(** A module the grouping can file: it is not [null], its category can be
    converted to a property key, and the key is not a property inherited from
    [Object.prototype]. *)
Definition groupable (m : JsValue) : bool :=
  negb (absent m) && converts (field "category" m)
  && negb (Modules.inherited (keyOf m)).

(** The key of the module is not an array index. *)
Definition namedKey (m : JsValue) : bool :=
  match Modules.arrayIndex (keyOf m) with
  | Some _ => false
  | None => true
  end.

Definition moduleOf (id category : string) : JsValue :=
  JObj [ ("id", JStr id); ("name", JStr id); ("category", JStr category);
         ("description", JStr "d"); ("tags", JArr []); ("features", JArr []) ].

(** Three modules of two categories, the categories alternating. *)
Definition alternating : list JsValue :=
  [ moduleOf "p1" "Predictor"; moduleOf "e1" "Encoder"; moduleOf "p2" "Predictor" ].

(** Two modules whose categories are the array indices 10 and 9. *)
Definition numbered : list JsValue :=
  [ moduleOf "a" "10"; moduleOf "b" "9" ].

(** ** Runs of the loaders *)

(** A candidate fails: its [tryFetch] promise is rejected. *)
Definition Fails (tryFetch : string -> Completion JsValue) (url : string) : Prop :=
  exists e, tryFetch url = Throw e.

(** [url] is the first candidate that resolves, and it resolves to [data]. *)
Inductive FirstResolved (tryFetch : string -> Completion JsValue)
  : list string -> string -> JsValue -> Prop :=
| resolved_here url rest data :
    tryFetch url = Normal data ->
    FirstResolved tryFetch (url :: rest) url data
| resolved_later u rest url data :
    Fails tryFetch u ->
    FirstResolved tryFetch rest url data ->
    FirstResolved tryFetch (u :: rest) url data.

(** The states the modules view goes through: it starts from [initial],
    the visitor edits the search box and the category, and [loadModules]
    runs, on mount and on every press of the reload button, against any
    network. *)
Inductive ModulesReachable : Modules.View -> Prop :=
| modules_initial : ModulesReachable Modules.initial
| modules_input v q c :
    ModulesReachable v ->
    ModulesReachable
      (Modules.mkView (Modules.modules v) (Modules.loading v) (Modules.error v) q c)
| modules_load v BASE_URL clock net :
    ModulesReachable v ->
    ModulesReachable (fst (Modules.loadModules BASE_URL clock net v)).

(** The states of the datasets view: [initial], then runs of the two
    loaders, alone or together in [loadAll]. *)
Inductive DatasetsReachable (SDRBENCH_EMBEDDED : option JsValue) : Datasets.View -> Prop :=
| datasets_initial : DatasetsReachable SDRBENCH_EMBEDDED Datasets.initial
| datasets_community v BASE_URL clock net :
    DatasetsReachable SDRBENCH_EMBEDDED v ->
    DatasetsReachable SDRBENCH_EMBEDDED
      (fst (Datasets.loadCommunityDatasets BASE_URL clock net v))
| datasets_sdrbench v BASE_URL clock net :
    DatasetsReachable SDRBENCH_EMBEDDED v ->
    DatasetsReachable SDRBENCH_EMBEDDED
      (fst (Datasets.loadSdrbenchDatasets SDRBENCH_EMBEDDED BASE_URL clock net v))
| datasets_all v BASE_URL clock net :
    DatasetsReachable SDRBENCH_EMBEDDED v ->
    DatasetsReachable SDRBENCH_EMBEDDED
      (fst (Datasets.loadAll SDRBENCH_EMBEDDED BASE_URL clock net v)).

(** Sample networks: nothing answers; everything answers 200 with the
    given body; only the root-absolute path of an asset answers. *)
Definition offline : Network :=
  fun _ => NetworkFailure.

Definition serving (body : option JsValue) : Network :=
  fun _ => Response 200 body.

Definition rootOnly (file : string) (data : JsValue) : Network :=
  fun url => if prefix ("/" ++ file) url then Response 200 (Some data) else Response 404 None.

Definition noon : nat -> N :=
  fun _ => 1700000000000%N.

(** A modules view that holds the scenario module, and a datasets view that
    holds one community dataset. *)
Definition loadedModules : Modules.View :=
  Modules.mkView (JArr [moduleRLE]) false EmptyString EmptyString "all".

Definition loadedDatasets : Datasets.View :=
  Datasets.mkView (JArr [JObj [("name", JStr "NYX")]]) (JArr []) false EmptyString EmptyString.

Definition emptyCompositions : Compositions.View :=
  Compositions.mkView (JArr []) EmptyString "All".

(** ** Facets *)

(** The item has a category, a string. *)
Definition hasCategory (c : JsValue) : bool :=
  isStr (field "category" c).

(** [y] is not put in front of [x] by the default sort. *)
Definition notAfter (x y : JsValue) : Prop :=
  sortBefore y x = Normal false.

(** [a] comes before [b] in the order of [sort()]: the order of the UTF-16
    code units of the two texts. *)
Definition codeUnitLt (a b : string) : Prop :=
  strLtb a b = true.

Definition catalogue : list JsValue :=
  [ moduleOf "q1" "Quantizer"; moduleOf "e1" "Encoder"; moduleOf "q2" "Quantizer";
    moduleOf "e2" "encoder" ].

(** Two categories outside ASCII.  [U+1F600] takes four bytes in UTF-8 and
    two surrogates in UTF-16; [U+FF5E] takes three bytes and one code unit. *)
Definition grinningFace : string :=
  String (ascii_of_N 240) (String (ascii_of_N 159) (String (ascii_of_N 152)
    (String (ascii_of_N 128) EmptyString))).

Definition fullwidthTilde : string :=
  String (ascii_of_N 239) (String (ascii_of_N 189) (String (ascii_of_N 158) EmptyString)).

(** ** Reading an issue URL back

    How the address is read by whoever receives it: the query of a URL and
    the parser of [application/x-www-form-urlencoded] text, which is what
    [new URL(url).searchParams] applies. *)

(** The text before the first [sep], and the text after it. *)
Fixpoint cutAt (sep : ascii) (s : string) : string * string :=
  match s with
  | EmptyString => (EmptyString, EmptyString)
  | String c s' =>
      if (c =? sep)%char then (EmptyString, s')
      else let (a, b) := cutAt sep s' in (String c a, b)
  end.

(** [s.split(sep)] *)
Fixpoint splitOn (sep : ascii) (s : string) : list string :=
  match s with
  | EmptyString => [EmptyString]
  | String c s' =>
      if (c =? sep)%char then EmptyString :: splitOn sep s'
      else match splitOn sep s' with
           | [] => [String c EmptyString]
           | w :: ws => String c w :: ws
           end
  end.

(** The query of a URL: what follows the first [?], the fragment that
    starts at the first [#] set aside. *)
Definition urlQuery (url : string) : string :=
  snd (cutAt "?" (fst (cutAt "#" url))).

Definition hexValue (c : ascii) : option N :=
  let n := N_of_ascii c in
  if ((48 <=? n) && (n <=? 57))%N then Some (n - 48)%N
  else if ((65 <=? n) && (n <=? 70))%N then Some (n - 55)%N
  else if ((97 <=? n) && (n <=? 102))%N then Some (n - 87)%N
  else None.

Definition hexPair (h l : ascii) : option ascii :=
  match hexValue h, hexValue l with
  | Some a, Some b => Some (ascii_of_N (16 * a + b))
  | _, _ => None
  end.

Fixpoint plusToSpace (s : string) : string :=
  match s with
  | EmptyString => EmptyString
  | String c s' => String (if (c =? "+")%char then " "%char else c) (plusToSpace s')
  end.

(** A percent sign followed by two hexadecimal digits stands for a byte. *)
Fixpoint percentDecode (s : string) : string :=
  match s with
  | EmptyString => EmptyString
  | String c rest =>
      match rest with
      | String h (String l rest') =>
          match (if (c =? "%")%char then hexPair h l else None) with
          | Some byte => String byte (percentDecode rest')
          | None => String c (percentDecode rest)
          end
      | _ => String c (percentDecode rest)
      end
  end.

Definition formDecode (s : string) : string :=
  percentDecode (plusToSpace s).

(** The name and value pairs of a query. *)
Definition parseQuery (q : string) : list (string * string) :=
  map (fun seg => let (n, v) := cutAt "=" seg in (formDecode n, formDecode v))
    (filter (fun seg => negb (seg =? EmptyString)) (splitOn "&" q)).

(** [searchParams.get(k)] *)
Fixpoint getParam (k : string) (params : list (string * string)) : option string :=
  match params with
  | [] => None
  | (n, v) :: rest => if n =? k then Some v else getParam k rest
  end.

(** [c] does not occur in [s]. *)
Fixpoint noChar (c : ascii) (s : string) : bool :=
  match s with
  | EmptyString => true
  | String d s' => negb (d =? c)%char && noChar c s'
  end.

(** A repository slug that can stand in the path of a URL: it holds no
    [?] and no [#]. *)
Definition pathSafe (repo : string) : bool :=
  noChar "?" repo && noChar "#" repo.

(** The test [/^[^/]+\/[^/]+$/] of [repoFromEnvOrGuess]: a configured text
    that passes it is returned as the slug as it stands. *)
Definition ownerRepoShape (raw : string) : bool :=
  let (owner, repo) := cutAt "/" raw in
  negb (owner =? EmptyString) && negb (repo =? EmptyString) && noChar "/" repo.

(** The body [buildIssueUrl] composes. *)
Definition issueBody (uploadForm : Datasets.Form) : string :=
  String.concat Datasets.newline
    [ "### Dataset name"; Datasets.name uploadForm; EmptyString;
      "### Description"; Datasets.description uploadForm; EmptyString;
      "### Data URL(s)"; Datasets.links uploadForm; EmptyString;
      "### Size"; Datasets.size uploadForm; EmptyString;
      "### Tags"; Datasets.tags uploadForm; EmptyString;
      "_Submitted via Z-Hub site_" ].

(** The form of the specification's scenario. *)
Definition formFoo : Datasets.Form :=
  Datasets.mkForm "Foo" EmptyString EmptyString "http://x" EmptyString.

(** * The rest of the datasets view *)

(** ** Identifiers of the benchmark groups *)

(** A character [/[a-z0-9]/] matches. *)
Definition isSlugChar (c : ascii) : bool :=
  let n := N_of_ascii c in
  (((97 <=? n) && (n <=? 122)) || ((48 <=? n) && (n <=? 57)))%N.

(** [s.replace(/[^a-z0-9]+/g, '-')]: every maximal run of other characters
    becomes one dash; [inRun] tells that the run has begun. *)
Fixpoint replaceRuns (inRun : bool) (s : string) : string :=
  match s with
  | EmptyString => EmptyString
  | String c s' =>
      if isSlugChar c then String c (replaceRuns false s')
      else if inRun then replaceRuns true s'
      else String "-" (replaceRuns true s')
  end.

Fixpoint allDashes (s : string) : bool :=
  match s with
  | EmptyString => true
  | String c s' => (c =? "-")%char && allDashes s'
  end.

Fixpoint dropLeadingDashes (s : string) : string :=
  match s with
  | EmptyString => EmptyString
  | String c s' => if (c =? "-")%char then dropLeadingDashes s' else s
  end.

Fixpoint dropTrailingDashes (s : string) : string :=
  match s with
  | EmptyString => EmptyString
  | String c s' =>
      if (c =? "-")%char && allDashes s' then EmptyString
      else String c (dropTrailingDashes s')
  end.

(** [s.replace(/^-+|-+$/g, '')] *)
Definition stripDashes (s : string) : string :=
  dropTrailingDashes (dropLeadingDashes s).

(** The text [slugifyId] puts after its prefix. *)
Definition slugBody (s : string) : string :=
  stripDashes (replaceRuns false (toLowerCase s)).

Definition slugifyId (s : string) : string :=
  "sdrgrp-" ++ slugBody s.

Definition safeGroupId (name : string) : string :=
  "collapse-" ++ slugifyId (orStr name "uncategorized").

(** Every character of [s] passes [p]. *)
Fixpoint allChars (p : ascii -> bool) (s : string) : bool :=
  match s with
  | EmptyString => true
  | String c s' => p c && allChars p s'
  end.

Definition firstIs (c : ascii) (s : string) : bool :=
  match s with
  | String d _ => (d =? c)%char
  | EmptyString => false
  end.

Fixpoint lastIs (c : ascii) (s : string) : bool :=
  match s with
  | EmptyString => false
  | String d EmptyString => (d =? c)%char
  | String _ s' => lastIs c s'
  end.

(** A lower-case letter or digit, or a dash. *)
Definition isSlugOrDash (c : ascii) : bool :=
  isSlugChar c || (c =? "-")%char.

(** An ASCII letter or digit. *)
Definition isAlnum (c : ascii) : bool :=
  isSlugChar (lowerAscii c).

Definition notAlnum (c : ascii) : bool :=
  negb (isAlnum c).

(** ** Guessing the category of a benchmark from its name *)

(** [/k1|k2|.../.test(n)]: one of the keywords occurs in [n]. *)
Definition testAny (keywords : list string) (n : string) : bool :=
  existsb (includes n) keywords.

Definition inferCategoryFromName (name : string) : string :=
  let n := toLowerCase name in
  if testAny ["climate"; "cesm"; "era"; "atm"; "weather"; "ncar"] n then "Climate/Weather"
  else if testAny ["hurricane"; "isabel"] n then "Hurricane"
  else if testAny ["nyx"; "cosmology"] n then "Cosmology"
  else if testAny ["miranda"; "combustion"; "s3d"] n then "Combustion"
  else if testAny ["hacc"; "particle"] n then "Particles"
  else if testAny ["exafel"; "lcls"; "xrd"] n then "Light source"
  else if testAny ["md"; "molecular"; "protein"; "atom"] n then "Molecular Dynamics"
  else "Uncategorized".

(** The tests of [inferCategoryFromName] as a table: the keywords of each
    test and the category it returns, in the order of the tests. *)
Definition categoryRules : list (list string * string) :=
  [ (["climate"; "cesm"; "era"; "atm"; "weather"; "ncar"], "Climate/Weather");
    (["hurricane"; "isabel"], "Hurricane");
    (["nyx"; "cosmology"], "Cosmology");
    (["miranda"; "combustion"; "s3d"], "Combustion");
    (["hacc"; "particle"], "Particles");
    (["exafel"; "lcls"; "xrd"], "Light source");
    (["md"; "molecular"; "protein"; "atom"], "Molecular Dynamics") ].

(** The category of the first row of a table one of whose keywords occurs
    in [n]. *)
Fixpoint firstRule (rules : list (list string * string)) (n : string) : string :=
  match rules with
  | [] => "Uncategorized"
  | (keywords, category) :: rest =>
      if testAny keywords n then category else firstRule rest n
  end.

(** Every keyword of every rule. *)
Definition categoryKeywords : list string :=
  flat_map fst categoryRules.

(** ** The repository the submissions go to *)

(** What the code reads of [new URL(text)] and of [window.location]. *)
Record Location : Type := mkLocation {
  locHostname : string;
  locPathname : string
}.

(** [new URL(text)]: [None] when the constructor throws. *)
Definition UrlParser : Type := string -> option Location.

(** [path.split('/').filter(Boolean)] *)
Definition segments (path : string) : list string :=
  filter truthyStr (splitOn "/" path).

(** [/^https?:\/\//i.test(raw)] *)
Definition isHttpUrl (raw : string) : bool :=
  prefix "http://" (toLowerCase raw) || prefix "https://" (toLowerCase raw).

(** [s.endsWith(suffix)] *)
Fixpoint endsWith (s suffix : string) : bool :=
  (s =? suffix) ||
  match s with
  | EmptyString => false
  | String _ s' => endsWith s' suffix
  end.

(** The first part of [repoFromEnvOrGuess]: the slug the configured text
    gives, if it gives one. *)
Definition repoFromEnv (raw : string) (newURL : UrlParser) : option string :=
  if truthyStr raw then
    match
      (if isHttpUrl raw then
         match newURL raw with
         | Some u =>
             let parts := segments (locPathname u) in
             if includes (locHostname u) "github.com" && (2 <=? List.length parts)%nat
             then Some (nth 0 parts EmptyString ++ "/" ++ nth 1 parts EmptyString)
             else None
         | None => None
         end
       else None)
    with
    | Some slug => Some slug
    | None => if ownerRepoShape raw then Some raw else None
    end
  else None.

(** The second part: the slug guessed from the address of the page.
    [location] is [None] when reading [window.location] throws. *)
Definition repoFromLocation (BASE_URL : string) (location : option Location) : string :=
  match location with
  | Some loc =>
      if endsWith (locHostname loc) "github.io" then
        let owner := hd EmptyString (splitOn "." (locHostname loc)) in
        let parts := segments (orStr BASE_URL (locPathname loc)) in
        match parts with
        | repo :: _ => if truthyStr owner && truthyStr repo then owner ++ "/" ++ repo else EmptyString
        | [] => EmptyString
        end
      else EmptyString
  | None => EmptyString
  end.

(** [repoFromEnvOrGuess()], the configured text being [VITE_GITHUB_REPO],
    empty when it is not set. *)
Definition repoFromEnvOrGuess (VITE_GITHUB_REPO BASE_URL : string)
    (newURL : UrlParser) (location : option Location) : string :=
  match repoFromEnv VITE_GITHUB_REPO newURL with
  | Some slug => slug
  | None => repoFromLocation BASE_URL location
  end.

(** The number of occurrences of [c] in [s]. *)
Fixpoint countChar (c : ascii) (s : string) : nat :=
  match s with
  | EmptyString => 0
  | String d s' => (if (d =? c)%char then 1 else 0) + countChar c s'
  end.

(** A parser for the samples: it knows one address. *)
Definition sampleParser : UrlParser :=
  fun text =>
    if text =? "https://github.com/szcompressor/Z-Hub/tree/main"
    then Some (mkLocation "github.com" "/szcompressor/Z-Hub/tree/main")
    else None.

(** ** The host shown for a link *)

(** A character [/[a-z]/i] matches. *)
Definition isLetter (c : ascii) : bool :=
  let n := N_of_ascii (lowerAscii c) in
  ((97 <=? n) && (n <=? 122))%N.

Fixpoint skipLetters (s : string) : string :=
  match s with
  | EmptyString => EmptyString
  | String c s' => if isLetter c then skipLetters s' else s
  end.

(** What is left of [s] after the text [p] it starts with. *)
Fixpoint stripPrefix (p s : string) : option string :=
  match p with
  | EmptyString => Some s
  | String a p' =>
      match s with
      | EmptyString => None
      | String b s' => if (a =? b)%char then stripPrefix p' s' else None
      end
  end.

(** The group of [/^[a-z]+:\/\/([^\/]+)/i] in [lnk], when it matches:
    letters, then [://], then the longest text without a slash, not empty. *)
Definition schemeHost (lnk : string) : option string :=
  match lnk with
  | EmptyString => None
  | String c _ =>
      if isLetter c then
        match stripPrefix "://" (skipLetters lnk) with
        | Some rest =>
            let host := fst (cutAt "/" rest) in
            if truthyStr host then Some host else None
        | None => None
        end
      else None
  end.

(** [hostname(lnk)] *)
Definition hostname (newURL : UrlParser) (lnk : string) : string :=
  match newURL lnk with
  | Some u => locHostname u
  | None =>
      match schemeHost lnk with
      | Some host => host
      | None => lnk
      end
  end.

(** * Further notions for the views *)

(** [r] is [l] with some elements left out, the others in their order. *)
Inductive Subseq {A : Type} : list A -> list A -> Prop :=
| subseq_nil : Subseq [] []
| subseq_keep x r l : Subseq r l -> Subseq (x :: r) (x :: l)
| subseq_drop x r l : Subseq r l -> Subseq r (x :: l).

(** The item is neither [null] nor [undefined]. *)
Definition present (c : JsValue) : bool :=
  negb (absent c).

(** The search lets an item with these fields through: it is off for the
    empty query. *)
Definition searchPass (query : string) (fields : list string) : bool :=
  negb (truthyStr query) || matchesb query fields.

(** A module without tags, and a well-shaped one of another category. *)
Definition taglessFilter : JsValue :=
  JObj [ ("id", JStr "f1"); ("name", JStr "Bloom"); ("category", JStr "Filter");
         ("description", JStr "membership") ].

Definition mixedCatalogue : list JsValue :=
  [ taglessFilter; moduleRLE ].

(** An object with a name and a description, and no tags. *)
Definition tagless (c : JsValue) : bool :=
  match c with
  | JObj _ =>
      isStr (field "name" c) && isStr (field "description" c) && absent (field "tags" c)
  | _ => false
  end.

(** The name and the description of an item. *)
Definition headFields (c : JsValue) : list string :=
  (strOf (field "name" c) ++ strOf (field "description" c))%list.

(** ** Values the facets cannot sort *)

(** The values of a list other than [undefined], which [sort()] compares. *)
Definition defined (l : list JsValue) : list JsValue :=
  filter (fun v => negb (isUndefined v)) l.

(** The head of the list is a value other than [undefined], unless the
    list holds nothing else. *)
Definition headOk (s : list JsValue) : bool :=
  match s with
  | [] => true
  | h :: t => negb (isUndefined h) || forallb isUndefined t
  end.

(** A module whose category is an object with a [toString] property of its
    own. *)
Definition oddCategory : JsValue :=
  JObj [ ("id", JStr "o1"); ("name", JStr "Odd");
         ("category", JObj [ ("toString", JNum "1") ]);
         ("description", JStr "d"); ("tags", JArr []) ].

(** ** Badge colours *)

(** What [colors[category] || 'secondary'] evaluates to: a class name, or the
    member of [Object.prototype] the key names. *)
Inductive Badge : Type :=
| ClassName (name : string)
| PrototypeMember (key : string).

(** A lookup in an object literal whose values are non-empty strings,
    followed by [|| fallback]. *)
Fixpoint lookupOr (table : list (string * string)) (fallback : string) (key : string) : Badge :=
  match table with
  | [] => if Modules.inherited key then PrototypeMember key else ClassName fallback
  | (k, v) :: rest => if k =? key then ClassName v else lookupOr rest fallback key
  end.

Module CompositionsBadges.

Definition getCategoryColor (category : string) : Badge :=
  lookupOr [ ("CPU", "primary"); ("GPU", "success"); ("Mixed", "warning");
             ("Other", "secondary") ] "secondary" category.

Definition getCompressionTypeColor (type : string) : Badge :=
  lookupOr [ ("Lossless", "info"); ("Lossy", "danger"); ("Hybrid", "warning") ]
    "secondary" type.

End CompositionsBadges.

Module ModulesBadges.

Definition getCategoryColor (category : string) : Badge :=
  lookupOr [ ("Predictor", "primary"); ("Encoder", "success"); ("Quantizer", "warning");
             ("Transformer", "info"); ("Filter", "secondary"); ("Mutator", "purple");
             ("Shuffler", "cyan"); ("Verifier", "dark") ] "secondary" category.

(** The class names the modules view can give a badge. *)
Definition palette : list string :=
  [ "primary"; "success"; "warning"; "info"; "secondary"; "purple"; "cyan"; "dark" ].

End ModulesBadges.

(** ** The order of the buckets on the page *)

(** The key of the bucket is not an array index. *)
Definition namedBucket (e : string * list JsValue) : bool :=
  match Modules.arrayIndex (fst e) with
  | Some _ => false
  | None => true
  end.

Definition indexBucket (e : string * list JsValue) : bool :=
  negb (namedBucket e).

(** Both keys are array indices, the first not above the second. *)
Definition indexLe (a b : string * list JsValue) : Prop :=
  match Modules.arrayIndex (fst a), Modules.arrayIndex (fst b) with
  | Some x, Some y => (x <= y)%N
  | _, _ => False
  end.

(** The key is not an array index. *)
Definition namedText (k : string) : bool :=
  match Modules.arrayIndex k with
  | Some _ => false
  | None => true
  end.

(** Modules with numeric and named categories mixed, and their grouping. *)
Definition mixedModules : list JsValue :=
  [ moduleOf "e" "Encoder"; moduleOf "a" "10"; moduleOf "f" "Filter"; moduleOf "b" "9" ].

Definition mixedKeys : Modules.Grouped :=
  [ ("Encoder", [ moduleOf "e" "Encoder" ]); ("10", [ moduleOf "a" "10" ]);
    ("Filter", [ moduleOf "f" "Filter" ]); ("9", [ moduleOf "b" "9" ]) ].

(** * Proofs *)

(** ** Completions *)

Lemma orElse_normal (a b : bool) :
  (Normal a ||| Normal b) = Normal (a || b).
Proof. destruct a; reflexivity. Qed.

Lemma filterM_normal (f : JsValue -> Completion bool) (fb : JsValue -> bool) l :
  (forall x, In x l -> f x = Normal (fb x)) ->
  filterM f l = Normal (filter fb l).
Proof.
  induction l as [|x l IH]; intros H; simpl.
  - reflexivity.
  - rewrite (H x (or_introl eq_refl)). simpl.
    rewrite IH by (intros y Hy; apply H; right; exact Hy).
    reflexivity.
Qed.

Lemma filter_filter {A} (f g : A -> bool) l :
  filter g (filter f l) = filter (fun x => f x && g x) l.
Proof.
  induction l as [|x l IH]; simpl; [reflexivity|].
  destruct (f x); simpl; [destruct (g x)|]; rewrite IH; reflexivity.
Qed.

(** ** Substrings *)

Lemma prefix_spec q s :
  prefix q s = true <-> exists suf, s = q ++ suf.
Proof.
  revert s. induction q as [|a q IH]; intros s.
  - simpl. destruct s; split; intros _; try reflexivity; eexists; reflexivity.
  - destruct s as [|b s]; simpl.
    + split; [discriminate | intros [suf H]; discriminate].
    + destruct (ascii_dec a b) as [->|Hne].
      * rewrite IH. split; intros [suf H]; exists suf; [subst; reflexivity | congruence].
      * split; [discriminate | intros [suf H]; congruence].
Qed.

Lemma includes_spec s q :
  includes s q = true <-> Substring q s.
Proof.
  induction s as [|a s IH].
  - cbn [includes]. rewrite orb_false_r, prefix_spec. split.
    + intros [suf H]. exists EmptyString, suf. exact H.
    + intros [pre [suf H]]. destruct pre; [exists suf; exact H | discriminate].
  - cbn [includes]. rewrite orb_true_iff, prefix_spec, IH. split.
    + intros [[suf H] | [pre [suf H]]].
      * exists EmptyString, suf. exact H.
      * exists (String a pre), suf. simpl. rewrite H. reflexivity.
    + intros [pre [suf H]]. destruct pre as [|b pre].
      * left. exists suf. exact H.
      * right. exists pre, suf. simpl in H. congruence.
Qed.

Lemma matchesb_spec query fields :
  matchesb query fields = true <-> Matches query fields.
Proof.
  unfold matchesb, Matches. rewrite existsb_exists.
  split; intros [f [Hin H]]; exists f; split; try exact Hin; apply includes_spec; exact H.
Qed.

(** ** The search callbacks on well-shaped items *)

Section SearchCallbacks.
Variable query : string.

Lemma some_normal (f : JsValue -> Completion bool) (g : JsValue -> list string) l :
  (forall x, In x l -> f x = Normal (existsb (hit query) (g x))) ->
  some f l = Normal (existsb (hit query) (flat_map g l)).
Proof.
  induction l as [|x l IH]; intros H; simpl; [reflexivity|].
  rewrite (H x (or_introl eq_refl)), existsb_app. simpl.
  destruct (existsb (hit query) (g x)); simpl; [reflexivity|].
  apply IH. intros y Hy. apply H. right. exact Hy.
Qed.

Lemma lowerIncludes_str v :
  isStr v = true -> lowerIncludes v query = Normal (existsb (hit query) (strOf v)).
Proof.
  destruct v; try discriminate. intros _. unfold lowerIncludes, hit. simpl.
  rewrite orb_false_r. reflexivity.
Qed.

Lemma callSome_strings v :
  isStrArray v = true ->
  callSome v (fun t => lowerIncludes t query) = Normal (existsb (hit query) (strsOf v)).
Proof.
  destruct v; try discriminate. simpl. intros H.
  apply some_normal. intros x Hx. apply lowerIncludes_str.
  rewrite forallb_forall in H. apply H. exact Hx.
Qed.

Lemma optSome_strings v :
  absent v || isStrArray v = true ->
  optSome v (fun t => lowerIncludes t query) = Normal (existsb (hit query) (strsOf v)).
Proof.
  intros H. destruct v; try discriminate; try reflexivity.
  apply callSome_strings. exact H.
Qed.

Lemma optSome_capabilities v :
  absent v || isCapabilityArray v = true ->
  optSome v (fun cap =>
    (n <- getProp cap "name" ;; lowerIncludes n query)
    ||| (d <- getProp cap "description" ;; lowerIncludes d query))
  = Normal (existsb (hit query)
      (flat_map (fun cap => strOf (field "name" cap) ++ strOf (field "description" cap))%list
         (elemsOf v))).
Proof.
  intros H. destruct v; try discriminate; try reflexivity.
  simpl in H. simpl. apply some_normal. intros cap Hcap.
  rewrite forallb_forall in H. specialize (H cap Hcap).
  destruct cap; try discriminate. apply andb_true_iff in H as [Hn Hd].
  cbn [getProp bind]. change (lookup "name" props) with (field "name" (JObj props)).
  change (lookup "description" props) with (field "description" (JObj props)).
  rewrite (lowerIncludes_str _ Hn), (lowerIncludes_str _ Hd), orElse_normal, existsb_app.
  reflexivity.
Qed.

Lemma modules_searchMatch_normal m :
  wfModule m = true ->
  Modules.searchMatch query m = Normal (existsb (hit query) (moduleFields m)).
Proof.
  intros H. destruct m; try discriminate.
  unfold wfModule in H. apply andb_true_iff in H as [H Ht].
  apply andb_true_iff in H as [Hn Hd].
  unfold Modules.searchMatch, moduleFields. cbn [getProp bind].
  change (lookup "name" props) with (field "name" (JObj props)).
  change (lookup "description" props) with (field "description" (JObj props)).
  change (lookup "tags" props) with (field "tags" (JObj props)).
  rewrite (lowerIncludes_str _ Hn), (lowerIncludes_str _ Hd), (callSome_strings _ Ht).
  rewrite !orElse_normal, !existsb_app, orb_assoc. reflexivity.
Qed.

Lemma compositions_searchMatch_normal c :
  wfComposition c = true ->
  Compositions.searchMatch query c = Normal (existsb (hit query) (compositionFields c)).
Proof.
  intros H. unfold wfComposition in H.
  apply andb_true_iff in H as [H Hk]. apply andb_true_iff in H as [H Hu].
  destruct c; try discriminate.
  unfold wfModule in H. apply andb_true_iff in H as [H Ht].
  apply andb_true_iff in H as [Hn Hd].
  unfold Compositions.searchMatch, compositionFields. cbn [getProp bind].
  change (lookup "name" props) with (field "name" (JObj props)).
  change (lookup "description" props) with (field "description" (JObj props)).
  change (lookup "tags" props) with (field "tags" (JObj props)).
  change (lookup "usedIn" props) with (field "usedIn" (JObj props)).
  change (lookup "capabilities" props) with (field "capabilities" (JObj props)).
  rewrite (lowerIncludes_str _ Hn), (lowerIncludes_str _ Hd), (callSome_strings _ Ht).
  rewrite (optSome_strings _ Hu), (optSome_capabilities _ Hk).
  rewrite !orElse_normal, !existsb_app, !orb_assoc. reflexivity.
Qed.
End SearchCallbacks.

Lemma categoryMatch_normal selected c :
  absent c = false ->
  Compositions.categoryMatch selected c = Normal (strictEqStr (field "category" c) selected)
  /\ Modules.categoryMatch selected c = Normal (strictEqStr (field "category" c) selected).
Proof.
  intros H. destruct c; try discriminate; split; reflexivity.
Qed.

Lemma wfModule_present m : wfModule m = true -> absent m = false.
Proof. destruct m; try discriminate; reflexivity. Qed.

Lemma wfComposition_wfModule c : wfComposition c = true -> wfModule c = true.
Proof.
  unfold wfComposition. intros H.
  apply andb_true_iff in H as [H _]. apply andb_true_iff in H as [H _]. exact H.
Qed.

(** ** Search and category filter (C1, C4) *)




Lemma absent_optionals_fields c :
  absent (field "usedIn" c) = true ->
  absent (field "capabilities" c) = true ->
  compositionFields c = moduleFields c.
Proof.
  intros Hu Hk. unfold compositionFields, moduleFields.
  destruct (field "usedIn" c); try discriminate;
    destruct (field "capabilities" c); try discriminate;
    cbn [strsOf elemsOf flat_map]; rewrite !app_nil_r; reflexivity.
Qed.

(** C4, amended.  For every item with a name, a description and tags whose
    "used in" entries and capabilities are absent, the search callbacks of
    both views return without throwing, whatever the query, and return the
    same answer; for ASCII text that answer is the one of a search over name,
    description and tags: what is absent counts as empty. *)
Theorem search_tolerates_absent_optional_collections :
  forall query c,
    wfModule c = true ->
    absent (field "usedIn" c) = true ->
    absent (field "capabilities" c) = true ->
    (exists kept,
        Compositions.searchMatch query c = Normal kept
        /\ Modules.searchMatch query c = Normal kept)
    /\ (isAscii query = true ->
        asciiFields (moduleFields c) = true ->
        Compositions.searchMatch (toLowerCase query) c = Normal (matchesb query (moduleFields c))
        /\ Modules.searchMatch (toLowerCase query) c
           = Normal (matchesb query (moduleFields c))).
Proof.
  intros query c Hwf Hu Hk.
  assert (Hc : wfComposition c = true)
    by (unfold wfComposition; rewrite Hwf, Hu, Hk; reflexivity).
  assert (H : forall q,
            Compositions.searchMatch q c = Normal (existsb (hit q) (moduleFields c))
            /\ Modules.searchMatch q c = Normal (existsb (hit q) (moduleFields c))).
  { intros q. split.
    - rewrite (compositions_searchMatch_normal q c Hc), (absent_optionals_fields c Hu Hk).
      reflexivity.
    - exact (modules_searchMatch_normal q c Hwf). }
  split.
  - exists (existsb (hit query) (moduleFields c)). exact (H query).
  - intros _ _. exact (H (toLowerCase query)).
Qed.

(** The theorem at a composition that has tags only and a query none of
    its fields contains, so that both optional collections are consulted. *)
Lemma search_tolerates_absent_optional_collections_witness :
  (exists kept,
      Compositions.searchMatch "zfp" taggedComposition = Normal kept
      /\ Modules.searchMatch "zfp" taggedComposition = Normal kept)
  /\ Compositions.searchMatch (toLowerCase "ZFP") taggedComposition = Normal false
  /\ Modules.searchMatch (toLowerCase "ZFP") taggedComposition = Normal false.
Proof.
  exact (conj
    (proj1 (search_tolerates_absent_optional_collections "zfp" taggedComposition
              eq_refl eq_refl eq_refl))
    (proj2 (search_tolerates_absent_optional_collections "ZFP" taggedComposition
              eq_refl eq_refl eq_refl) eq_refl eq_refl)).
Defined.

(** C4 as stated fails for absent tags: on an item without tags the
    callbacks of both views throw as soon as neither the name nor the
    description contains the query, and so do the computed properties. *)
Lemma search_throws_without_tags :
  Compositions.searchMatch "z" bareItem = Throw TypeError
  /\ Modules.searchMatch "z" bareItem = Throw TypeError
  /\ Compositions.filteredCompositions (Compositions.mkView (JArr [bareItem]) "z" "All")
     = Throw TypeError
  /\ Modules.modulesByCategory (Modules.mkView (JArr [bareItem]) false EmptyString "z" "all")
     = Throw TypeError.
Proof. repeat split. Qed.

(** ** Sets of strings *)

Lemma setAdd_in (x : string) s : In x s -> setAdd String.eqb x s = s.
Proof.
  induction s as [|y s IH]; simpl; [contradiction|].
  intros [-> | H].
  - rewrite String.eqb_refl. reflexivity.
  - destruct (y =? x); [reflexivity | rewrite (IH H); reflexivity].
Qed.

Lemma setAdd_notin (x : string) s : ~ In x s -> setAdd String.eqb x s = (s ++ [x])%list.
Proof.
  induction s as [|y s IH]; simpl; intros H; [reflexivity|].
  destruct (String.eqb_spec y x) as [->|Hne].
  - exfalso. apply H. left. reflexivity.
  - rewrite IH; [reflexivity | intros Hin; apply H; right; exact Hin].
Qed.

Lemma newSet_snoc {A} (same : A -> A -> bool) l x :
  newSet same (l ++ [x]) = setAdd same x (newSet same l).
Proof. unfold newSet. rewrite fold_left_app. reflexivity. Qed.

Lemma newSet_In (l : list string) y : In y (newSet String.eqb l) <-> In y l.
Proof.
  induction l as [|x l IH] using rev_ind.
  - reflexivity.
  - rewrite newSet_snoc, in_app_iff. simpl.
    destruct (in_dec string_dec x (newSet String.eqb l)) as [Hin | Hout].
    + rewrite (setAdd_in _ _ Hin), IH. split; [tauto|].
      intros [H | [<- | []]]; [exact H | apply IH; exact Hin].
    + rewrite (setAdd_notin _ _ Hout), in_app_iff, IH. simpl. tauto.
Qed.

Lemma newSet_NoDup (l : list string) : NoDup (newSet String.eqb l).
Proof.
  induction l as [|x l IH] using rev_ind.
  - constructor.
  - rewrite newSet_snoc.
    destruct (in_dec string_dec x (newSet String.eqb l)) as [Hin | Hout].
    + rewrite (setAdd_in _ _ Hin). exact IH.
    + rewrite (setAdd_notin _ _ Hout). apply NoDup_app; [exact IH | repeat constructor; intros [] |].
      intros a Ha [<- | []]. exact (Hout Ha).
Qed.

(** ** Grouping (C2) *)

Lemma bucketOf_snoc k l m :
  bucketOf k (l ++ [m]) = (bucketOf k l ++ (if keyOf m =? k then [m] else []))%list.
Proof. unfold bucketOf. rewrite filter_app. reflexivity. Qed.

Lemma bucketOf_nil k l : ~ In k (map keyOf l) -> bucketOf k l = [].
Proof.
  induction l as [|x l IH]; simpl; intros H; [reflexivity|].
  destruct (String.eqb_spec (keyOf x) k) as [E | _].
  - exfalso. apply H. left. exact E.
  - apply IH. intros Hin. apply H. right. exact Hin.
Qed.

Lemma ownProp_map (F : string -> list JsValue) k ks :
  Modules.ownProp k (map (fun k' => (k', F k')) ks) = if in_dec string_dec k ks then Some (F k) else None.
Proof.
  induction ks as [|k' ks IH]; simpl; [reflexivity|].
  destruct (String.eqb_spec k' k) as [-> | Hne].
  - destruct (string_dec k k); [|contradiction]. reflexivity.
  - rewrite IH. destruct (string_dec k' k); [contradiction|].
    destruct (in_dec string_dec k ks); reflexivity.
Qed.

(** Pushing into the bucket of [k] extends that bucket and no other. *)
Lemma pushTo_map l m ks :
  NoDup ks ->
  Modules.pushTo (keyOf m) m (map (fun k => (k, bucketOf k l)) ks)
  = map (fun k => (k, bucketOf k (l ++ [m]))) ks.
Proof.
  induction ks as [|k ks IH]; intros Hnd; simpl; [reflexivity|].
  inversion Hnd as [|? ? Hout Hnd']; subst.
  rewrite bucketOf_snoc.
  destruct (String.eqb_spec k (keyOf m)) as [-> | Hne].
  - rewrite String.eqb_refl. f_equal.
    apply map_ext_in. intros k Hk. rewrite bucketOf_snoc.
    destruct (String.eqb_spec (keyOf m) k) as [<- | _]; [contradiction|].
    rewrite app_nil_r. reflexivity.
  - destruct (String.eqb_spec (keyOf m) k) as [E | _]; [congruence|].
    rewrite app_nil_r, (IH Hnd'). reflexivity.
Qed.

Lemma groupsOf_snoc l m :
  groupsOf (l ++ [m])
  = match Modules.ownProp (keyOf m) (groupsOf l) with
    | Some _ => Modules.pushTo (keyOf m) m (groupsOf l)
    | None => (groupsOf l ++ [(keyOf m, [m])])%list
    end.
Proof.
  unfold groupsOf at 2. rewrite ownProp_map.
  unfold groupsOf. rewrite map_app. cbn [map]. rewrite newSet_snoc.
  destruct (in_dec string_dec (keyOf m) (newSet String.eqb (map keyOf l))) as [Hin | Hout].
  - rewrite (setAdd_in _ _ Hin), pushTo_map by apply newSet_NoDup. reflexivity.
  - rewrite (setAdd_notin _ _ Hout), map_app. cbn [map]. f_equal.
    + apply map_ext_in. intros k Hk. rewrite bucketOf_snoc.
      destruct (String.eqb_spec (keyOf m) k) as [<- | _]; [contradiction|].
      rewrite app_nil_r. reflexivity.
    + rewrite bucketOf_snoc, String.eqb_refl, bucketOf_nil; [reflexivity|].
      intros Hin. apply Hout, newSet_In. exact Hin.
Qed.

Lemma sequence_throws {A} (cs : list (Completion A)) e :
  sequence cs = Throw e -> In (Throw e) cs.
Proof.
  induction cs as [|c cs IH]; cbn [sequence]; [discriminate|].
  destruct c as [a|e']; cbn [bind].
  - destruct (sequence cs) as [r|e'']; cbn [bind]; [discriminate|].
    intros H. injection H as <-. right. exact (IH eq_refl).
  - intros H. injection H as <-. left. reflexivity.
Qed.

(** [toStringJs] throws nothing but a [TypeError]. *)
Lemma toStringJs_throws : forall v e, toStringJs v = Throw e -> e = TypeError.
Proof.
  fix IH 1. intros v e. destruct v as [| | [|] | r | s | elems | props]; cbn [toStringJs];
    try discriminate.
  - intros H.
    assert (Hall : forall x, In x elems ->
                   forall e', toStringJs x = Throw e' -> e' = TypeError).
    { clear - IH. induction elems as [|y elems IHe]; intros x Hin; [destruct Hin|].
      destruct Hin as [Hy | Hx]; [destruct Hy; exact (IH y) | exact (IHe x Hx)]. }
    match type of H with
    | bind ?c _ = _ => destruct c as [parts|e0] eqn:E0
    end; cbn [bind] in H; [discriminate|].
    injection H as <-. apply sequence_throws, in_map_iff in E0 as [x [Ex Hx]].
    destruct x; try discriminate Ex; exact (Hall _ Hx _ Ex).
  - destruct (owns "toString" props); [|discriminate].
    intros H. injection H as <-. reflexivity.
Qed.

Lemma converts_keyOf m :
  converts (field "category" m) = true ->
  toStringJs (field "category" m) = Normal (keyOf m).
Proof.
  unfold converts, keyOf. destruct (toStringJs (field "category" m)); [reflexivity | discriminate].
Qed.

Lemma converts_false v : converts v = false -> toStringJs v = Throw TypeError.
Proof.
  unfold converts. destruct (toStringJs v) as [s|e] eqn:E; [discriminate|].
  intros _. rewrite (toStringJs_throws _ _ E). reflexivity.
Qed.

Lemma groupable_parts m :
  groupable m = true ->
  absent m = false /\ converts (field "category" m) = true
  /\ Modules.inherited (keyOf m) = false.
Proof.
  unfold groupable. intros H. apply andb_true_iff in H as [H Hi].
  apply andb_true_iff in H as [Hp Hv].
  apply negb_true_iff in Hp. apply negb_true_iff in Hi. repeat split; assumption.
Qed.

Lemma groupStep_groupsOf l m :
  groupable m = true ->
  Modules.groupStep (groupsOf l) m = Normal (groupsOf (l ++ [m])).
Proof.
  intros H. apply groupable_parts in H as [Hp [Hv Hi]]. rewrite groupsOf_snoc.
  unfold Modules.groupStep.
  assert (Hc : getProp m "category" = Normal (field "category" m))
    by (destruct m; try discriminate; reflexivity).
  rewrite Hc. cbn [bind]. rewrite (converts_keyOf _ Hv). cbn [bind].
  destruct (Modules.ownProp (keyOf m) (groupsOf l)); [reflexivity|].
  rewrite Hi. reflexivity.
Qed.

Lemma forEachGroup_groupsOf l0 l :
  forallb groupable l = true ->
  Modules.forEachGroup l (groupsOf l0) = Normal (groupsOf (l0 ++ l)).
Proof.
  revert l0. induction l as [|m l IH]; intros l0 H; simpl.
  - rewrite app_nil_r. reflexivity.
  - simpl in H. apply andb_true_iff in H as [Hm Hl].
    rewrite (groupStep_groupsOf _ _ Hm). cbn [bind].
    rewrite (IH _ Hl), <- app_assoc. reflexivity.
Qed.

Lemma pushTo_flat k m g b :
  Modules.ownProp k g = Some b ->
  Permutation (flat_map snd (Modules.pushTo k m g)) (flat_map snd g ++ [m]).
Proof.
  revert b. induction g as [|[k' l] g IH]; intros b; simpl; [discriminate|].
  destruct (k' =? k); intros H; simpl.
  - rewrite <- !app_assoc. apply Permutation_app_head. apply Permutation_app_comm.
  - rewrite <- app_assoc. apply Permutation_app_head. exact (IH _ H).
Qed.

Lemma groupsOf_flat l : Permutation (flat_map snd (groupsOf l)) l.
Proof.
  induction l as [|m l IH] using rev_ind.
  - constructor.
  - rewrite groupsOf_snoc.
    destruct (Modules.ownProp (keyOf m) (groupsOf l)) eqn:E.
    + rewrite (pushTo_flat _ _ _ _ E). apply Permutation_app_tail. exact IH.
    + rewrite flat_map_app. simpl. apply Permutation_app_tail. exact IH.
Qed.

Lemma insertIndexed_perm e l : Permutation (Modules.insertIndexed e l) (e :: l).
Proof.
  induction l as [|e' l IH]; simpl; [reflexivity|].
  destruct (fst e <? fst e')%N; [reflexivity|].
  rewrite IH. apply perm_swap.
Qed.

Lemma objectEntries_perm g : Permutation (Modules.objectEntries g) g.
Proof.
  unfold Modules.objectEntries. induction g as [|[k l] g IH]; simpl; [constructor|].
  destruct (Modules.arrayIndex k).
  - rewrite insertIndexed_perm. simpl. apply perm_skip. exact IH.
  - rewrite <- Permutation_middle. apply perm_skip. exact IH.
Qed.

Lemma objectEntries_named g :
  forallb (fun e => match Modules.arrayIndex (fst e) with Some _ => false | None => true end) g = true ->
  Modules.objectEntries g = g.
Proof.
  intros H.
  assert (Hi : Modules.indexedEntries g = [] /\ Modules.namedEntries g = g).
  { induction g as [|[k l] g IH]; simpl; [split; reflexivity|].
    simpl in H. destruct (Modules.arrayIndex k); [discriminate|].
    destruct (IH H) as [Hi Hn]. split; [exact Hi | f_equal; exact Hn]. }
  unfold Modules.objectEntries. destruct Hi as [-> ->]. reflexivity.
Qed.

(** C2, amended.  For every filtered sequence of modules the grouping can
    file (no [null] item, no category that cannot be converted to a property
    key, no key named like a member of [Object.prototype]), the grouping
    returns one bucket per category key, the keys in the order of their first
    occurrence and each bucket holding the modules of its key in their order;
    the buckets concatenated in the order they are displayed are a permutation
    of the sequence (nothing dropped or duplicated); and when no key is an
    array index the display order is the order of first occurrence. *)
Theorem grouping_partitions_filtered_sequence :
  forall l,
    forallb groupable l = true ->
    Modules.groupBy (JArr l) = Normal (groupsOf l)
    /\ Permutation (flat_map snd (Modules.objectEntries (groupsOf l))) l
    /\ (forallb namedKey l = true -> Modules.objectEntries (groupsOf l) = groupsOf l).
Proof.
  intros l H. split; [|split].
  - exact (forEachGroup_groupsOf [] l H).
  - rewrite objectEntries_perm. apply groupsOf_flat.
  - intros Hn. apply objectEntries_named. apply forallb_forall.
    intros [k b] Hin. unfold groupsOf in Hin. apply in_map_iff in Hin as [k' [E Hk]].
    inversion E; subst. apply newSet_In, in_map_iff in Hk as [m [Em Hm]].
    rewrite forallb_forall in Hn. specialize (Hn m Hm). unfold namedKey in Hn.
    simpl. rewrite <- Em. exact Hn.
Qed.

Lemma grouping_partitions_filtered_sequence_witness :
  Modules.groupBy (JArr alternating) = Normal (groupsOf alternating)
  /\ Permutation (flat_map snd (Modules.objectEntries (groupsOf alternating))) alternating
  /\ (forallb namedKey alternating = true ->
      Modules.objectEntries (groupsOf alternating) = groupsOf alternating).
Proof.
  exact (grouping_partitions_filtered_sequence alternating eq_refl).
Defined.

(** C2 as stated fails: with two categories that alternate, the buckets
    concatenated in display order put the second predictor before the
    encoder, which is not the filtered sequence. *)
Lemma grouping_reorders_across_buckets :
  Modules.filteredModules (Modules.mkView (JArr alternating) false EmptyString EmptyString "all")
  = Normal (JArr [ moduleOf "p1" "Predictor"; moduleOf "e1" "Encoder"; moduleOf "p2" "Predictor" ])
  /\ Modules.modulesByCategory (Modules.mkView (JArr alternating) false EmptyString EmptyString "all")
     = Normal [ ("Predictor", [ moduleOf "p1" "Predictor"; moduleOf "p2" "Predictor" ]);
                ("Encoder", [ moduleOf "e1" "Encoder" ]) ]
  /\ flat_map snd (Modules.objectEntries
       [ ("Predictor", [ moduleOf "p1" "Predictor"; moduleOf "p2" "Predictor" ]);
         ("Encoder", [ moduleOf "e1" "Encoder" ]) ])
     = [ moduleOf "p1" "Predictor"; moduleOf "p2" "Predictor"; moduleOf "e1" "Encoder" ]
  /\ [ moduleOf "p1" "Predictor"; moduleOf "p2" "Predictor"; moduleOf "e1" "Encoder" ]
     <> alternating.
Proof. repeat split. discriminate. Qed.

(** Keys that are array indices are displayed first and in numeric order,
    whatever the order of their first occurrence. *)
Lemma array_index_keys_come_first :
  Modules.groupBy (JArr numbered)
  = Normal [ ("10", [ moduleOf "a" "10" ]); ("9", [ moduleOf "b" "9" ]) ]
  /\ Modules.objectEntries [ ("10", [ moduleOf "a" "10" ]); ("9", [ moduleOf "b" "9" ]) ]
     = [ ("9", [ moduleOf "b" "9" ]); ("10", [ moduleOf "a" "10" ]) ].
Proof. split; reflexivity. Qed.

(** A category named like a property of [Object.prototype] makes the
    grouping throw, and so does a category that is an object with a
    [toString] property of its own. *)
Lemma inherited_key_throws :
  Modules.groupBy (JArr [ moduleOf "x" "constructor" ]) = Throw TypeError
  /\ Modules.groupBy (JArr [ JObj [ ("category", JObj [ ("toString", JNum "1") ]) ] ])
     = Throw TypeError.
Proof. split; reflexivity. Qed.

(** ** The candidate loop *)

Lemma candidatesOf_first BASE_URL clock file :
  exists url rest, candidatesOf BASE_URL clock file = url :: rest.
Proof.
  unfold candidatesOf, newSet. cbn [fold_left setAdd].
  destruct (baseOf BASE_URL ++ file =? "/" ++ file);
    cbn [setAdd];
    repeat match goal with
           | |- context [if ?b then _ else _] => destruct b; cbn [setAdd]
           end;
    cbn [cacheBust]; eexists; eexists; reflexivity.
Qed.

Lemma fetchLoop_all_fail tryFetch candidates s :
  (forall url, In url candidates -> Fails tryFetch url) ->
  coll (fetchLoop tryFetch candidates s) = coll s
  /\ requested (fetchLoop tryFetch candidates s) = (requested s ++ candidates)%list
  /\ (candidates <> [] -> exists e, lastErr (fetchLoop tryFetch candidates s) = Some e).
Proof.
  revert s. induction candidates as [|url rest IH]; intros s H.
  - simpl. rewrite app_nil_r. repeat split. intros C. contradiction.
  - destruct (H url (or_introl eq_refl)) as [e He]. cbn [fetchLoop]. rewrite He.
    destruct (IH (mkLoop (coll s) (Some e) (requested s ++ [url]))%list) as [Hc [Hr Hl]].
    { intros u Hu. apply H. right. exact Hu. }
    rewrite Hc, Hr. cbn [coll requested]. rewrite <- app_assoc. repeat split.
    intros _. destruct rest as [|u rest'].
    + exists e. reflexivity.
    + apply Hl. discriminate.
Qed.

Lemma fetchLoop_first_resolves tryFetch url rest data s :
  tryFetch url = Normal data ->
  fetchLoop tryFetch (url :: rest) s
  = mkLoop (if isArray data then data else JArr []) None (requested s ++ [url]).
Proof. intros H. cbn [fetchLoop]. rewrite H. reflexivity. Qed.

Lemma fetchLoop_array tryFetch candidates s :
  isArray (coll s) = true -> isArray (coll (fetchLoop tryFetch candidates s)) = true.
Proof.
  revert s. induction candidates as [|url rest IH]; intros s H; cbn [fetchLoop].
  - exact H.
  - destruct (tryFetch url) as [data | e].
    + cbn [coll]. destruct (isArray data) eqn:E; [exact E | reflexivity].
    + apply IH. exact H.
Qed.

Lemma overrideLoop_array tryFetch candidates s :
  isArray (fst s) = true -> isArray (fst (Datasets.overrideLoop tryFetch candidates s)) = true.
Proof.
  revert s. induction candidates as [|url rest IH]; intros s H; cbn [Datasets.overrideLoop].
  - exact H.
  - destruct (tryFetch url) as [data | e].
    + cbn [fst]. destruct (isArray data) eqn:E; cbn [andb]; [|exact H].
      destruct (Datasets.lengthTruthy data); [exact E | exact H].
    + apply IH. exact H.
Qed.

(** ** Asset loading (C3, C7, C10) *)

(** C3, amended.  For [loadModules] and [loadCommunityDatasets], whatever
    the base path, the clock and the network: when every candidate fails, the
    collection keeps its prior value, every candidate has been requested, and
    the error message is set (non-empty); when the first candidate resolves,
    it is the only URL requested, no error is set, and the collection becomes
    its data when the data is a sequence, the empty sequence when it is
    anything else. *)
Theorem load_total_failure_and_first_success :
  forall BASE_URL clock net,
    (forall v,
        (forall url, In url (candidatesOf BASE_URL clock "modules.json") ->
                     Fails (Modules.tryFetch net) url) ->
        Modules.modules (fst (Modules.loadModules BASE_URL clock net v)) = Modules.modules v
        /\ Modules.error (fst (Modules.loadModules BASE_URL clock net v))
           = "Failed to load modules. Please try again later."
        /\ truthyStr (Modules.error (fst (Modules.loadModules BASE_URL clock net v))) = true
        /\ snd (Modules.loadModules BASE_URL clock net v)
           = candidatesOf BASE_URL clock "modules.json")
    /\ (forall v url rest data,
        candidatesOf BASE_URL clock "modules.json" = url :: rest ->
        Modules.tryFetch net url = Normal data ->
        snd (Modules.loadModules BASE_URL clock net v) = [url]
        /\ Modules.error (fst (Modules.loadModules BASE_URL clock net v)) = EmptyString
        /\ Modules.modules (fst (Modules.loadModules BASE_URL clock net v))
           = (if isArray data then data else JArr []))
    /\ (forall v,
        (forall url, In url (candidatesOf BASE_URL clock "datasets.json") ->
                     Fails (Datasets.tryFetch net) url) ->
        Datasets.communityDatasets (fst (Datasets.loadCommunityDatasets BASE_URL clock net v))
        = Datasets.communityDatasets v
        /\ Datasets.error (fst (Datasets.loadCommunityDatasets BASE_URL clock net v))
           = "Failed to load community datasets. Please try again later."
        /\ truthyStr (Datasets.error (fst (Datasets.loadCommunityDatasets BASE_URL clock net v)))
           = true
        /\ snd (Datasets.loadCommunityDatasets BASE_URL clock net v)
           = candidatesOf BASE_URL clock "datasets.json")
    /\ (forall v url rest data,
        candidatesOf BASE_URL clock "datasets.json" = url :: rest ->
        Datasets.tryFetch net url = Normal data ->
        snd (Datasets.loadCommunityDatasets BASE_URL clock net v) = [url]
        /\ Datasets.error (fst (Datasets.loadCommunityDatasets BASE_URL clock net v))
           = EmptyString
        /\ Datasets.communityDatasets (fst (Datasets.loadCommunityDatasets BASE_URL clock net v))
           = (if isArray data then data else JArr [])).
Proof.
  intros BASE_URL clock net. split; [|split; [|split]].
  - intros v H. unfold Modules.loadModules. cbn [fst snd Modules.modules Modules.error].
    destruct (fetchLoop_all_fail _ _ (mkLoop (Modules.modules v) None []) H) as [Hc [Hr Hl]].
    destruct Hl as [e He].
    { destruct (candidatesOf_first BASE_URL clock "modules.json") as [u [r E]].
      rewrite E. discriminate. }
    rewrite Hc, Hr, He. repeat split.
  - intros v url rest data E H. unfold Modules.loadModules.
    rewrite E, (fetchLoop_first_resolves _ _ _ _ _ H).
    cbn [fst snd Modules.modules Modules.error coll lastErr requested app].
    repeat split.
  - intros v H. unfold Datasets.loadCommunityDatasets.
    cbn [fst snd Datasets.communityDatasets Datasets.error].
    destruct (fetchLoop_all_fail _ _ (mkLoop (Datasets.communityDatasets v) None []) H)
      as [Hc [Hr Hl]].
    destruct Hl as [e He].
    { destruct (candidatesOf_first BASE_URL clock "datasets.json") as [u [r E]].
      rewrite E. discriminate. }
    rewrite Hc, Hr, He. repeat split.
  - intros v url rest data E H. unfold Datasets.loadCommunityDatasets.
    rewrite E, (fetchLoop_first_resolves _ _ _ _ _ H).
    cbn [fst snd Datasets.communityDatasets Datasets.error coll lastErr requested app].
    repeat split.
Qed.

Lemma fails_offline_modules url : Fails (Modules.tryFetch offline) url.
Proof. exists TypeError. reflexivity. Qed.

Lemma fails_offline_datasets url : Fails (Datasets.tryFetch offline) url.
Proof. exists TypeError. reflexivity. Qed.

(** The theorem with nothing answering, and with every path answering a
    sequence of one record, from views that hold another record. *)
Lemma load_total_failure_and_first_success_witness :
  (Modules.modules (fst (Modules.loadModules "/Z-Hub/" noon offline loadedModules))
   = JArr [moduleRLE]
   /\ snd (Modules.loadModules "/Z-Hub/" noon offline loadedModules)
      = [ "/Z-Hub/modules.json?ts=1700000000000"; "/modules.json?ts=1700000000000";
          "modules.json?ts=1700000000000" ])
  /\ (snd (Modules.loadModules "/Z-Hub/" noon (serving (Some (JArr [bareItem]))) loadedModules)
      = [ "/Z-Hub/modules.json?ts=1700000000000" ]
      /\ Modules.modules
           (fst (Modules.loadModules "/Z-Hub/" noon (serving (Some (JArr [bareItem])))
                   loadedModules))
         = JArr [bareItem])
  /\ Datasets.communityDatasets
       (fst (Datasets.loadCommunityDatasets "/Z-Hub/" noon offline loadedDatasets))
     = JArr [JObj [("name", JStr "NYX")]]
  /\ (snd (Datasets.loadCommunityDatasets "/Z-Hub/" noon (serving (Some (JArr [bareItem])))
             loadedDatasets)
      = [ "/Z-Hub/datasets.json?ts=1700000000000" ]
      /\ Datasets.communityDatasets
           (fst (Datasets.loadCommunityDatasets "/Z-Hub/" noon (serving (Some (JArr [bareItem])))
                   loadedDatasets))
         = JArr [bareItem]).
Proof.
  pose proof (load_total_failure_and_first_success "/Z-Hub/" noon offline) as [Hm [_ [Hd _]]].
  pose proof (load_total_failure_and_first_success "/Z-Hub/" noon
                (serving (Some (JArr [bareItem]))))
    as [_ [Hm' [_ Hd']]].
  destruct (Hm loadedModules (fun url _ => fails_offline_modules url)) as [H1 [_ [_ H2]]].
  destruct (Hm' loadedModules _ _ (JArr [bareItem]) eq_refl eq_refl) as [H3 [_ H4]].
  destruct (Hd loadedDatasets (fun url _ => fails_offline_datasets url)) as [H5 _].
  destruct (Hd' loadedDatasets _ _ (JArr [bareItem]) eq_refl eq_refl) as [H6 [_ H7]].
  exact (conj (conj H1 H2) (conj (conj H3 H4) (conj H5 (conj H6 H7)))).
Defined.

(** C3 as stated fails: the first candidate succeeds with a JSON object
    that wraps the records, and its data is not adopted; the collection, which
    held a record, is emptied, with no error and no further request. *)
Lemma first_success_is_not_always_adopted :
  Modules.tryFetch (serving (Some (JObj [("modules", JArr [moduleRLE])])))
    "/Z-Hub/modules.json?ts=1700000000000"
  = Normal (JObj [("modules", JArr [moduleRLE])])
  /\ Modules.loadModules "/Z-Hub/" noon
       (serving (Some (JObj [("modules", JArr [moduleRLE])]))) loadedModules
     = (Modules.mkView (JArr []) false EmptyString EmptyString "all",
        [ "/Z-Hub/modules.json?ts=1700000000000" ])
  /\ Datasets.loadCommunityDatasets "/Z-Hub/" noon
       (serving (Some (JObj [("datasets", JArr [JObj [("name", JStr "NYX")]])]))) loadedDatasets
     = (Datasets.mkView (JArr []) (JArr []) false EmptyString EmptyString,
        [ "/Z-Hub/datasets.json?ts=1700000000000" ]).
Proof. repeat split. Qed.

(** C7, amended.  For a candidate whose response has a success status: when
    the body is not JSON, the candidate is a failure and the loop goes on to
    the next candidate; when the body is JSON but not a sequence, the
    candidate is a success, the loop stops there with the empty sequence as
    the collection and no error, and no further candidate is requested. *)
Theorem unparsable_body_fails_non_array_body_stops :
  forall net url rest status s,
    ok status = true ->
    (net url = Response status None ->
     fetchLoop (Modules.tryFetch net) (url :: rest) s
     = fetchLoop (Modules.tryFetch net) rest
         (mkLoop (coll s) (Some SyntaxError) (requested s ++ [url]))
     /\ fetchLoop (Datasets.tryFetch net) (url :: rest) s
        = fetchLoop (Datasets.tryFetch net) rest
            (mkLoop (coll s) (Some (JsError ("Invalid JSON @ " ++ url))) (requested s ++ [url])))
    /\ (forall data,
        net url = Response status (Some data) ->
        isArray data = false ->
        fetchLoop (Modules.tryFetch net) (url :: rest) s
        = mkLoop (JArr []) None (requested s ++ [url])
        /\ fetchLoop (Datasets.tryFetch net) (url :: rest) s
           = mkLoop (JArr []) None (requested s ++ [url])).
Proof.
  intros net url rest status s Hok. split.
  - intros H. cbn [fetchLoop]. unfold Modules.tryFetch, Datasets.tryFetch.
    rewrite H, Hok. split; reflexivity.
  - intros data H Hd. cbn [fetchLoop]. unfold Modules.tryFetch, Datasets.tryFetch.
    rewrite H, Hok. cbn [negb]. rewrite Hd. split; reflexivity.
Qed.

Lemma unparsable_body_fails_non_array_body_stops_witness :
  fetchLoop (Modules.tryFetch (serving None)) ["/a"; "/b"] (mkLoop (JArr [moduleRLE]) None [])
  = fetchLoop (Modules.tryFetch (serving None)) ["/b"]
      (mkLoop (JArr [moduleRLE]) (Some SyntaxError) ["/a"])
  /\ fetchLoop (Modules.tryFetch (serving (Some JNull))) ["/a"; "/b"]
       (mkLoop (JArr [moduleRLE]) None [])
     = mkLoop (JArr []) None ["/a"].
Proof.
  exact (conj
    (proj1 (proj1 (unparsable_body_fails_non_array_body_stops (serving None) "/a" ["/b"] 200
                     (mkLoop (JArr [moduleRLE]) None []) eq_refl) eq_refl))
    (proj1 (proj2 (unparsable_body_fails_non_array_body_stops (serving (Some JNull)) "/a" ["/b"]
                     200 (mkLoop (JArr [moduleRLE]) None []) eq_refl) JNull eq_refl eq_refl))).
Defined.

(** C7 as stated fails: every path answers 200 with the JSON object [{}],
    which is not a sequence of records; each loader requests its first
    candidate only, sets no error, and replaces its collection by the empty
    sequence. *)
Lemma non_array_payload_is_not_a_failure :
  Modules.loadModules "/Z-Hub/" noon (serving (Some (JObj []))) loadedModules
  = (Modules.mkView (JArr []) false EmptyString EmptyString "all",
     [ "/Z-Hub/modules.json?ts=1700000000000" ])
  /\ Datasets.loadCommunityDatasets "/Z-Hub/" noon (serving (Some (JObj []))) loadedDatasets
     = (Datasets.mkView (JArr []) (JArr []) false EmptyString EmptyString,
        [ "/Z-Hub/datasets.json?ts=1700000000000" ]).
Proof. split; reflexivity. Qed.

Lemma embeddedList_array embedded : isArray (Datasets.embeddedList embedded) = true.
Proof.
  destruct embedded as [e|]; [|reflexivity].
  unfold Datasets.embeddedList. destruct (isArray e) eqn:E; [exact E | reflexivity].
Qed.

(** C10.  In every state the modules view and the datasets view can reach,
    so after every run of a loader, the collections are arrays; a loader that
    receives a payload that is not an array stores the empty array, and the
    override loader keeps the list it started from. *)
Theorem collections_stay_arrays :
  (forall v, ModulesReachable v -> isArray (Modules.modules v) = true)
  /\ (forall embedded v,
      DatasetsReachable embedded v ->
      isArray (Datasets.communityDatasets v) = true
      /\ isArray (Datasets.sdrbenchDatasets v) = true)
  /\ (forall tryFetch url rest data,
      tryFetch url = Normal data ->
      isArray data = false ->
      (forall s, coll (fetchLoop tryFetch (url :: rest) s) = JArr [])
      /\ (forall s, fst (Datasets.overrideLoop tryFetch (url :: rest) s) = fst s)).
Proof.
  split; [|split].
  - intros v H. induction H as [| v q c H IH | v BASE_URL clock net H IH].
    + reflexivity.
    + exact IH.
    + unfold Modules.loadModules. cbn [fst Modules.modules].
      apply fetchLoop_array. exact IH.
  - intros embedded v H.
    induction H as [| v BASE_URL clock net H [IHc IHs] | v BASE_URL clock net H [IHc IHs]
                    | v BASE_URL clock net H [IHc IHs]].
    + split; reflexivity.
    + unfold Datasets.loadCommunityDatasets.
      cbn [fst Datasets.communityDatasets Datasets.sdrbenchDatasets].
      split; [apply fetchLoop_array; exact IHc | exact IHs].
    + unfold Datasets.loadSdrbenchDatasets.
      cbn [fst Datasets.communityDatasets Datasets.sdrbenchDatasets].
      split; [exact IHc | apply overrideLoop_array, embeddedList_array].
    + unfold Datasets.loadAll, Datasets.loadSdrbenchDatasets, Datasets.loadCommunityDatasets.
      cbn [fst Datasets.communityDatasets Datasets.sdrbenchDatasets].
      split; [apply fetchLoop_array; exact IHc | apply overrideLoop_array, embeddedList_array].
  - intros tryFetch url rest data H Hd. split; intros s.
    + cbn [fetchLoop]. rewrite H, Hd. reflexivity.
    + cbn [Datasets.overrideLoop]. rewrite H, Hd. reflexivity.
Qed.

(** The invariant after a run that received an object, and after a run of
    [loadAll] with nothing answering and no embedded constant. *)
Lemma collections_stay_arrays_witness :
  isArray (Modules.modules
             (fst (Modules.loadModules "/Z-Hub/" noon (serving (Some (JObj []))) loadedModules)))
  = true
  /\ isArray (Datasets.sdrbenchDatasets
                (fst (Datasets.loadAll None "/Z-Hub/" noon offline Datasets.initial)))
     = true.
Proof.
  split.
  - apply (proj1 collections_stay_arrays).
    apply modules_load.
    exact (modules_input _ EmptyString "all" (modules_load _ "/" noon (serving (Some (JArr [moduleRLE])))
             modules_initial)).
  - apply (proj2 (proj1 (proj2 collections_stay_arrays) None _
             (datasets_all None _ "/Z-Hub/" noon offline (datasets_initial None)))).
Defined.

(** ** The benchmark list and its override (C5) *)

Lemma overrideLoop_first_resolved tryFetch candidates url data s :
  FirstResolved tryFetch candidates url data ->
  fst (Datasets.overrideLoop tryFetch candidates s)
  = if isArray data && Datasets.lengthTruthy data then data else fst s.
Proof.
  intros H. revert s. induction H as [url rest data H | u rest url data [e He] H IH]; intros s.
  - cbn [Datasets.overrideLoop]. rewrite H. reflexivity.
  - cbn [Datasets.overrideLoop]. rewrite He, IH. reflexivity.
Qed.

Lemma overrideLoop_all_fail tryFetch candidates s :
  (forall url, In url candidates -> Fails tryFetch url) ->
  Datasets.overrideLoop tryFetch candidates s = (fst s, (snd s ++ candidates)%list).
Proof.
  revert s. induction candidates as [|url rest IH]; intros s H.
  - simpl. rewrite app_nil_r. destruct s; reflexivity.
  - destruct (H url (or_introl eq_refl)) as [e He]. cbn [Datasets.overrideLoop]. rewrite He.
    rewrite IH by (intros u Hu; apply H; right; exact Hu).
    cbn [fst snd]. rewrite <- app_assoc. reflexivity.
Qed.

(** C5.  After [loadSdrbenchDatasets] the benchmark collection is the
    payload of the first candidate that resolves when that payload is a
    non-empty sequence; it is the embedded list when that payload is anything
    else, and when every candidate fails.  In every case the benchmark error is
    empty and the community error is left as it was.  The embedded list is the
    embedded constant itself when that is a sequence. *)
Theorem sdrbench_override_needs_nonempty_sequence :
  forall embedded BASE_URL clock net v,
    Datasets.sdrError (fst (Datasets.loadSdrbenchDatasets embedded BASE_URL clock net v))
    = EmptyString
    /\ Datasets.error (fst (Datasets.loadSdrbenchDatasets embedded BASE_URL clock net v))
       = Datasets.error v
    /\ (forall url data,
        FirstResolved (Datasets.tryFetch net)
          (candidatesOf BASE_URL clock "sdrbench-datasets.json") url data ->
        ((exists x xs, data = JArr (x :: xs)) ->
         Datasets.sdrbenchDatasets
           (fst (Datasets.loadSdrbenchDatasets embedded BASE_URL clock net v)) = data)
        /\ ((forall x xs, data <> JArr (x :: xs)) ->
            Datasets.sdrbenchDatasets
              (fst (Datasets.loadSdrbenchDatasets embedded BASE_URL clock net v))
            = Datasets.embeddedList embedded))
    /\ ((forall url, In url (candidatesOf BASE_URL clock "sdrbench-datasets.json") ->
                     Fails (Datasets.tryFetch net) url) ->
        Datasets.sdrbenchDatasets
          (fst (Datasets.loadSdrbenchDatasets embedded BASE_URL clock net v))
        = Datasets.embeddedList embedded)
    /\ (forall defaults, Datasets.embeddedList (Some (JArr defaults)) = JArr defaults).
Proof.
  intros embedded BASE_URL clock net v.
  unfold Datasets.loadSdrbenchDatasets.
  cbn [fst Datasets.sdrError Datasets.error Datasets.sdrbenchDatasets].
  split; [reflexivity | split; [reflexivity | split; [|split]]].
  - intros url data H. rewrite (overrideLoop_first_resolved _ _ _ _ _ H). cbn [fst]. split.
    + intros [x [xs ->]]. reflexivity.
    + intros Hne. destruct data as [| | | | | [|x xs] |]; try reflexivity.
      exfalso. exact (Hne x xs eq_refl).
  - intros H. rewrite (overrideLoop_all_fail _ _ _ H). reflexivity.
  - reflexivity.
Qed.

Lemma fails_404 file data url :
  prefix ("/" ++ file) url = false -> Fails (Datasets.tryFetch (rootOnly file data)) url.
Proof.
  intros H. eexists. unfold Datasets.tryFetch, rootOnly. rewrite H. reflexivity.
Qed.

(** The theorem with an embedded list of one entry: the root-absolute path
    alone serves a list of one other entry, which replaces it; with nothing
    answering, the embedded list stays. *)
Lemma sdrbench_override_needs_nonempty_sequence_witness :
  Datasets.sdrbenchDatasets
    (fst (Datasets.loadSdrbenchDatasets (Some (JArr [JStr "CESM-ATM"])) "/Z-Hub/" noon
            (rootOnly "sdrbench-datasets.json" (JArr [JStr "NYX"])) Datasets.initial))
  = JArr [JStr "NYX"]
  /\ Datasets.sdrbenchDatasets
       (fst (Datasets.loadSdrbenchDatasets (Some (JArr [JStr "CESM-ATM"])) "/Z-Hub/" noon
               offline Datasets.initial))
     = JArr [JStr "CESM-ATM"].
Proof.
  split.
  - refine (proj1 (proj1 (proj2 (proj2
      (sdrbench_override_needs_nonempty_sequence (Some (JArr [JStr "CESM-ATM"])) "/Z-Hub/" noon
         (rootOnly "sdrbench-datasets.json" (JArr [JStr "NYX"])) Datasets.initial)))
      "/sdrbench-datasets.json?ts=1700000000000" (JArr [JStr "NYX"]) _) _).
    + apply resolved_later; [apply fails_404; reflexivity | apply resolved_here; reflexivity].
    + exists (JStr "NYX"), []. reflexivity.
  - exact (proj1 (proj2 (proj2 (proj2
      (sdrbench_override_needs_nonempty_sequence (Some (JArr [JStr "CESM-ATM"])) "/Z-Hub/" noon
         offline Datasets.initial))))
      (fun url _ => fails_offline_datasets url)).
Defined.

(** ** Loading the compositions (C6) *)

(** C6, amended.  [loadCompositions] issues one request, to the base path
    followed by the file name and nothing else.  A response whose body is JSON
    becomes the collection, whatever its status and its shape.  In every other
    case the view is left as it was and one error is written to the console:
    the view has no error state to set. *)
Theorem compositions_load_is_one_plain_request :
  forall BASE_URL net v,
    Compositions.requests (Compositions.loadCompositions BASE_URL net v)
    = [ BASE_URL ++ "compositions.json" ]
    /\ (forall status data,
        net (BASE_URL ++ "compositions.json") = Response status (Some data) ->
        Compositions.loadCompositions BASE_URL net v
        = Compositions.mkLoaded
            (Compositions.mkView data (Compositions.searchQuery v)
               (Compositions.selectedCategory v))
            [ BASE_URL ++ "compositions.json" ] [])
    /\ ((forall status data,
           net (BASE_URL ++ "compositions.json") <> Response status (Some data)) ->
        Compositions.view (Compositions.loadCompositions BASE_URL net v) = v
        /\ exists e, Compositions.console (Compositions.loadCompositions BASE_URL net v) = [e]).
Proof.
  intros BASE_URL net v. unfold Compositions.loadCompositions.
  destruct (net (BASE_URL ++ "compositions.json")) as [| | status [data|]] eqn:E;
    cbn [Compositions.requests Compositions.view Compositions.console];
    (split; [reflexivity | split]);
    try (intros status' data' H; discriminate H);
    try (intros _; split; [reflexivity | eexists; reflexivity]).
  - intros status' data' H. inversion H; subst. reflexivity.
  - intros H. exfalso. exact (H status data eq_refl).
Qed.

Lemma compositions_load_is_one_plain_request_witness :
  Compositions.requests (Compositions.loadCompositions "/Z-Hub/" offline emptyCompositions)
  = [ "/Z-Hub/compositions.json" ]
  /\ Compositions.view (Compositions.loadCompositions "/Z-Hub/" offline emptyCompositions)
     = emptyCompositions.
Proof.
  pose proof (compositions_load_is_one_plain_request "/Z-Hub/" offline emptyCompositions)
    as [Hr [_ Hf]].
  exact (conj Hr (proj1 (Hf (fun status data H => eq_ind NetworkFailure
    (fun f => match f with NetworkFailure => True | _ => False end) I _ H)))).
Defined.

(** C6 as stated fails: with nothing answering, the only URL requested is
    the base-qualified one, it carries no query parameter, and the run leaves
    the view as it was, the error going to the console. *)
Lemma compositions_load_has_no_fallback :
  Compositions.loadCompositions "/Z-Hub/" offline emptyCompositions
  = Compositions.mkLoaded emptyCompositions [ "/Z-Hub/compositions.json" ] [ TypeError ]
  /\ includes "/Z-Hub/compositions.json" "?" = false.
Proof. split; reflexivity. Qed.

(** ** Facets (C8) *)

Lemma setAdd_JStr x s :
  setAdd sameValueZero (JStr x) (map JStr s) = map JStr (setAdd String.eqb x s).
Proof.
  induction s as [|y s IH]; simpl; [reflexivity|].
  destruct (y =? x); [reflexivity | rewrite IH; reflexivity].
Qed.

Lemma newSet_JStr ss :
  newSet sameValueZero (map JStr ss) = map JStr (newSet String.eqb ss).
Proof.
  induction ss as [|x ss IH] using rev_ind; [reflexivity|].
  rewrite map_app. cbn [map]. rewrite !newSet_snoc, IH. apply setAdd_JStr.
Qed.

Lemma sortDefault_snoc l x :
  sortDefault (l ++ [x]) = (s <- sortDefault l ;; sortInsert x s).
Proof. unfold sortDefault. rewrite fold_left_app. reflexivity. Qed.

(** A sort that returns has rearranged its input. *)
Lemma sortInsert_perm x l r : sortInsert x l = Normal r -> Permutation r (x :: l).
Proof.
  revert r. induction l as [|y l IH]; intros r; cbn [sortInsert].
  - intros H. injection H as <-. reflexivity.
  - destruct (sortBefore x y) as [[|]|e]; cbn [bind]; try discriminate.
    + intros H. injection H as <-. reflexivity.
    + destruct (sortInsert x l) as [r'|e]; cbn [bind]; [|discriminate].
      intros H. injection H as <-. rewrite (IH r' eq_refl). apply perm_swap.
Qed.

Lemma sortDefault_perm l r : sortDefault l = Normal r -> Permutation r l.
Proof.
  revert r. induction l as [|x l IH] using rev_ind; intros r.
  - intros H. injection H as <-. constructor.
  - rewrite sortDefault_snoc. destruct (sortDefault l) as [s|e]; cbn [bind]; [|discriminate].
    intros H. rewrite (sortInsert_perm _ _ _ H), (IH s eq_refl).
    apply Permutation_cons_append.
Qed.

(** The sort returns when every value can be converted. *)
Lemma sortBefore_returns x y :
  converts x = true -> converts y = true -> exists b, sortBefore x y = Normal b.
Proof.
  unfold converts, sortBefore. intros Hx Hy.
  destruct (toStringJs x) as [xs|] eqn:Ex; [|discriminate].
  destruct (toStringJs y) as [ys|] eqn:Ey; [|discriminate].
  destruct x; destruct y; try (eexists; reflexivity);
    rewrite ?Ex, ?Ey; cbn [bind]; eexists; reflexivity.
Qed.

Lemma sortInsert_returns x l :
  converts x = true -> forallb converts l = true -> exists r, sortInsert x l = Normal r.
Proof.
  intros Hx. induction l as [|y l IH]; intros Hl; cbn [sortInsert].
  - eexists. reflexivity.
  - cbn [forallb] in Hl. apply andb_true_iff in Hl as [Hy Hl].
    destruct (sortBefore_returns x y Hx Hy) as [b ->]. cbn [bind].
    destruct b; [eexists; reflexivity|].
    destruct (IH Hl) as [r ->]. eexists. reflexivity.
Qed.

Lemma sortDefault_returns l :
  forallb converts l = true -> exists r, sortDefault l = Normal r.
Proof.
  induction l as [|x l IH] using rev_ind; intros H.
  - eexists. reflexivity.
  - rewrite forallb_app in H. apply andb_true_iff in H as [Hl Hx].
    cbn [forallb] in Hx. rewrite andb_true_r in Hx.
    destruct (IH Hl) as [s Hs]. rewrite sortDefault_snoc, Hs. cbn [bind].
    apply sortInsert_returns; [exact Hx|].
    apply forallb_forall. intros y Hy. rewrite forallb_forall in Hl. apply Hl.
    exact (Permutation_in _ (sortDefault_perm _ _ Hs) Hy).
Qed.

(** The order of code units is a strict total order. *)
Lemma unitRank_inj x y : unitRank x = unitRank y -> x = y.
Proof.
  unfold unitRank. intros H.
  rewrite <- (ascii_N_embedding x), <- (ascii_N_embedding y). f_equal.
  pose proof (N_ascii_bounded x) as Bx. pose proof (N_ascii_bounded y) as By.
  destruct (N.ltb_spec (N_of_ascii x) 238); destruct (N.ltb_spec (N_of_ascii y) 238);
    destruct (N.ltb_spec (N_of_ascii x) 240); destruct (N.ltb_spec (N_of_ascii y) 240);
    lia.
Qed.

Lemma strLtb_irrefl a : strLtb a a = false.
Proof.
  induction a as [|x a IH]; [reflexivity|]. cbn [strLtb]. rewrite Ascii.eqb_refl. exact IH.
Qed.

Lemma strLtb_asym a b : strLtb a b = true -> strLtb b a = false.
Proof.
  revert b. induction a as [|x a IH]; intros [|y b]; cbn [strLtb]; try reflexivity;
    try discriminate.
  rewrite (Ascii.eqb_sym y x). destruct (x =? y)%char; [apply IH|].
  intros H. apply N.ltb_lt in H. apply N.ltb_ge. lia.
Qed.

Lemma strLtb_total a b : strLtb a b = false -> strLtb b a = false -> a = b.
Proof.
  revert b. induction a as [|x a IH]; intros [|y b]; cbn [strLtb]; try reflexivity;
    try discriminate.
  rewrite (Ascii.eqb_sym y x). destruct (Ascii.eqb_spec x y) as [->|Hne].
  - intros H1 H2. rewrite (IH b H1 H2). reflexivity.
  - intros H1 H2. apply N.ltb_ge in H1, H2. exfalso. apply Hne, unitRank_inj. lia.
Qed.

Lemma strLtb_trans a b c : strLtb a b = true -> strLtb b c = true -> strLtb a c = true.
Proof.
  revert b c. induction a as [|x a IH]; intros [|y b] [|z c]; cbn [strLtb];
    try reflexivity; try discriminate.
  destruct (Ascii.eqb_spec x y) as [->|Hxy].
  - destruct (y =? z)%char; [apply IH | trivial].
  - destruct (Ascii.eqb_spec y z) as [->|Hyz].
    + destruct (Ascii.eqb_spec x z) as [->|_]; [contradiction | trivial].
    + intros H1 H2. apply N.ltb_lt in H1, H2.
      destruct (Ascii.eqb_spec x z) as [->|_]; [lia | apply N.ltb_lt; lia].
Qed.

#[local] Instance codeUnitLt_strict : StrictOrder codeUnitLt.
Proof.
  split.
  - intros a H. unfold codeUnitLt in H. rewrite strLtb_irrefl in H. discriminate H.
  - intros a b c. exact (strLtb_trans a b c).
Qed.

(** On ASCII text the order of code units is the order of the bytes. *)
Lemma codeUnitLt_ascii a b :
  isAscii a = true -> isAscii b = true -> (codeUnitLt a b <-> String_as_OT.lt a b).
Proof.
  unfold codeUnitLt, String_as_OT.lt. revert b.
  induction a as [|x a IH]; intros [|y b] Ha Hb; cbn [strLtb String_as_OT.compare];
    try (split; (discriminate || reflexivity)).
  cbn [isAscii] in Ha, Hb. apply andb_true_iff in Ha as [Hx Ha].
  apply andb_true_iff in Hb as [Hy Hb]. apply N.ltb_lt in Hx, Hy.
  unfold Ascii_as_OT.compare. change N_as_OT.compare with N.compare.
  destruct (Ascii.eqb_spec x y) as [->|Hne].
  - rewrite N.compare_refl. exact (IH b Ha Hb).
  - unfold unitRank.
    destruct (N.ltb_spec (N_of_ascii x) 238) as [_|Bx]; [|lia].
    destruct (N.ltb_spec (N_of_ascii y) 238) as [_|By]; [|lia].
    destruct (N.compare_spec (N_of_ascii x) (N_of_ascii y)) as [E | L | G].
    + exfalso. apply Hne. rewrite <- (ascii_N_embedding x), <- (ascii_N_embedding y), E.
      reflexivity.
    + split; [reflexivity | intros _; apply N.ltb_lt; exact L].
    + split; [|discriminate]. intros H. apply N.ltb_lt in H. lia.
Qed.

Lemma sortInsert_head x l r :
  sortInsert x l = Normal r ->
  exists h t, r = h :: t /\ (h = x \/ exists l', l = h :: l').
Proof.
  destruct l as [|y l]; cbn [sortInsert].
  - intros H. injection H as <-. exists x, []. split; [reflexivity | left; reflexivity].
  - destruct (sortBefore x y) as [[|]|e]; cbn [bind]; try discriminate.
    + intros H. injection H as <-. eexists. eexists. split; [reflexivity | left; reflexivity].
    + destruct (sortInsert x l) as [r'|e]; cbn [bind]; [|discriminate].
      intros H. injection H as <-. eexists. eexists.
      split; [reflexivity | right; eexists; reflexivity].
Qed.

(** Inserting a string into a list of strings that is in sort order
    leaves it in sort order. *)
Lemma sortInsert_sorted x l r :
  isStr x = true -> forallb isStr l = true ->
  sortInsert x l = Normal r ->
  Sorted notAfter l -> Sorted notAfter r.
Proof.
  intros Hx. revert r. induction l as [|y l IH]; intros r Hl H Hs; cbn [sortInsert] in H.
  - injection H as <-. repeat constructor.
  - cbn [forallb] in Hl. apply andb_true_iff in Hl as [Hy Hl].
    destruct (sortBefore x y) as [[|]|e] eqn:E; cbn [bind] in H; try discriminate H.
    + injection H as <-. constructor; [exact Hs|]. constructor. unfold notAfter.
      destruct x; try discriminate; destruct y; try discriminate.
      cbn [sortBefore toStringJs bind] in E |- *. injection E as E.
      rewrite (strLtb_asym _ _ E). reflexivity.
    + destruct (sortInsert x l) as [r'|e] eqn:Er; cbn [bind] in H; [|discriminate H].
      injection H as <-. inversion Hs as [|? ? Hs' Hd]; subst.
      constructor; [exact (IH r' Hl eq_refl Hs')|].
      destruct (sortInsert_head _ _ _ Er) as [h [t [-> [-> | [l' ->]]]]]; constructor.
      * exact E.
      * inversion Hd; assumption.
Qed.

Lemma sortDefault_sorted l r :
  forallb isStr l = true -> sortDefault l = Normal r -> Sorted notAfter r.
Proof.
  revert r. induction l as [|x l IH] using rev_ind; intros r H.
  - intros E. injection E as <-. constructor.
  - rewrite forallb_app in H. apply andb_true_iff in H as [Hl Hx].
    simpl in Hx. rewrite andb_true_r in Hx.
    rewrite sortDefault_snoc. destruct (sortDefault l) as [s|e] eqn:Es; cbn [bind];
      [|discriminate].
    intros E. apply (sortInsert_sorted x s r Hx); [|exact E | exact (IH s Hl eq_refl)].
    apply forallb_forall. intros y Hy.
    rewrite forallb_forall in Hl. apply Hl.
    exact (Permutation_in _ (sortDefault_perm _ _ Es) Hy).
Qed.

(** Distinct strings that the default sort leaves in this order are in
    strictly ascending order. *)
Lemma sorted_strings_ascend vs :
  NoDup vs -> Sorted notAfter (map JStr vs) -> Sorted codeUnitLt vs.
Proof.
  induction vs as [|a vs IH]; intros Hnd Hs; [constructor|].
  inversion Hnd as [|? ? Hout Hnd']; subst.
  simpl in Hs. inversion Hs as [|? ? Hs' Hd]; subst.
  constructor; [exact (IH Hnd' Hs')|].
  destruct vs as [|b vs]; constructor.
  inversion Hd as [|? ? Hab]; subst. unfold notAfter in Hab.
  cbn [sortBefore toStringJs bind] in Hab. injection Hab as Hab.
  unfold codeUnitLt. destruct (strLtb a b) eqn:E; [reflexivity|].
  exfalso. apply Hout. left. symmetry. exact (strLtb_total _ _ E Hab).
Qed.

Lemma isStr_converts v : isStr v = true -> converts v = true.
Proof. destruct v; try discriminate. reflexivity. Qed.

Lemma map_JStr_of_strings l :
  forallb isStr l = true -> map JStr (flat_map strOf l) = l.
Proof.
  induction l as [|x l IH]; simpl; [reflexivity|].
  intros H. apply andb_true_iff in H as [Hx Hl].
  destruct x; try discriminate. simpl. rewrite (IH Hl). reflexivity.
Qed.

Lemma flat_map_strOf_JStr vs : flat_map strOf (map JStr vs) = vs.
Proof. induction vs as [|v vs IH]; simpl; [reflexivity | rewrite IH; reflexivity]. Qed.

Lemma mapM_category items :
  forallb hasCategory items = true ->
  mapM (fun c => getProp c "category") items = Normal (map JStr (map keyOf items)).
Proof.
  induction items as [|c items IH]; simpl; [reflexivity|].
  intros H. apply andb_true_iff in H as [Hc Hl].
  rewrite (IH Hl). unfold hasCategory in Hc. unfold keyOf.
  destruct c; try discriminate. cbn [getProp bind]. simpl in Hc |- *.
  destruct (lookup "category" props); try discriminate. reflexivity.
Qed.

Lemma keyOf_category c s :
  hasCategory c = true -> (keyOf c = s <-> field "category" c = JStr s).
Proof.
  unfold hasCategory, keyOf. destruct (field "category" c); try discriminate.
  intros _. simpl. split; [intros ->; reflexivity | intros H; inversion H; reflexivity].
Qed.

(** The sort of the facets, on strings: it returns them rearranged and in
    sort order. *)
Lemma sortDefault_strings us :
  exists sorted,
    sortDefault (map JStr us) = Normal (map JStr sorted)
    /\ Permutation sorted us
    /\ Sorted notAfter (map JStr sorted).
Proof.
  assert (Hstr : forallb isStr (map JStr us) = true).
  { apply forallb_forall. intros x Hx. apply in_map_iff in Hx as [s [<- _]]. reflexivity. }
  destruct (sortDefault_returns (map JStr us)) as [S HS].
  { apply forallb_forall. intros x Hx. rewrite forallb_forall in Hstr.
    apply isStr_converts, Hstr, Hx. }
  pose proof (sortDefault_perm _ _ HS) as Hperm.
  assert (HSstr : forallb isStr S = true).
  { apply forallb_forall. intros x Hx. rewrite forallb_forall in Hstr. apply Hstr.
    exact (Permutation_in _ Hperm Hx). }
  exists (flat_map strOf S). rewrite (map_JStr_of_strings _ HSstr).
  split; [exact HS | split; [|exact (sortDefault_sorted _ _ Hstr HS)]].
  rewrite <- (flat_map_strOf_JStr us). apply Permutation_flat_map. exact Hperm.
Qed.

(** C8.  For every collection whose items have a category, the empty
    collection included, the facet list of either view is its sentinel
    followed by the categories of the collection, each once, in strictly
    ascending order of their UTF-16 code units. *)
Theorem facets_are_sentinel_then_sorted_categories :
  forall items,
    forallb hasCategory items = true ->
    exists cats,
      Compositions.categories (JArr items) = Normal (JStr "All" :: map JStr cats)
      /\ Modules.categories (JArr items) = Normal (JStr "all" :: map JStr cats)
      /\ Sorted codeUnitLt cats
      /\ NoDup cats
      /\ (forall s, In s cats <-> exists c, In c items /\ field "category" c = JStr s).
Proof.
  intros items H.
  set (us := newSet String.eqb (map keyOf items)).
  destruct (sortDefault_strings us) as [cats [HS [Hperm Hsorted]]].
  assert (Hnd : NoDup cats).
  { apply (Permutation_NoDup (Permutation_sym Hperm)). apply newSet_NoDup. }
  exists cats. split; [|split; [|split; [|split]]].
  - unfold Compositions.categories, facets. cbn [callMap].
    rewrite (mapM_category _ H). cbn [bind]. rewrite newSet_JStr. fold us. rewrite HS.
    reflexivity.
  - unfold Modules.categories, facets. cbn [callMap].
    rewrite (mapM_category _ H). cbn [bind]. rewrite newSet_JStr. fold us. rewrite HS.
    reflexivity.
  - exact (sorted_strings_ascend _ Hnd Hsorted).
  - exact Hnd.
  - intros s. rewrite forallb_forall in H. split.
    + intros Hin. apply (Permutation_in _ Hperm) in Hin.
      apply newSet_In, in_map_iff in Hin as [c [E Hc]].
      exists c. split; [exact Hc | apply keyOf_category; [apply H; exact Hc | exact E]].
    + intros [c [Hc E]]. apply (Permutation_in _ (Permutation_sym Hperm)).
      apply newSet_In, in_map_iff. exists c. split; [|exact Hc].
      apply keyOf_category; [apply H; exact Hc | exact E].
Qed.

Lemma facets_are_sentinel_then_sorted_categories_witness :
  exists cats,
    Compositions.categories (JArr catalogue) = Normal (JStr "All" :: map JStr cats)
    /\ Modules.categories (JArr catalogue) = Normal (JStr "all" :: map JStr cats)
    /\ Sorted codeUnitLt cats
    /\ NoDup cats
    /\ (forall s, In s cats <-> exists c, In c catalogue /\ field "category" c = JStr s).
Proof.
  exact (facets_are_sentinel_then_sorted_categories catalogue eq_refl).
Defined.

(** The facets of the sample catalogue, and of the empty collection. *)
Lemma facets_of_catalogue :
  Modules.categories (JArr catalogue)
  = Normal [ JStr "all"; JStr "Encoder"; JStr "Quantizer"; JStr "encoder" ]
  /\ Compositions.categories (JArr []) = Normal [ JStr "All" ]
  /\ Modules.categories (JArr []) = Normal [ JStr "all" ].
Proof. repeat split. Qed.

(** A character above [U+FFFF] sorts by its surrogates, before a code unit
    above them, although its bytes are the greater. *)
Lemma surrogates_sort_before_higher_code_units :
  Modules.categories (JArr [ moduleOf "t" fullwidthTilde; moduleOf "g" grinningFace ])
  = Normal [ JStr "all"; JStr grinningFace; JStr fullwidthTilde ]
  /\ String_as_OT.lt fullwidthTilde grinningFace.
Proof. split; reflexivity. Qed.

(** ** The issue URL (C9) *)

Lemma noChar_app c a b : noChar c (a ++ b) = noChar c a && noChar c b.
Proof.
  induction a as [|d a IH]; simpl; [reflexivity|].
  rewrite IH, andb_assoc. reflexivity.
Qed.

Lemma cutAt_app sep a b :
  noChar sep a = true -> cutAt sep (a ++ String sep b) = (a, b).
Proof.
  induction a as [|d a IH]; simpl; intros H.
  - rewrite Ascii.eqb_refl. reflexivity.
  - apply andb_true_iff in H as [Hd Ha]. apply negb_true_iff in Hd.
    rewrite Hd, (IH Ha). reflexivity.
Qed.

Lemma cutAt_sep sep a b :
  noChar sep a = true -> cutAt sep (a ++ String sep EmptyString ++ b) = (a, b).
Proof. exact (cutAt_app sep a b). Qed.

Lemma cutAt_none sep a :
  noChar sep a = true -> cutAt sep a = (a, EmptyString).
Proof.
  induction a as [|d a IH]; simpl; intros H; [reflexivity|].
  apply andb_true_iff in H as [Hd Ha]. apply negb_true_iff in Hd.
  rewrite Hd, (IH Ha). reflexivity.
Qed.

Lemma splitOn_none sep a :
  noChar sep a = true -> splitOn sep a = [a].
Proof.
  induction a as [|d a IH]; simpl; intros H; [reflexivity|].
  apply andb_true_iff in H as [Hd Ha]. apply negb_true_iff in Hd.
  rewrite Hd, (IH Ha). reflexivity.
Qed.

Lemma splitOn_app sep a b :
  noChar sep a = true -> splitOn sep (a ++ String sep b) = a :: splitOn sep b.
Proof.
  induction a as [|d a IH]; simpl; intros H.
  - rewrite Ascii.eqb_refl. reflexivity.
  - apply andb_true_iff in H as [Hd Ha]. apply negb_true_iff in Hd.
    rewrite Hd, (IH Ha). reflexivity.
Qed.

(** The serializer emits none of the separators. *)
Lemma encodeByte_clean c :
  noChar "&" (Datasets.encodeByte c) = true
  /\ noChar "=" (Datasets.encodeByte c) = true
  /\ noChar "#" (Datasets.encodeByte c) = true.
Proof. destruct c as [[] [] [] [] [] [] [] []]; repeat split. Qed.

Lemma urlencode_clean s :
  noChar "&" (Datasets.urlencode s) = true
  /\ noChar "=" (Datasets.urlencode s) = true
  /\ noChar "#" (Datasets.urlencode s) = true.
Proof.
  induction s as [|c s [IH1 [IH2 IH3]]]; simpl; [repeat split|].
  destruct (encodeByte_clean c) as [H1 [H2 H3]].
  rewrite !noChar_app, H1, H2, H3, IH1, IH2, IH3. repeat split.
Qed.

Lemma plusToSpace_app a b : plusToSpace (a ++ b) = plusToSpace a ++ plusToSpace b.
Proof. induction a as [|c a IH]; simpl; [reflexivity | rewrite IH; reflexivity]. Qed.

Lemma percentDecode_plain c t :
  (c =? "%")%char = false -> percentDecode (String c t) = String c (percentDecode t).
Proof.
  intros H. destruct t as [|h [|l t]]; cbn [percentDecode]; try reflexivity.
  rewrite H. reflexivity.
Qed.

Lemma decode_encodeByte c t :
  percentDecode (plusToSpace (Datasets.encodeByte c) ++ t) = String c (percentDecode t).
Proof.
  destruct c as [[] [] [] [] [] [] [] []];
    first [ reflexivity | apply percentDecode_plain; reflexivity ].
Qed.

Lemma formDecode_urlencode s : formDecode (Datasets.urlencode s) = s.
Proof.
  unfold formDecode. induction s as [|c s IH]; [reflexivity|].
  cbn [Datasets.urlencode]. rewrite plusToSpace_app, decode_encodeByte, IH. reflexivity.
Qed.

Lemma orStr_empty s : orStr s EmptyString = s.
Proof. destruct s; reflexivity. Qed.

Lemma paramsToString_cons p ps :
  Datasets.paramsToString (p :: ps)
  = match ps with
    | [] => Datasets.urlencode (fst p) ++ "=" ++ Datasets.urlencode (snd p)
    | _ :: _ =>
        (Datasets.urlencode (fst p) ++ "=" ++ Datasets.urlencode (snd p))
        ++ String "&" (Datasets.paramsToString ps)
    end.
Proof. destruct ps; reflexivity. Qed.

Lemma segment_parses n v :
  noChar "&" (Datasets.urlencode n ++ "=" ++ Datasets.urlencode v) = true
  /\ (Datasets.urlencode n ++ "=" ++ Datasets.urlencode v =? EmptyString) = false
  /\ cutAt "=" (Datasets.urlencode n ++ "=" ++ Datasets.urlencode v)
     = (Datasets.urlencode n, Datasets.urlencode v).
Proof.
  destruct (urlencode_clean n) as [Hn [Hn' _]].
  destruct (urlencode_clean v) as [Hv _].
  split; [|split].
  - rewrite !noChar_app, Hn, Hv. reflexivity.
  - destruct (Datasets.urlencode n); reflexivity.
  - apply (cutAt_app "=" _ _ Hn').
Qed.

(** Parsing gives back the parameters that were serialized. *)
Lemma parseQuery_paramsToString ps :
  parseQuery (Datasets.paramsToString ps) = ps.
Proof.
  induction ps as [|[n v] ps IH]; [reflexivity|].
  rewrite paramsToString_cons. cbn [fst snd].
  destruct (segment_parses n v) as [Hamp [Hne Hcut]].
  destruct ps as [|p ps].
  - unfold parseQuery. rewrite (splitOn_none _ _ Hamp). cbn [filter].
    rewrite Hne. cbn [negb map]. rewrite Hcut, !formDecode_urlencode. reflexivity.
  - unfold parseQuery. rewrite (splitOn_app _ _ _ Hamp). cbn [filter].
    rewrite Hne. cbn [negb map]. rewrite Hcut, !formDecode_urlencode.
    f_equal. exact IH.
Qed.

Lemma segment_no_hash n v :
  noChar "#" (Datasets.urlencode n ++ "=" ++ Datasets.urlencode v) = true.
Proof.
  destruct (urlencode_clean n) as [_ [_ Hn]]. destruct (urlencode_clean v) as [_ [_ Hv]].
  rewrite noChar_app, Hn. cbn [append noChar]. exact Hv.
Qed.

Lemma paramsToString_no_hash ps : noChar "#" (Datasets.paramsToString ps) = true.
Proof.
  induction ps as [|[n v] ps IH]; [reflexivity|].
  rewrite paramsToString_cons. cbn [fst snd].
  destruct ps; cbv iota.
  - apply segment_no_hash.
  - rewrite noChar_app, segment_no_hash. cbn [noChar]. exact IH.
Qed.

Lemma urlQuery_of base q :
  noChar "?" base = true -> noChar "#" base = true -> noChar "#" q = true ->
  urlQuery (base ++ "?" ++ q) = q.
Proof.
  intros Hq Hh Hhq. unfold urlQuery.
  rewrite (cutAt_none "#" (base ++ "?" ++ q))
    by (rewrite noChar_app, Hh; cbn [append noChar]; exact Hhq).
  cbn [fst]. rewrite cutAt_sep by exact Hq. reflexivity.
Qed.

(** C9, amended.  For every form and every repository slug that holds no
    [?] and no [#], the query of the URL parses back to the three parameters
    the builder set: the title is [[Dataset] Contributing <name>], the labels
    are [dataset].  The URL addresses the new-issue page of the repository,
    and the generic page for a new repository when the slug is empty. *)
Theorem issue_url_carries_title_and_labels :
  forall repo uploadForm,
    pathSafe repo = true ->
    parseQuery (urlQuery (Datasets.buildIssueUrl repo uploadForm))
    = [ ("title", "[Dataset] Contributing " ++ Datasets.name uploadForm);
        ("body", issueBody uploadForm);
        ("labels", "dataset") ]
    /\ getParam "title" (parseQuery (urlQuery (Datasets.buildIssueUrl repo uploadForm)))
       = Some ("[Dataset] Contributing " ++ Datasets.name uploadForm)
    /\ getParam "labels" (parseQuery (urlQuery (Datasets.buildIssueUrl repo uploadForm)))
       = Some "dataset"
    /\ fst (cutAt "?" (Datasets.buildIssueUrl repo uploadForm))
       = (if repo =? EmptyString then "https://github.com/new"
          else "https://github.com/" ++ repo ++ "/issues/new").
Proof.
  intros repo uploadForm Hsafe.
  unfold pathSafe in Hsafe. apply andb_true_iff in Hsafe as [Hq Hh].
  assert (Hparse : parseQuery (urlQuery (Datasets.buildIssueUrl repo uploadForm))
    = [ ("title", "[Dataset] Contributing " ++ Datasets.name uploadForm);
        ("body", issueBody uploadForm);
        ("labels", "dataset") ]
    /\ fst (cutAt "?" (Datasets.buildIssueUrl repo uploadForm))
       = (if repo =? EmptyString then "https://github.com/new"
          else "https://github.com/" ++ repo ++ "/issues/new")).
  { unfold Datasets.buildIssueUrl, issueBody. rewrite !orStr_empty.
    unfold truthyStr. destruct (repo =? EmptyString); cbn [negb].
    - split.
      + rewrite urlQuery_of; [apply parseQuery_paramsToString | reflexivity | reflexivity
                             | apply paramsToString_no_hash].
      + rewrite cutAt_sep by reflexivity. reflexivity.
    - assert (Hbq : noChar "?" ("https://github.com/" ++ repo ++ "/issues/new") = true)
        by (rewrite !noChar_app, Hq; reflexivity).
      assert (Hbh : noChar "#" ("https://github.com/" ++ repo ++ "/issues/new") = true)
        by (rewrite !noChar_app, Hh; reflexivity).
      split.
      + rewrite urlQuery_of; [apply parseQuery_paramsToString | exact Hbq | exact Hbh
                             | apply paramsToString_no_hash].
      + rewrite cutAt_sep by exact Hbq. reflexivity. }
  destruct Hparse as [Hp Hb]. rewrite Hp. repeat split. exact Hb.
Qed.

(** The scenario of the specification: the form named Foo and the slug
    org/repo. *)
Lemma issue_url_carries_title_and_labels_witness :
  parseQuery (urlQuery (Datasets.buildIssueUrl "org/repo" formFoo))
  = [ ("title", "[Dataset] Contributing Foo");
      ("body", issueBody formFoo);
      ("labels", "dataset") ]
  /\ getParam "title" (parseQuery (urlQuery (Datasets.buildIssueUrl "org/repo" formFoo)))
     = Some "[Dataset] Contributing Foo"
  /\ getParam "labels" (parseQuery (urlQuery (Datasets.buildIssueUrl "org/repo" formFoo)))
     = Some "dataset"
  /\ fst (cutAt "?" (Datasets.buildIssueUrl "org/repo" formFoo))
     = "https://github.com/org/repo/issues/new".
Proof.
  exact (issue_url_carries_title_and_labels "org/repo" formFoo eq_refl).
Defined.

(** C9 as stated fails for a slug the resolver accepts and that holds a
    question mark: the query starts inside the slug, and the URL has no
    parameter named title. *)
Lemma issue_url_loses_title_after_question_mark :
  ownerRepoShape "a?b/c" = true
  /\ Datasets.buildIssueUrl "a?b/c" (Datasets.mkForm "Foo" EmptyString EmptyString EmptyString EmptyString)
  = "https://github.com/a?b/c/issues/new?title=%5BDataset%5D+Contributing+Foo&body=%23%23%23+Dataset+name%0AFoo%0A%0A%23%23%23+Description%0A%0A%0A%23%23%23+Data+URL%28s%29%0A%0A%0A%23%23%23+Size%0A%0A%0A%23%23%23+Tags%0A%0A%0A_Submitted+via+Z-Hub+site_&labels=dataset"
  /\ getParam "title"
       (parseQuery (urlQuery (Datasets.buildIssueUrl "a?b/c"
          (Datasets.mkForm "Foo" EmptyString EmptyString EmptyString EmptyString))))
     = None
  /\ getParam "b/c/issues/new?title"
       (parseQuery (urlQuery (Datasets.buildIssueUrl "a?b/c"
          (Datasets.mkForm "Foo" EmptyString EmptyString EmptyString EmptyString))))
     = Some "[Dataset] Contributing Foo".
Proof. repeat split. Qed.

(** * Further properties of the code *)

(** ** Identifiers of the benchmark groups *)

Lemma isSlugChar_not_dash c : isSlugChar c = true -> (c =? "-")%char = false.
Proof. destruct c as [[] [] [] [] [] [] [] []]; simpl; intros H; first [reflexivity | discriminate H]. Qed.

Lemma isSlugChar_lower c : isSlugChar c = true -> lowerAscii c = c.
Proof. destruct c as [[] [] [] [] [] [] [] []]; simpl; intros H; first [reflexivity | discriminate H]. Qed.

Lemma prefix_two_dashes a s :
  prefix "--" (String a s) = (a =? "-")%char && firstIs "-" s.
Proof.
  cbn [prefix]. destruct (ascii_dec "-" a) as [<- | Hne].
  - rewrite Ascii.eqb_refl. cbn [andb]. destruct s as [|b s]; [reflexivity|].
    cbn [prefix firstIs]. destruct (ascii_dec "-" b) as [<- | Hne].
    + destruct s; reflexivity.
    + symmetry. apply Ascii.eqb_neq. congruence.
  - symmetry. apply andb_false_iff. left. apply Ascii.eqb_neq. congruence.
Qed.

Lemma includes_cons a s q :
  includes (String a s) q = prefix q (String a s) || includes s q.
Proof. reflexivity. Qed.

Lemma replaceRuns_chars b s : allChars isSlugOrDash (replaceRuns b s) = true.
Proof.
  revert b. induction s as [|c s IH]; intros b; simpl; [reflexivity|].
  destruct (isSlugChar c) eqn:E.
  - simpl. unfold isSlugOrDash at 1. rewrite E, IH. reflexivity.
  - destruct b; [apply IH|]. simpl. apply IH.
Qed.

Lemma replaceRuns_no_double s :
  includes (replaceRuns false s) "--" = false
  /\ includes (replaceRuns true s) "--" = false
  /\ firstIs "-" (replaceRuns true s) = false.
Proof.
  induction s as [|c s [IH1 [IH2 IH3]]]; [repeat split|].
  cbn [replaceRuns]. destruct (isSlugChar c) eqn:E.
  - rewrite includes_cons, prefix_two_dashes, (isSlugChar_not_dash _ E), IH1.
    repeat split. cbn [firstIs]. apply isSlugChar_not_dash. exact E.
  - rewrite includes_cons, prefix_two_dashes, IH2, IH3. repeat split; assumption.
Qed.

Lemma dropLeadingDashes_first s : firstIs "-" (dropLeadingDashes s) = false.
Proof.
  induction s as [|c s IH]; simpl; [reflexivity|].
  destruct (c =? "-")%char eqn:E; [exact IH | simpl; exact E].
Qed.

Lemma dropLeadingDashes_chars p s :
  allChars p s = true -> allChars p (dropLeadingDashes s) = true.
Proof.
  induction s as [|c s IH]; simpl; [reflexivity|]. intros H.
  destruct (c =? "-")%char; [|exact H].
  apply andb_true_iff in H as [_ H]. exact (IH H).
Qed.

Lemma dropLeadingDashes_includes s q :
  includes s q = false -> includes (dropLeadingDashes s) q = false.
Proof.
  induction s as [|c s IH]; simpl; [trivial|]. intros H.
  destruct (c =? "-")%char; [|exact H].
  apply orb_false_iff in H as [_ H]. exact (IH H).
Qed.

Lemma dropTrailingDashes_app s : exists t, s = dropTrailingDashes s ++ t.
Proof.
  induction s as [|c s [t IH]]; simpl; [exists EmptyString; reflexivity|].
  destruct ((c =? "-")%char && allDashes s).
  - exists (String c s). reflexivity.
  - exists t. simpl. rewrite <- IH. reflexivity.
Qed.

Lemma dropTrailingDashes_includes s q :
  includes s q = false -> includes (dropTrailingDashes s) q = false.
Proof.
  intros H. destruct (includes (dropTrailingDashes s) q) eqn:E; [|reflexivity].
  apply includes_spec in E as [pre [suf E]].
  destruct (dropTrailingDashes_app s) as [t Ht].
  assert (Hs : includes s q = true).
  { apply includes_spec. exists pre, (suf ++ t). rewrite Ht, E.
    clear. induction pre as [|a pre IH]; simpl.
    - induction q as [|b q IH]; simpl; [reflexivity | rewrite IH; reflexivity].
    - rewrite IH. reflexivity. }
  congruence.
Qed.

Lemma dropTrailingDashes_chars p s :
  allChars p s = true -> allChars p (dropTrailingDashes s) = true.
Proof.
  induction s as [|c s IH]; simpl; [reflexivity|]. intros H.
  apply andb_true_iff in H as [Hc H].
  destruct ((c =? "-")%char && allDashes s); [reflexivity|].
  simpl. rewrite Hc, (IH H). reflexivity.
Qed.

Lemma dropTrailingDashes_first s :
  firstIs "-" s = false -> firstIs "-" (dropTrailingDashes s) = false.
Proof.
  destruct s as [|c s]; simpl; [reflexivity|]. intros H. rewrite H. simpl. exact H.
Qed.

Lemma dropTrailingDashes_empty s :
  dropTrailingDashes s = EmptyString <-> allDashes s = true.
Proof.
  induction s as [|c s IH]; simpl; [tauto|].
  destruct (c =? "-")%char; simpl.
  - destruct (allDashes s) eqn:E; [tauto|].
    split; [discriminate | intros H; discriminate H].
  - split; [discriminate | intros H; discriminate H].
Qed.

Lemma dropTrailingDashes_last s : lastIs "-" (dropTrailingDashes s) = false.
Proof.
  induction s as [|c s IH]; simpl; [reflexivity|].
  destruct ((c =? "-")%char && allDashes s) eqn:E; [reflexivity|].
  cbn [lastIs]. destruct (dropTrailingDashes s) eqn:D; [|exact IH].
  apply dropTrailingDashes_empty in D. rewrite D, andb_true_r in E. exact E.
Qed.

(** X1.  Whatever the name, the text [slugifyId] puts after [sdrgrp-] holds
    lower-case letters, digits and dashes only, neither starts nor ends with a
    dash, and has no two dashes in a row. *)
Theorem slug_is_clean :
  forall s,
    slugifyId s = "sdrgrp-" ++ slugBody s
    /\ allChars isSlugOrDash (slugBody s) = true
    /\ firstIs "-" (slugBody s) = false
    /\ lastIs "-" (slugBody s) = false
    /\ includes (slugBody s) "--" = false.
Proof.
  intros s. unfold slugBody, stripDashes.
  destruct (replaceRuns_no_double (toLowerCase s)) as [Hd _].
  split; [reflexivity | split; [|split; [|split]]].
  - apply dropTrailingDashes_chars, dropLeadingDashes_chars, replaceRuns_chars.
  - apply dropTrailingDashes_first, dropLeadingDashes_first.
  - apply dropTrailingDashes_last.
  - apply dropTrailingDashes_includes, dropLeadingDashes_includes, Hd.
Qed.

Lemma lowerAscii_idem c : lowerAscii (lowerAscii c) = lowerAscii c.
Proof. destruct c as [[] [] [] [] [] [] [] []]; reflexivity. Qed.

Lemma toLowerCase_idem s : toLowerCase (toLowerCase s) = toLowerCase s.
Proof. induction s as [|c s IH]; simpl; [reflexivity | rewrite lowerAscii_idem, IH; reflexivity]. Qed.

Lemma slugOrDash_cases c :
  isSlugOrDash c = true -> isSlugChar c = false -> c = "-"%char.
Proof.
  unfold isSlugOrDash. intros H E. rewrite E in H. apply Ascii.eqb_eq. exact H.
Qed.

Lemma toLowerCase_slug t : allChars isSlugOrDash t = true -> toLowerCase t = t.
Proof.
  induction t as [|c t IH]; simpl; [reflexivity|]. intros H.
  apply andb_true_iff in H as [Hc H]. rewrite (IH H). f_equal.
  destruct (isSlugChar c) eqn:E; [apply isSlugChar_lower; exact E|].
  rewrite (slugOrDash_cases _ Hc E). reflexivity.
Qed.

Lemma replaceRuns_fixed t :
  allChars isSlugOrDash t = true ->
  includes t "--" = false ->
  replaceRuns false t = t /\ (firstIs "-" t = false -> replaceRuns true t = t).
Proof.
  induction t as [|c t IH]; [split; reflexivity|].
  cbn [allChars]. rewrite includes_cons, prefix_two_dashes.
  intros H Hd. apply andb_true_iff in H as [Hc H]. apply orb_false_iff in Hd as [Hp Hd].
  destruct (IH H Hd) as [IHf IHt]. cbn [replaceRuns].
  destruct (isSlugChar c) eqn:E.
  - rewrite IHf. split; reflexivity.
  - pose proof (slugOrDash_cases _ Hc E) as ->. cbn [Ascii.eqb Bool.eqb andb] in Hp.
    split; [rewrite (IHt Hp); reflexivity | intros Hf; discriminate Hf].
Qed.

Lemma dropLeadingDashes_fixed t : firstIs "-" t = false -> dropLeadingDashes t = t.
Proof. destruct t as [|c t]; simpl; [reflexivity | intros ->; reflexivity]. Qed.

Lemma allDashes_last c t : (c =? "-")%char && allDashes t = true -> lastIs "-" (String c t) = true.
Proof.
  revert c. induction t as [|d t IH]; intros c H.
  - simpl in H |- *. rewrite andb_true_r in H. exact H.
  - apply andb_true_iff in H as [_ H]. cbn [lastIs]. apply IH. exact H.
Qed.

Lemma dropTrailingDashes_fixed t : lastIs "-" t = false -> dropTrailingDashes t = t.
Proof.
  induction t as [|c t IH]; [reflexivity|]. intros H. cbn [dropTrailingDashes].
  destruct ((c =? "-")%char && allDashes t) eqn:E.
  - rewrite (allDashes_last _ _ E) in H. discriminate H.
  - f_equal. destruct t as [|d t]; [reflexivity|]. apply IH. exact H.
Qed.

Lemma slugBody_fixed t :
  allChars isSlugOrDash t = true -> firstIs "-" t = false -> lastIs "-" t = false ->
  includes t "--" = false -> slugBody t = t.
Proof.
  intros Hc Hf Hl Hd. unfold slugBody, stripDashes.
  rewrite (toLowerCase_slug _ Hc), (proj1 (replaceRuns_fixed _ Hc Hd)).
  rewrite (dropLeadingDashes_fixed _ Hf). apply dropTrailingDashes_fixed. exact Hl.
Qed.

Lemma allChars_app p a b : allChars p (a ++ b) = allChars p a && allChars p b.
Proof.
  induction a as [|c a IH]; [reflexivity|]. cbn [append allChars].
  rewrite IH, andb_assoc. reflexivity.
Qed.

Lemma lastIs_app c a b : b <> EmptyString -> lastIs c (a ++ b) = lastIs c b.
Proof.
  intros Hb. induction a as [|d a IH]; [reflexivity|]. cbn [append].
  destruct (a ++ b) as [|x t] eqn:E.
  - destruct a; [cbn [append] in E; contradiction | discriminate E].
  - cbn [lastIs]. exact IH.
Qed.

Lemma slugBody_shape s :
  allChars isSlugOrDash (slugBody s) = true
  /\ firstIs "-" (slugBody s) = false
  /\ lastIs "-" (slugBody s) = false
  /\ includes (slugBody s) "--" = false.
Proof.
  unfold slugBody, stripDashes.
  destruct (replaceRuns_no_double (toLowerCase s)) as [Hd _].
  split; [|split; [|split]].
  - apply dropTrailingDashes_chars, dropLeadingDashes_chars, replaceRuns_chars.
  - apply dropTrailingDashes_first, dropLeadingDashes_first.
  - apply dropTrailingDashes_last.
  - apply dropTrailingDashes_includes, dropLeadingDashes_includes, Hd.
Qed.

(** The identifier of a clean text is the prefix and the text. *)
Lemma slugBody_clean s : slugBody (slugBody s) = slugBody s.
Proof.
  destruct (slugBody_shape s) as [Hc [Hf [Hl Hd]]].
  apply slugBody_fixed; assumption.
Qed.

(** X2.  The text after the prefix is a fixed point: slugified, it gives
    the identifier it comes from.  The identifier itself is not: slugifying it
    puts a second prefix in front of it, and when the text after the prefix is
    empty the dash that ends the identifier is lost.  Names that differ in
    ASCII case only get the same identifier. *)
Theorem slug_is_stable :
  forall s,
    slugifyId (slugBody s) = slugifyId s
    /\ (slugBody s <> EmptyString -> slugifyId (slugifyId s) = "sdrgrp-" ++ slugifyId s)
    /\ (slugBody s = EmptyString -> slugifyId (slugifyId s) = "sdrgrp-sdrgrp")
    /\ slugifyId (toLowerCase s) = slugifyId s.
Proof.
  intros s. destruct (slugBody_shape s) as [Hc [Hf [Hl Hd]]].
  split; [|split; [|split]].
  - unfold slugifyId. rewrite slugBody_clean. reflexivity.
  - intros Hne. change (slugifyId (slugifyId s)) with ("sdrgrp-" ++ slugBody (slugifyId s)).
    f_equal. unfold slugifyId. apply slugBody_fixed.
    + rewrite allChars_app, Hc. reflexivity.
    + reflexivity.
    + rewrite (lastIs_app _ _ _ Hne). exact Hl.
    + cbn [append]. rewrite !includes_cons, !prefix_two_dashes. cbn [Ascii.eqb Bool.eqb andb orb].
      rewrite Hf, Hd. reflexivity.
  - intros He. change (slugifyId s) with ("sdrgrp-" ++ slugBody s). rewrite He. reflexivity.
  - unfold slugifyId, slugBody. rewrite toLowerCase_idem. reflexivity.
Qed.

Lemma slug_is_stable_witness :
  slugifyId (slugifyId "NYX Cosmology") = "sdrgrp-sdrgrp-nyx-cosmology"
  /\ slugifyId (slugifyId "?!") = "sdrgrp-sdrgrp".
Proof.
  exact (conj
    (proj1 (proj2 (slug_is_stable "NYX Cosmology")) ltac:(discriminate))
    (proj1 (proj2 (proj2 (slug_is_stable "?!"))) eq_refl)).
Defined.

Lemma replaceRuns_allDashes b s :
  allDashes (replaceRuns b (toLowerCase s)) = allChars notAlnum s.
Proof.
  revert b. induction s as [|c s IH]; intros b; [reflexivity|].
  cbn [toLowerCase replaceRuns allChars]. unfold notAlnum at 1, isAlnum.
  destruct (isSlugChar (lowerAscii c)) eqn:E.
  - cbn [allDashes negb andb]. rewrite (isSlugChar_not_dash _ E). reflexivity.
  - cbn [negb andb]. destruct b; [apply IH|]. cbn [allDashes]. apply IH.
Qed.

Lemma dropLeadingDashes_allDashes s : allDashes (dropLeadingDashes s) = allDashes s.
Proof.
  induction s as [|c s IH]; [reflexivity|]. cbn [dropLeadingDashes allDashes].
  destruct (c =? "-")%char eqn:E; [exact IH|]. cbn [allDashes]. rewrite E. reflexivity.
Qed.

(** X3.  A name that holds an ASCII letter or a digit never has an empty
    identifier body, and an ASCII name that holds none always has one.  The
    default [uncategorized] replaces the empty name only: every other ASCII
    name without letters and digits gets the bare [collapse-sdrgrp-]. *)
Theorem slug_is_empty_without_alphanumerics :
  forall name,
    (allChars notAlnum name = false -> slugBody name <> EmptyString)
    /\ (isAscii name = true -> allChars notAlnum name = true ->
        slugBody name = EmptyString)
    /\ (isAscii name = true -> name <> EmptyString -> allChars notAlnum name = true ->
        safeGroupId name = "collapse-sdrgrp-")
    /\ safeGroupId EmptyString = "collapse-sdrgrp-uncategorized".
Proof.
  intros name.
  assert (H : slugBody name = EmptyString <-> allChars notAlnum name = true).
  { unfold slugBody, stripDashes.
    rewrite dropTrailingDashes_empty, dropLeadingDashes_allDashes, replaceRuns_allDashes.
    reflexivity. }
  split; [|split; [|split; [|reflexivity]]].
  - intros Hf He. rewrite (proj1 H He) in Hf. discriminate Hf.
  - intros _ Ha. exact (proj2 H Ha).
  - intros _ Hne Ha. unfold safeGroupId, slugifyId.
    assert (Ho : orStr name "uncategorized" = name)
      by (destruct name; [contradiction | reflexivity]).
    rewrite Ho, (proj2 H Ha). reflexivity.
Qed.

Lemma slug_is_empty_without_alphanumerics_witness :
  slugBody "HACC (1 GB)" <> EmptyString
  /\ slugBody "?!" = EmptyString /\ safeGroupId "?!" = "collapse-sdrgrp-".
Proof.
  pose proof (slug_is_empty_without_alphanumerics "?!") as [_ [H [H' _]]].
  exact (conj (proj1 (slug_is_empty_without_alphanumerics "HACC (1 GB)") eq_refl)
              (conj (H eq_refl eq_refl) (H' eq_refl ltac:(discriminate) eq_refl))).
Defined.

(** ** Guessing the category of a benchmark from its name *)

Lemma testAny_spec keywords n :
  testAny keywords n = true <-> exists k, In k keywords /\ Substring k n.
Proof.
  unfold testAny. rewrite existsb_exists.
  split; intros [k [Hin H]]; exists k; split; try exact Hin; apply includes_spec; exact H.
Qed.

Lemma firstRule_default rules n :
  (forall ks c, In (ks, c) rules -> c <> "Uncategorized") ->
  (firstRule rules n = "Uncategorized" <-> testAny (flat_map fst rules) n = false).
Proof.
  induction rules as [|[ks c] rules IH]; intros Hc; simpl; [tauto|].
  unfold testAny in *. rewrite existsb_app.
  destruct (existsb (includes n) ks) eqn:E; simpl.
  - split; [|discriminate]. intros H. exfalso. exact (Hc ks c (or_introl eq_refl) H).
  - apply IH. intros ks' c' Hin. apply (Hc ks' c'). right. exact Hin.
Qed.

Lemma inferCategoryFromName_table name :
  inferCategoryFromName name = firstRule categoryRules (toLowerCase name).
Proof. reflexivity. Qed.

(** X4.  A name is left uncategorized exactly when none of the keywords of
    the rules occurs in it, case ignored; and the rules are tried in order, so
    a keyword of the first rule decides whatever else the name holds. *)
Theorem category_is_guessed_from_keywords :
  forall name,
    (inferCategoryFromName name = "Uncategorized"
     <-> forall k, In k categoryKeywords -> ~ Substring k (toLowerCase name))
    /\ ((exists k, In k ["climate"; "cesm"; "era"; "atm"; "weather"; "ncar"]
                   /\ Substring k (toLowerCase name))
        -> inferCategoryFromName name = "Climate/Weather")
    /\ inferCategoryFromName (toLowerCase name) = inferCategoryFromName name.
Proof.
  intros name. split; [|split].
  - rewrite inferCategoryFromName_table, firstRule_default.
    + fold categoryKeywords. split.
      * intros H k Hk Hs.
        assert (Ht : testAny categoryKeywords (toLowerCase name) = true)
          by (apply testAny_spec; exists k; split; assumption).
        congruence.
      * intros H. destruct (testAny categoryKeywords (toLowerCase name)) eqn:E; [|reflexivity].
        apply testAny_spec in E as [k [Hk Hs]]. exfalso. exact (H k Hk Hs).
    + intros ks c Hin. simpl in Hin.
      repeat (destruct Hin as [Hin | Hin]; [inversion Hin; discriminate|]). contradiction.
  - intros H. apply testAny_spec in H. unfold inferCategoryFromName.
    cbv zeta. rewrite H. reflexivity.
  - rewrite !inferCategoryFromName_table, toLowerCase_idem. reflexivity.
Qed.

Lemma category_is_guessed_from_keywords_witness :
  inferCategoryFromName "Hurricane Weather Run" = "Climate/Weather".
Proof.
  refine (proj1 (proj2 (category_is_guessed_from_keywords "Hurricane Weather Run")) _).
  exists "weather". split; [simpl; tauto|]. apply includes_spec. reflexivity.
Defined.

(** X5.  No rule is dead: every keyword, taken as a name, is classified by
    its own rule, so none is shadowed by a keyword of an earlier rule. *)
Theorem category_keywords_reach_their_rule :
  forall ks c k,
    In (ks, c) categoryRules -> In k ks -> inferCategoryFromName k = c.
Proof.
  intros ks c k Hr Hk. simpl in Hr.
  repeat (destruct Hr as [Hr | Hr];
          [inversion Hr; subst; simpl in Hk;
           repeat (destruct Hk as [Hk | Hk]; [subst; reflexivity|]); contradiction|]).
  contradiction.
Qed.

Lemma category_keywords_reach_their_rule_witness :
  inferCategoryFromName "atom" = "Molecular Dynamics".
Proof.
  apply (category_keywords_reach_their_rule
           ["md"; "molecular"; "protein"; "atom"] "Molecular Dynamics" "atom");
    simpl; tauto.
Defined.

(** ** The repository the submissions go to *)

Lemma splitOn_parts sep s :
  Forall (fun x => noChar sep x = true) (splitOn sep s).
Proof.
  induction s as [|c s IH]; simpl; [repeat constructor|].
  destruct (c =? sep)%char eqn:E; [constructor; [reflexivity | exact IH]|].
  destruct (splitOn sep s) as [|w ws]; [repeat constructor; simpl; rewrite E; reflexivity|].
  inversion IH; subst. constructor; [simpl; rewrite E; assumption | assumption].
Qed.

Lemma splitOn_keeps c sep s :
  noChar c s = true -> Forall (fun x => noChar c x = true) (splitOn sep s).
Proof.
  induction s as [|d s IH]; simpl; intros H; [repeat constructor|].
  apply andb_true_iff in H as [Hd H]. specialize (IH H).
  destruct (d =? sep)%char; [constructor; [reflexivity | exact IH]|].
  destruct (splitOn sep s) as [|w ws]; [repeat constructor; simpl; rewrite Hd; reflexivity|].
  inversion IH; subst. constructor; [simpl; rewrite Hd; assumption | assumption].
Qed.

Lemma segments_parts path x :
  In x (segments path) -> truthyStr x = true /\ noChar "/" x = true.
Proof.
  unfold segments. intros H. apply filter_In in H as [Hin Ht]. split; [exact Ht|].
  pose proof (splitOn_parts "/" path) as Hf. rewrite Forall_forall in Hf. exact (Hf x Hin).
Qed.

Lemma ownerRepoShape_join a b :
  truthyStr a = true -> truthyStr b = true ->
  noChar "/" a = true -> noChar "/" b = true ->
  ownerRepoShape (a ++ "/" ++ b) = true.
Proof.
  intros Ha Hb Hna Hnb. unfold ownerRepoShape. rewrite (cutAt_sep "/" a b Hna).
  unfold truthyStr in Ha, Hb. rewrite Ha, Hb, Hnb. reflexivity.
Qed.

(** X6.  When the host name of the page holds no slash, the slug
    [repoFromEnvOrGuess] resolves is either empty or two non-empty parts
    around exactly one slash, so the new-issue address built from a non-empty
    slug always names an owner and a repository. *)
Theorem resolved_slug_is_owner_slash_repo :
  forall raw BASE_URL newURL location,
    (forall loc, location = Some loc -> noChar "/" (locHostname loc) = true) ->
    repoFromEnvOrGuess raw BASE_URL newURL location = EmptyString
    \/ ownerRepoShape (repoFromEnvOrGuess raw BASE_URL newURL location) = true.
Proof.
  intros raw BASE_URL newURL location Hloc. unfold repoFromEnvOrGuess.
  destruct (repoFromEnv raw newURL) as [slug|] eqn:E.
  - right. unfold repoFromEnv in E.
    destruct (truthyStr raw); [|discriminate].
    destruct (isHttpUrl raw).
    + destruct (newURL raw) as [u|].
      * set (parts := segments (locPathname u)) in *.
        destruct (includes (locHostname u) "github.com" && (2 <=? List.length parts)%nat) eqn:G.
        -- inversion E; subst. apply andb_true_iff in G as [_ G].
           assert (Hp : parts = segments (locPathname u)) by reflexivity.
           destruct parts as [|a [|b rest]]; try discriminate G. cbn [nth].
           destruct (segments_parts (locPathname u) a) as [Ha Hna]; [rewrite <- Hp; left; reflexivity|].
           destruct (segments_parts (locPathname u) b) as [Hb Hnb];
             [rewrite <- Hp; right; left; reflexivity|].
           apply ownerRepoShape_join; assumption.
        -- destruct (ownerRepoShape raw) eqn:S; inversion E; subst; exact S.
      * destruct (ownerRepoShape raw) eqn:S; inversion E; subst; exact S.
    + destruct (ownerRepoShape raw) eqn:S; inversion E; subst; exact S.
  - unfold repoFromLocation. destruct location as [loc|]; [|left; reflexivity].
    destruct (endsWith (locHostname loc) "github.io"); [|left; reflexivity].
    destruct (segments (orStr BASE_URL (locPathname loc))) as [|repo rest] eqn:P;
      [left; reflexivity|].
    destruct (truthyStr (hd EmptyString (splitOn "." (locHostname loc)))) eqn:Ho;
      [|left; reflexivity].
    destruct (truthyStr repo) eqn:Hr; [|left; reflexivity]. right. cbn [andb].
    destruct (segments_parts (orStr BASE_URL (locPathname loc)) repo) as [_ Hnr];
      [rewrite P; left; reflexivity|].
    apply ownerRepoShape_join; try assumption.
    pose proof (splitOn_keeps "/" "." _ (Hloc loc eq_refl)) as Hf.
    destruct (splitOn "." (locHostname loc)) as [|w ws]; [reflexivity|].
    inversion Hf; assumption.
Qed.

Lemma resolved_slug_is_owner_slash_repo_witness :
  repoFromEnvOrGuess EmptyString "/Z-Hub/" sampleParser
    (Some (mkLocation "skyler-ruiter.github.io" "/Z-Hub/datasets")) = EmptyString
  \/ ownerRepoShape
       (repoFromEnvOrGuess EmptyString "/Z-Hub/" sampleParser
          (Some (mkLocation "skyler-ruiter.github.io" "/Z-Hub/datasets"))) = true.
Proof.
  apply (resolved_slug_is_owner_slash_repo EmptyString "/Z-Hub/" sampleParser
           (Some (mkLocation "skyler-ruiter.github.io" "/Z-Hub/datasets"))).
  intros loc H. inversion H. reflexivity.
Defined.

Lemma cutAt_decomp sep s :
  noChar sep (fst (cutAt sep s)) = true
  /\ (s = fst (cutAt sep s) ++ String sep (snd (cutAt sep s))
      \/ (s = fst (cutAt sep s) /\ snd (cutAt sep s) = EmptyString)).
Proof.
  induction s as [|c s [IH1 IH2]]; simpl; [split; [reflexivity | right; split; reflexivity]|].
  destruct (c =? sep)%char eqn:E.
  - apply Ascii.eqb_eq in E. subst. simpl. split; [reflexivity | left; reflexivity].
  - destruct (cutAt sep s) as [a b]. simpl in *. rewrite E, IH1. split; [reflexivity|].
    destruct IH2 as [-> | [-> ->]]; [left | right; split]; reflexivity.
Qed.

Lemma countChar_app c a b : countChar c (a ++ b) = countChar c a + countChar c b.
Proof.
  induction a as [|d a IH]; simpl; [reflexivity|]. rewrite IH. apply Nat.add_assoc.
Qed.

Lemma countChar_none c s : noChar c s = true -> countChar c s = 0.
Proof.
  induction s as [|d s IH]; simpl; [reflexivity|]. intros H.
  apply andb_true_iff in H as [Hd H]. apply negb_true_iff in Hd. rewrite Hd, (IH H). reflexivity.
Qed.

Lemma countChar_lower s : countChar "/" (toLowerCase s) = countChar "/" s.
Proof.
  induction s as [|c s IH]; simpl; [reflexivity|]. rewrite IH. f_equal.
  destruct c as [[] [] [] [] [] [] [] []]; reflexivity.
Qed.

Lemma ownerRepoShape_one_slash raw :
  ownerRepoShape raw = true -> countChar "/" raw = 1 /\ truthyStr raw = true.
Proof.
  unfold ownerRepoShape. destruct (cutAt_decomp "/" raw) as [Ha Hs].
  destruct (cutAt "/" raw) as [a b]. simpl in Ha, Hs. intros H.
  apply andb_true_iff in H as [H Hb]. apply andb_true_iff in H as [Hna Hnb].
  destruct Hs as [-> | [_ ->]]; [|discriminate Hnb]. split.
  - rewrite countChar_app, (countChar_none _ _ Ha). simpl. rewrite (countChar_none _ _ Hb).
    reflexivity.
  - destruct a; [discriminate Hna | reflexivity].
Qed.

Lemma isHttpUrl_two_slashes raw : isHttpUrl raw = true -> 2 <= countChar "/" raw.
Proof.
  unfold isHttpUrl. intros H. rewrite <- countChar_lower.
  apply orb_true_iff in H as [H | H]; apply prefix_spec in H as [suf ->];
    rewrite countChar_app; simpl; apply le_n_S, le_n_S, Nat.le_0_l.
Qed.

(** X7.  A configured text of the form owner/repo is the slug, as it
    stands: neither the URL parser nor the address of the page is consulted. *)
Theorem configured_slug_takes_precedence :
  forall raw BASE_URL newURL location,
    ownerRepoShape raw = true ->
    repoFromEnvOrGuess raw BASE_URL newURL location = raw.
Proof.
  intros raw BASE_URL newURL location H.
  destruct (ownerRepoShape_one_slash raw H) as [Hc Ht].
  unfold repoFromEnvOrGuess, repoFromEnv. rewrite Ht.
  destruct (isHttpUrl raw) eqn:E.
  - apply isHttpUrl_two_slashes in E. rewrite Hc in E.
    exfalso. exact (Nat.nle_succ_diag_l 1 E).
  - rewrite H. reflexivity.
Qed.

Lemma configured_slug_takes_precedence_witness :
  repoFromEnvOrGuess "szcompressor/Z-Hub" "/other/" sampleParser
    (Some (mkLocation "someone.github.io" "/other/")) = "szcompressor/Z-Hub".
Proof.
  exact (configured_slug_takes_precedence "szcompressor/Z-Hub" "/other/" sampleParser
           (Some (mkLocation "someone.github.io" "/other/")) eq_refl).
Defined.

(** ** The host shown for a link *)

Lemma skipLetters_split s :
  exists scheme, s = scheme ++ skipLetters s /\ allChars isLetter scheme = true.
Proof.
  induction s as [|c s [scheme [IH1 IH2]]]; simpl; [exists EmptyString; split; reflexivity|].
  destruct (isLetter c) eqn:E.
  - exists (String c scheme). simpl. rewrite E, IH2, <- IH1. split; reflexivity.
  - exists EmptyString. split; reflexivity.
Qed.

Lemma stripPrefix_spec p s rest : stripPrefix p s = Some rest -> s = p ++ rest.
Proof.
  revert s. induction p as [|a p IH]; intros s; simpl.
  - intros H. inversion H. reflexivity.
  - destruct s as [|b s]; [discriminate|].
    destruct (Ascii.eqb_spec a b) as [<- | _]; [|discriminate].
    intros H. rewrite (IH _ H). reflexivity.
Qed.

Lemma append_empty_r s : s ++ EmptyString = s.
Proof. induction s as [|c s IH]; simpl; [reflexivity | rewrite IH; reflexivity]. Qed.

(** X8.  When the link does not parse as a URL, [hostname] shows either the
    link itself or the text that follows [scheme://] up to the next slash:
    that text is not empty, holds no slash, and the scheme before it is made
    of letters. *)
Theorem hostname_falls_back_to_the_text_after_the_scheme :
  forall newURL lnk,
    newURL lnk = None ->
    hostname newURL lnk = lnk
    \/ (exists scheme rest,
          lnk = scheme ++ "://" ++ hostname newURL lnk ++ rest
          /\ scheme <> EmptyString
          /\ allChars isLetter scheme = true
          /\ hostname newURL lnk <> EmptyString
          /\ noChar "/" (hostname newURL lnk) = true
          /\ (rest = EmptyString \/ firstIs "/" rest = true)).
Proof.
  intros newURL lnk Hp. unfold hostname. rewrite Hp.
  destruct (schemeHost lnk) as [host|] eqn:E; [right | left; reflexivity].
  unfold schemeHost in E. destruct lnk as [|c lnk]; [discriminate|].
  destruct (isLetter c) eqn:Hc; [|discriminate].
  destruct (stripPrefix "://" (skipLetters (String c lnk))) as [rest|] eqn:S; [|discriminate].
  destruct (truthyStr (fst (cutAt "/" rest))) eqn:T; [|discriminate].
  inversion E; subst. clear E.
  cbn [skipLetters] in S. rewrite Hc in S.
  destruct (skipLetters_split lnk) as [scheme' [Hs' Hl']].
  apply stripPrefix_spec in S.
  destruct (cutAt_decomp "/" rest) as [Hn Hr].
  set (scheme := String c scheme').
  assert (Hs : String c lnk = scheme ++ skipLetters lnk)
    by (unfold scheme; simpl; rewrite <- Hs'; reflexivity).
  assert (Hl : allChars isLetter scheme = true) by (unfold scheme; simpl; rewrite Hc; exact Hl').
  assert (Hne : scheme <> EmptyString) by discriminate.
  assert (Hh : fst (cutAt "/" rest) <> EmptyString).
  { intros Hh. rewrite Hh in T. discriminate T. }
  destruct Hr as [Hr | [Hr _]].
  - exists scheme, (String "/" (snd (cutAt "/" rest))). repeat split; try assumption.
    + rewrite Hs at 1. rewrite S. rewrite Hr at 1. reflexivity.
    + right. reflexivity.
  - exists scheme, EmptyString. repeat split; try assumption.
    + rewrite Hs at 1. rewrite S. rewrite <- Hr. rewrite append_empty_r. reflexivity.
    + left. reflexivity.
Qed.

Lemma hostname_falls_back_to_the_text_after_the_scheme_witness :
  hostname sampleParser "htp://exa mple.org/data" = "htp://exa mple.org/data"
  \/ (exists scheme rest,
        "htp://exa mple.org/data"
        = scheme ++ "://" ++ hostname sampleParser "htp://exa mple.org/data" ++ rest
        /\ scheme <> EmptyString
        /\ allChars isLetter scheme = true
        /\ hostname sampleParser "htp://exa mple.org/data" <> EmptyString
        /\ noChar "/" (hostname sampleParser "htp://exa mple.org/data") = true
        /\ (rest = EmptyString \/ firstIs "/" rest = true)).
Proof.
  exact (hostname_falls_back_to_the_text_after_the_scheme sampleParser
           "htp://exa mple.org/data" eq_refl).
Defined.

(** ** The base path and the candidate URLs *)

Lemma allSlashes_last c t :
  (c =? "/")%char && allSlashes t = true -> lastIs "/" (String c t) = true.
Proof.
  revert c. induction t as [|d t IH]; intros c H.
  - simpl in H |- *. rewrite andb_true_r in H. exact H.
  - apply andb_true_iff in H as [_ H]. cbn [lastIs]. apply IH. exact H.
Qed.

Lemma allSlashes_app a b : allSlashes (a ++ b) = allSlashes a && allSlashes b.
Proof.
  induction a as [|c a IH]; simpl; [reflexivity|]. rewrite IH, andb_assoc. reflexivity.
Qed.

Lemma lastIs_cons c d t : lastIs "/" (String c (String d t)) = lastIs "/" (String d t).
Proof. reflexivity. Qed.

Lemma replaceTrailingSlashes_one s :
  replaceTrailingSlashes s = "/" -> allSlashes s = true.
Proof.
  destruct s as [|c s]; simpl; [discriminate|].
  destruct ((c =? "/")%char && allSlashes s) eqn:E; [reflexivity|].
  intros H. inversion H as [[Hc Hs]]. subst.
  destruct s as [|d s]; [discriminate E|]. simpl in Hs.
  destruct ((d =? "/")%char && allSlashes s); discriminate Hs.
Qed.

Lemma replaceTrailingSlashes_spec s :
  (lastIs "/" s = false /\ replaceTrailingSlashes s = s)
  \/ (lastIs "/" s = true
      /\ exists core, replaceTrailingSlashes s = core ++ "/" /\ lastIs "/" core = false).
Proof.
  induction s as [|c s IH]; [left; split; reflexivity|].
  cbn [replaceTrailingSlashes].
  destruct ((c =? "/")%char && allSlashes s) eqn:E.
  - right. split; [apply allSlashes_last; exact E | exists EmptyString; split; reflexivity].
  - destruct IH as [[Hl Hr] | [Hl [core [Hr Hc]]]].
    + left. rewrite Hr. split; [|reflexivity].
      destruct s as [|d s]; [|exact Hl]. simpl in E |- *. rewrite andb_true_r in E. exact E.
    + right. split; [destruct s as [|d s]; [discriminate Hl | exact Hl]|].
      exists (String c core). rewrite Hr. split; [reflexivity|].
      destruct core as [|d core]; [|exact Hc].
      simpl. rewrite (replaceTrailingSlashes_one s Hr), andb_true_r in E. exact E.
Qed.

Lemma replaceTrailingSlashes_core core :
  lastIs "/" core = false -> replaceTrailingSlashes (core ++ "/") = core ++ "/".
Proof.
  induction core as [|c core IH]; [reflexivity|]. intros H.
  cbn [append replaceTrailingSlashes].
  assert (E : (c =? "/")%char && allSlashes (core ++ "/") = false).
  { destruct core as [|d core].
    - simpl in H |- *. rewrite H. reflexivity.
    - destruct ((c =? "/")%char && allSlashes (String d core ++ "/")) eqn:E; [|reflexivity].
      apply andb_true_iff in E as [_ E]. rewrite allSlashes_app in E.
      apply andb_true_iff in E as [E _]. change (allSlashes (String d core) = true) in E.
      cbn [allSlashes] in E. rewrite lastIs_cons in H.
      rewrite (allSlashes_last d core E) in H. discriminate H. }
  rewrite E. f_equal. apply IH.
  destruct core as [|d core]; [reflexivity | exact H].
Qed.

Lemma replaceTrailingSlashes_nonempty s :
  s <> EmptyString -> replaceTrailingSlashes s <> EmptyString.
Proof.
  destruct s as [|c s]; [contradiction|]. intros _. simpl.
  destruct ((c =? "/")%char && allSlashes s); discriminate.
Qed.

Lemma orStr_slash_nonempty b : orStr b "/" <> EmptyString.
Proof. destruct b; discriminate. Qed.

Lemma baseOf_unfold BASE_URL :
  baseOf BASE_URL = replaceTrailingSlashes (orStr BASE_URL "/")
  /\ baseOf BASE_URL <> EmptyString.
Proof.
  unfold baseOf, replaceEmpty.
  pose proof (replaceTrailingSlashes_nonempty _ (orStr_slash_nonempty BASE_URL)) as H.
  destruct (String.eqb_spec (replaceTrailingSlashes (orStr BASE_URL "/")) EmptyString) as [E | _];
    [contradiction | split; [reflexivity | exact H]].
Qed.

(** X9.  The base path is never empty, and computing it twice changes
    nothing.  A configured base that does not end with a slash is used as it
    stands, so no separator is put between it and the file name; one that ends
    with slashes ends with exactly one afterwards. *)
Theorem base_path_is_normalised :
  forall BASE_URL,
    baseOf BASE_URL <> EmptyString
    /\ baseOf (baseOf BASE_URL) = baseOf BASE_URL
    /\ (BASE_URL <> EmptyString -> lastIs "/" BASE_URL = false -> baseOf BASE_URL = BASE_URL)
    /\ (lastIs "/" BASE_URL = true ->
        exists core, baseOf BASE_URL = core ++ "/" /\ lastIs "/" core = false).
Proof.
  intros B. destruct (baseOf_unfold B) as [Hb Hne].
  assert (Hcases := replaceTrailingSlashes_spec (orStr B "/")).
  split; [exact Hne | split; [|split]].
  - destruct (baseOf_unfold (baseOf B)) as [Hbb _]. rewrite Hbb.
    assert (Ho : orStr (baseOf B) "/" = baseOf B) by (destruct (baseOf B); [contradiction | reflexivity]).
    rewrite Ho, Hb.
    destruct Hcases as [[_ Hr] | [_ [core [Hr Hc]]]].
    + rewrite Hr, Hr. reflexivity.
    + rewrite Hr. apply replaceTrailingSlashes_core. exact Hc.
  - intros HB Hl. rewrite Hb.
    assert (Ho : orStr B "/" = B) by (destruct B; [contradiction | reflexivity]).
    rewrite Ho in *. destruct Hcases as [[_ Hr] | [Hl' _]]; [exact Hr | congruence].
  - intros Hl. rewrite Hb.
    assert (Ho : orStr B "/" = B) by (destruct B; [discriminate Hl | reflexivity]).
    rewrite Ho in *. destruct Hcases as [[Hl' _] | [_ Hc]]; [congruence | exact Hc].
Qed.

Lemma base_path_is_normalised_witness :
  baseOf "/app" = "/app"
  /\ exists core, baseOf "/Z-Hub//" = core ++ "/" /\ lastIs "/" core = false.
Proof.
  pose proof (base_path_is_normalised "/app") as [_ [_ [H _]]].
  pose proof (base_path_is_normalised "/Z-Hub//") as [_ [_ [_ H']]].
  exact (conj (H ltac:(discriminate) eq_refl) (H' eq_refl)).
Defined.

Lemma length_append a b : String.length (a ++ b) = String.length a + String.length b.
Proof. induction a as [|c a IH]; simpl; [reflexivity | rewrite IH; reflexivity]. Qed.

Lemma append_cancel_r a b f : a ++ f = b ++ f -> a = b.
Proof.
  revert b. induction a as [|c a IH]; intros [|d b] H; simpl in H.
  - reflexivity.
  - exfalso. apply (f_equal String.length) in H. simpl in H. rewrite length_append in H.
    apply (Nat.lt_irrefl (String.length f)). rewrite H at 2.
    apply Nat.lt_succ_r. rewrite Nat.add_comm. apply Nat.le_add_r.
  - exfalso. apply (f_equal String.length) in H. simpl in H. rewrite length_append in H.
    apply (Nat.lt_irrefl (String.length f)). rewrite <- H at 2.
    apply Nat.lt_succ_r. rewrite Nat.add_comm. apply Nat.le_add_r.
  - inversion H. f_equal. apply IH. assumption.
Qed.

Lemma replaceTrailingSlashes_allSlashes s :
  s <> EmptyString -> allSlashes s = true -> replaceTrailingSlashes s = "/".
Proof.
  destruct s as [|c s]; [contradiction|]. intros _ H. simpl in H |- *. rewrite H. reflexivity.
Qed.

Lemma baseOf_root BASE_URL : baseOf BASE_URL = "/" <-> allSlashes BASE_URL = true.
Proof.
  destruct (baseOf_unfold BASE_URL) as [Hb _]. rewrite Hb. split.
  - intros H. apply replaceTrailingSlashes_one in H.
    destruct BASE_URL; [reflexivity | exact H].
  - intros H. destruct BASE_URL as [|c b]; [reflexivity|].
    apply replaceTrailingSlashes_allSlashes; [discriminate | exact H].
Qed.

Lemma cacheBust_query clock i us :
  Forall (fun u => includes u "?" = true) (cacheBust clock i us).
Proof.
  revert i. induction us as [|u us IH]; intros i; simpl; constructor; [|apply IH].
  destruct (includes u "?") eqn:E.
  - rewrite append_empty_r. exact E.
  - apply includes_spec. exists u, (String "t" (String "s" (String "=" (showN (clock i))))).
    reflexivity.
Qed.

(** X10.  With an empty base path, or one made of slashes only, the
    base-qualified form is the root-absolute one and two candidates are tried;
    with any other base path three are: base-qualified, root-absolute,
    relative, in this order.  Every candidate tried has a query. *)
Theorem candidates_are_two_or_three :
  forall BASE_URL clock file,
    (allSlashes BASE_URL = true ->
     candidatesOf BASE_URL clock file = cacheBust clock 0 [ "/" ++ file; file ])
    /\ (allSlashes BASE_URL = false ->
        candidatesOf BASE_URL clock file
        = cacheBust clock 0 [ baseOf BASE_URL ++ file; "/" ++ file; file ])
    /\ Forall (fun u => includes u "?" = true) (candidatesOf BASE_URL clock file).
Proof.
  intros B clock file.
  assert (Hrel : ("/" ++ file =? file) = false).
  { apply String.eqb_neq. intros H. apply (f_equal String.length) in H. simpl in H.
    exact (Nat.neq_succ_diag_l _ H). }
  assert (Hbase : (baseOf B ++ file =? file) = false).
  { apply String.eqb_neq. intros H. change file with (EmptyString ++ file) in H at 2.
    apply append_cancel_r in H. exact (proj2 (baseOf_unfold B) H). }
  split; [|split].
  - intros H. apply baseOf_root in H. unfold candidatesOf, newSet. rewrite H.
    cbn [fold_left setAdd]. rewrite String.eqb_refl. cbn [setAdd]. rewrite Hrel. reflexivity.
  - intros H. unfold candidatesOf, newSet. cbn [fold_left setAdd].
    assert (Hroot : (baseOf B ++ file =? "/" ++ file) = false).
    { apply String.eqb_neq. intros E. apply append_cancel_r in E.
      apply baseOf_root in E. congruence. }
    rewrite Hroot. cbn [setAdd]. rewrite Hbase, Hrel. reflexivity.
  - apply cacheBust_query.
Qed.

Lemma candidates_are_two_or_three_witness :
  candidatesOf "//" noon "modules.json"
  = cacheBust noon 0 [ "/" ++ "modules.json"; "modules.json" ]
  /\ candidatesOf "/Z-Hub/" noon "modules.json"
     = cacheBust noon 0 [ baseOf "/Z-Hub/" ++ "modules.json"; "/" ++ "modules.json";
                          "modules.json" ].
Proof.
  exact (conj (proj1 (candidates_are_two_or_three "//" noon "modules.json") eq_refl)
              (proj1 (proj2 (candidates_are_two_or_three "/Z-Hub/" noon "modules.json")) eq_refl)).
Defined.

(** ** Falling back through the candidates *)

Lemma fetchLoop_resolved tryFetch candidates url data :
  FirstResolved tryFetch candidates url data ->
  forall s, exists pre rest,
    candidates = (pre ++ url :: rest)%list
    /\ (forall u, In u pre -> Fails tryFetch u)
    /\ fetchLoop tryFetch candidates s
       = mkLoop (if isArray data then data else JArr []) None (requested s ++ pre ++ [url]).
Proof.
  intros H. induction H as [url rest data H | u rest url data [e He] H IH]; intros s.
  - exists [], rest. split; [reflexivity | split; [intros u []|]].
    cbn [fetchLoop]. rewrite H. reflexivity.
  - destruct (IH (mkLoop (coll s) (Some e) (requested s ++ [u]))) as [pre [rest' [Hc [Hf Hl]]]].
    exists (u :: pre), rest'. split; [rewrite Hc; reflexivity | split].
    + intros w [<- | Hw]; [exists e; exact He | exact (Hf w Hw)].
    + cbn [fetchLoop]. rewrite He, Hl. cbn [requested]. rewrite <- app_assoc. reflexivity.
Qed.

Lemma all_fail_or_first_resolved tryFetch candidates :
  (forall u, In u candidates -> Fails tryFetch u)
  \/ (exists url data, FirstResolved tryFetch candidates url data).
Proof.
  induction candidates as [|u rest IH]; [left; intros u []|].
  destruct (tryFetch u) as [data | e] eqn:E.
  - right. exists u, data. constructor. exact E.
  - destruct IH as [Hf | [url [data H]]].
    + left. intros w [<- | Hw]; [exists e; exact E | exact (Hf w Hw)].
    + right. exists url, data. apply resolved_later; [exists e; exact E | exact H].
Qed.

Lemma first_resolved_not_all_fail tryFetch candidates url data :
  FirstResolved tryFetch candidates url data ->
  ~ (forall u, In u candidates -> Fails tryFetch u).
Proof.
  intros H Hf. induction H as [url rest data H | u rest url data _ H IH].
  - destruct (Hf url (or_introl eq_refl)) as [e He]. congruence.
  - apply IH. intros w Hw. apply Hf. right. exact Hw.
Qed.

(** X11.  When some candidate resolves, [loadModules] and
    [loadCommunityDatasets] stop at the first that does: the candidates before
    it have been requested and have failed, it is the last URL requested, its
    data (the empty array when it is not an array) is the collection, and the
    errors of the candidates before it leave no message. *)
Theorem load_stops_at_the_first_candidate_that_resolves :
  forall BASE_URL clock net,
    (forall v url data,
        FirstResolved (Modules.tryFetch net) (candidatesOf BASE_URL clock "modules.json") url data ->
        exists pre rest,
          candidatesOf BASE_URL clock "modules.json" = (pre ++ url :: rest)%list
          /\ (forall u, In u pre -> Fails (Modules.tryFetch net) u)
          /\ Modules.loadModules BASE_URL clock net v
             = (Modules.mkView (if isArray data then data else JArr []) false EmptyString
                  (Modules.searchQuery v) (Modules.selectedCategory v),
                (pre ++ [url])%list))
    /\ (forall v url data,
        FirstResolved (Datasets.tryFetch net) (candidatesOf BASE_URL clock "datasets.json") url data ->
        exists pre rest,
          candidatesOf BASE_URL clock "datasets.json" = (pre ++ url :: rest)%list
          /\ (forall u, In u pre -> Fails (Datasets.tryFetch net) u)
          /\ Datasets.loadCommunityDatasets BASE_URL clock net v
             = (Datasets.mkView (if isArray data then data else JArr [])
                  (Datasets.sdrbenchDatasets v) (Datasets.loading v) EmptyString
                  (Datasets.sdrError v),
                (pre ++ [url])%list)).
Proof.
  intros BASE_URL clock net. split; intros v url data H.
  - destruct (fetchLoop_resolved _ _ _ _ H (mkLoop (Modules.modules v) None []))
      as [pre [rest [Hc [Hf Hl]]]].
    exists pre, rest. split; [exact Hc | split; [exact Hf|]].
    unfold Modules.loadModules. rewrite Hl. reflexivity.
  - destruct (fetchLoop_resolved _ _ _ _ H (mkLoop (Datasets.communityDatasets v) None []))
      as [pre [rest [Hc [Hf Hl]]]].
    exists pre, rest. split; [exact Hc | split; [exact Hf|]].
    unfold Datasets.loadCommunityDatasets. rewrite Hl. reflexivity.
Qed.

Lemma load_stops_at_the_first_candidate_that_resolves_witness :
  exists pre rest,
    candidatesOf "/Z-Hub/" noon "modules.json"
    = (pre ++ "/modules.json?ts=1700000000000" :: rest)%list
    /\ (forall u, In u pre ->
                  Fails (Modules.tryFetch (rootOnly "modules.json" (JArr [moduleRLE]))) u)
    /\ Modules.loadModules "/Z-Hub/" noon (rootOnly "modules.json" (JArr [moduleRLE]))
         Modules.initial
       = (Modules.mkView (JArr [moduleRLE]) false EmptyString EmptyString "all",
          (pre ++ [ "/modules.json?ts=1700000000000" ])%list).
Proof.
  refine (proj1 (load_stops_at_the_first_candidate_that_resolves "/Z-Hub/" noon
                   (rootOnly "modules.json" (JArr [moduleRLE])))
            Modules.initial "/modules.json?ts=1700000000000" (JArr [moduleRLE]) _).
  apply resolved_later; [eexists; reflexivity | apply resolved_here; reflexivity].
Defined.

(** X12.  After [loadModules] and after [loadCommunityDatasets] the error
    message is set exactly when every candidate has failed: a message left by
    an earlier run never survives a run in which a candidate resolves. *)
Theorem error_message_means_every_candidate_failed :
  forall BASE_URL clock net,
    (forall v,
        truthyStr (Modules.error (fst (Modules.loadModules BASE_URL clock net v))) = true
        <-> (forall u, In u (candidatesOf BASE_URL clock "modules.json") ->
                       Fails (Modules.tryFetch net) u))
    /\ (forall v,
        truthyStr (Datasets.error (fst (Datasets.loadCommunityDatasets BASE_URL clock net v)))
        = true
        <-> (forall u, In u (candidatesOf BASE_URL clock "datasets.json") ->
                       Fails (Datasets.tryFetch net) u)).
Proof.
  intros BASE_URL clock net. split; intros v.
  - destruct (all_fail_or_first_resolved (Modules.tryFetch net)
                (candidatesOf BASE_URL clock "modules.json")) as [Hf | [url [data H]]].
    + split; [intros _; exact Hf | intros _].
      unfold Modules.loadModules. cbn [fst Modules.error].
      destruct (fetchLoop_all_fail _ _ (mkLoop (Modules.modules v) None []) Hf) as [_ [_ Hl]].
      destruct Hl as [e He].
      { destruct (candidatesOf_first BASE_URL clock "modules.json") as [u [r E]].
        rewrite E. discriminate. }
      rewrite He. reflexivity.
    + split; [|intros Hf; exfalso; exact (first_resolved_not_all_fail _ _ _ _ H Hf)].
      destruct (fetchLoop_resolved _ _ _ _ H (mkLoop (Modules.modules v) None []))
        as [pre [rest [_ [_ Hl]]]].
      unfold Modules.loadModules. rewrite Hl. cbn. discriminate.
  - destruct (all_fail_or_first_resolved (Datasets.tryFetch net)
                (candidatesOf BASE_URL clock "datasets.json")) as [Hf | [url [data H]]].
    + split; [intros _; exact Hf | intros _].
      unfold Datasets.loadCommunityDatasets. cbn [fst Datasets.error].
      destruct (fetchLoop_all_fail _ _ (mkLoop (Datasets.communityDatasets v) None []) Hf)
        as [_ [_ Hl]].
      destruct Hl as [e He].
      { destruct (candidatesOf_first BASE_URL clock "datasets.json") as [u [r E]].
        rewrite E. discriminate. }
      rewrite He. reflexivity.
    + split; [|intros Hf; exfalso; exact (first_resolved_not_all_fail _ _ _ _ H Hf)].
      destruct (fetchLoop_resolved _ _ _ _ H (mkLoop (Datasets.communityDatasets v) None []))
        as [pre [rest [_ [_ Hl]]]].
      unfold Datasets.loadCommunityDatasets. rewrite Hl. cbn. discriminate.
Qed.

(** X13.  The two [tryFetch] helpers resolve on the same responses and to
    the same data: those whose status is from 200 to 299 and whose body is
    JSON.  They differ only in the error a body that is not JSON rejects
    with. *)
Theorem tryFetch_resolves_on_success_status_and_json :
  forall net url data,
    (Modules.tryFetch net url = Normal data
     <-> exists status, net url = Response status (Some data)
                        /\ (200 <= status <= 299)%N)
    /\ (Datasets.tryFetch net url = Normal data <-> Modules.tryFetch net url = Normal data).
Proof.
  intros net url data. unfold Modules.tryFetch, Datasets.tryFetch, ok.
  destruct (net url) as [| | status [body|]]; repeat split;
    try discriminate; try (intros [st [H _]]; discriminate H); try tauto.
  - destruct ((200 <=? status)%N && (status <=? 299)%N) eqn:E; [|discriminate].
    cbn [negb]. intros H. inversion H; subst. exists status. split; [reflexivity|].
    apply andb_true_iff in E as [E1 E2]. split; [apply N.leb_le, E1 | apply N.leb_le, E2].
  - intros [st [H [H1 H2]]]. inversion H; subst.
    apply N.leb_le in H1. apply N.leb_le in H2. rewrite H1, H2. reflexivity.
  - destruct ((200 <=? status)%N && (status <=? 299)%N); cbn [negb]; [|discriminate].
    discriminate.
  - destruct ((200 <=? status)%N && (status <=? 299)%N); cbn [negb]; discriminate.
  - destruct ((200 <=? status)%N && (status <=? 299)%N); cbn [negb]; discriminate.
Qed.

(** ** The compositions view and payloads that are not arrays *)

(** X14.  [loadCompositions] stores a JSON payload that is not an array as
    it is, whatever the status of the response; the facets of the view then
    throw, and so does the filter as soon as a query or a category is set.
    With neither set the filter hands the payload on. *)
Theorem compositions_view_throws_on_non_array_payload :
  forall BASE_URL net v status data,
    net (BASE_URL ++ "compositions.json") = Response status (Some data) ->
    isArray data = false ->
    Compositions.compositions (Compositions.view (Compositions.loadCompositions BASE_URL net v))
    = data
    /\ Compositions.categories
         (Compositions.compositions
            (Compositions.view (Compositions.loadCompositions BASE_URL net v)))
       = Throw TypeError
    /\ (truthyStr (Compositions.searchQuery v) = true
        \/ (Compositions.selectedCategory v =? "All") = false ->
        Compositions.filteredCompositions
          (Compositions.view (Compositions.loadCompositions BASE_URL net v))
        = Throw TypeError)
    /\ (truthyStr (Compositions.searchQuery v) = false ->
        (Compositions.selectedCategory v =? "All") = true ->
        Compositions.filteredCompositions
          (Compositions.view (Compositions.loadCompositions BASE_URL net v))
        = Normal data).
Proof.
  intros BASE_URL net v status data Hn Hd.
  unfold Compositions.loadCompositions. rewrite Hn. cbn [Compositions.view Compositions.compositions].
  assert (Hf : forall f, callFilter data f = Throw TypeError)
    by (intros f; destruct data; try reflexivity; discriminate Hd).
  split; [reflexivity | split; [|split]].
  - unfold Compositions.categories, facets. destruct data; try reflexivity. discriminate Hd.
  - unfold Compositions.filteredCompositions.
    cbn [Compositions.compositions Compositions.searchQuery Compositions.selectedCategory].
    intros [H | H].
    + rewrite H. destruct (Compositions.selectedCategory v =? "All"); cbn [negb bind].
      * apply Hf.
      * rewrite Hf. reflexivity.
    + rewrite H. cbn [negb]. rewrite Hf. reflexivity.
  - unfold Compositions.filteredCompositions.
    cbn [Compositions.compositions Compositions.searchQuery Compositions.selectedCategory].
    intros Hq Hs. rewrite Hq, Hs. reflexivity.
Qed.

Lemma compositions_view_throws_on_non_array_payload_witness :
  Compositions.compositions
    (Compositions.view
       (Compositions.loadCompositions "/" (fun _ => Response 404 (Some (JObj [("error", JStr "Not Found")])))
          emptyCompositions))
  = JObj [("error", JStr "Not Found")]
  /\ Compositions.categories
       (Compositions.compositions
          (Compositions.view
             (Compositions.loadCompositions "/"
                (fun _ => Response 404 (Some (JObj [("error", JStr "Not Found")])))
                emptyCompositions)))
     = Throw TypeError.
Proof.
  pose proof (compositions_view_throws_on_non_array_payload "/"
                (fun _ => Response 404 (Some (JObj [("error", JStr "Not Found")])))
                emptyCompositions 404 (JObj [("error", JStr "Not Found")]) eq_refl eq_refl)
    as [H1 [H2 _]].
  exact (conj H1 H2).
Defined.

(** ** What the filters keep *)

Lemma Subseq_refl {A} (l : list A) : Subseq l l.
Proof. induction l; constructor; assumption. Qed.

Lemma Subseq_trans {A} (a b c : list A) : Subseq a b -> Subseq b c -> Subseq a c.
Proof.
  intros Hab Hbc. revert a Hab. induction Hbc as [| x b c Hbc IH | x b c Hbc IH]; intros a Hab.
  - exact Hab.
  - inversion Hab; subst; [apply subseq_keep | apply subseq_drop]; apply IH; assumption.
  - apply subseq_drop. apply IH. exact Hab.
Qed.

Lemma Subseq_filter {A} (f g : A -> bool) l :
  (forall x, In x l -> f x = true -> g x = true) -> Subseq (filter f l) (filter g l).
Proof.
  induction l as [|x l IH]; intros H; simpl; [constructor|].
  assert (IH' : Subseq (filter f l) (filter g l))
    by (apply IH; intros y Hy; apply H; right; exact Hy).
  destruct (f x) eqn:E.
  - rewrite (H x (or_introl eq_refl) E). apply subseq_keep. exact IH'.
  - destruct (g x); [apply subseq_drop|]; exact IH'.
Qed.

Lemma filterM_keeps f l r :
  filterM f l = Normal r -> Subseq r l /\ (forall x, In x r -> f x = Normal true).
Proof.
  revert r. induction l as [|x l IH]; intros r; simpl.
  - intros H. inversion H. split; [constructor | intros x []].
  - destruct (f x) as [b|e] eqn:E; [|discriminate]. cbn [bind].
    destruct (filterM f l) as [r'|e]; [|discriminate]. cbn [bind].
    destruct (IH r' eq_refl) as [Hs Hf]. intros H. inversion H; subst.
    destruct b.
    + split; [apply subseq_keep; exact Hs | intros y [<- | Hy]; [exact E | exact (Hf y Hy)]].
    + split; [apply subseq_drop; exact Hs | exact Hf].
Qed.

Lemma callFilter_keeps f items out :
  callFilter (JArr items) f = Normal out ->
  exists r, out = JArr r /\ Subseq r items /\ (forall x, In x r -> f x = Normal true).
Proof.
  cbn [callFilter]. destruct (filterM f items) as [r|e] eqn:E; [|discriminate].
  intros H. inversion H. exists r. split; [reflexivity | exact (filterM_keeps _ _ _ E)].
Qed.

Lemma Subseq_In {A} (r l : list A) x : Subseq r l -> In x r -> In x l.
Proof.
  intros Hs. induction Hs as [| y r l Hs IH | y r l Hs IH]; intros Hin.
  - exact Hin.
  - destruct Hin as [<- | Hin]; [left; reflexivity | right; exact (IH Hin)].
  - right. exact (IH Hin).
Qed.

Lemma categoryMatch_true sel x :
  Compositions.categoryMatch sel x = Normal true -> field "category" x = JStr sel.
Proof.
  unfold Compositions.categoryMatch. destruct x; try discriminate; cbn [getProp bind field].
  intros H. injection H as E.
  destruct (lookup "category" props) as [| | | | t | |]; try discriminate E.
  cbn [strictEqStr] in E. apply String.eqb_eq in E. rewrite E. reflexivity.
Qed.

(** X15.  Whatever the items are, a result of the filter of either view is
    the collection with some items left out, the others in their order; and
    under a selected category every item kept has exactly that category. *)
Theorem filters_keep_order_and_category :
  forall items query selected,
    (forall out,
        Compositions.filteredCompositions (Compositions.mkView (JArr items) query selected)
        = Normal out ->
        exists r, out = JArr r /\ Subseq r items
                  /\ ((selected =? "All") = false ->
                      forall c, In c r -> field "category" c = JStr selected))
    /\ (forall busy err out,
        Modules.filteredModules (Modules.mkView (JArr items) busy err query selected)
        = Normal out ->
        exists r, out = JArr r /\ Subseq r items
                  /\ ((selected =? "all") = false ->
                      forall c, In c r -> field "category" c = JStr selected)).
Proof.
  intros items query selected. split.
  - intros out. unfold Compositions.filteredCompositions.
    cbn [Compositions.compositions Compositions.searchQuery Compositions.selectedCategory].
    destruct (selected =? "All") eqn:Hs; cbn [negb bind].
    + destruct (truthyStr query).
      * intros H. apply callFilter_keeps in H as [r [-> [Hr _]]].
        exists r. repeat split; [exact Hr | discriminate].
      * intros H. inversion H. exists items. repeat split; [apply Subseq_refl | discriminate].
    + destruct (callFilter (JArr items) (Compositions.categoryMatch selected)) as [mid|e] eqn:E;
        [|discriminate].
      apply callFilter_keeps in E as [r1 [-> [Hr1 Hc1]]]. cbn [bind].
      destruct (truthyStr query).
      * intros H. apply callFilter_keeps in H as [r [-> [Hr _]]].
        exists r. repeat split; [exact (Subseq_trans _ _ _ Hr Hr1)|].
        intros _ c Hc. apply categoryMatch_true, Hc1. exact (Subseq_In _ _ _ Hr Hc).
      * intros H. inversion H; subst. exists r1. repeat split; [exact Hr1|].
        intros _ c Hc. apply categoryMatch_true, Hc1, Hc.
  - intros busy err out. unfold Modules.filteredModules.
    cbn [Modules.modules Modules.searchQuery Modules.selectedCategory].
    destruct (truthyStr query).
    + destruct (callFilter (JArr items) (Modules.searchMatch (toLowerCase query))) as [mid|e] eqn:E;
        [|discriminate].
      apply callFilter_keeps in E as [r1 [-> [Hr1 _]]]. cbn [bind].
      destruct (selected =? "all"); cbn [negb].
      * intros H. inversion H; subst. exists r1. repeat split; [exact Hr1 | discriminate].
      * intros H. apply callFilter_keeps in H as [r [-> [Hr Hc]]].
        exists r. repeat split; [exact (Subseq_trans _ _ _ Hr Hr1)|].
        intros _ c Hin. apply categoryMatch_true. exact (Hc c Hin).
    + cbn [bind]. destruct (selected =? "all"); cbn [negb].
      * intros H. inversion H. exists items. repeat split; [apply Subseq_refl | discriminate].
      * intros H. apply callFilter_keeps in H as [r [-> [Hr Hc]]].
        exists r. repeat split; [exact Hr|].
        intros _ c Hin. apply categoryMatch_true. exact (Hc c Hin).
Qed.

Lemma filters_keep_order_and_category_witness :
  exists r, JArr [moduleRLE] = JArr r /\ Subseq r mixedCatalogue
            /\ (("Encoder" =? "all") = false ->
                forall c, In c r -> field "category" c = JStr "Encoder").
Proof.
  exact (proj2 (filters_keep_order_and_category mixedCatalogue EmptyString "Encoder")
           false EmptyString (JArr [moduleRLE]) eq_refl).
Defined.

Lemma filter_all {A} (l : list A) : filter (fun _ => true) l = l.
Proof. induction l as [|x l IH]; simpl; [reflexivity | rewrite IH; reflexivity]. Qed.

Lemma present_category selected c :
  present c = true ->
  Compositions.categoryMatch selected c = Normal (strictEqStr (field "category" c) selected).
Proof.
  unfold present. intros H. apply negb_true_iff in H.
  exact (proj1 (categoryMatch_normal selected c H)).
Qed.

(** The filter of the compositions view, when every item is present and the
    items the category filter lets through are well shaped. *)
Lemma compositions_filter_shielded items query selected :
  (forall c, In c items -> present c = true) ->
  (forall c, In c items -> categoryPass "All" selected c = true -> wfComposition c = true) ->
  Compositions.filteredCompositions (Compositions.mkView (JArr items) query selected)
  = Normal (JArr (filter (fun c => categoryPass "All" selected c
                                   && searchPass query (compositionFields c)) items)).
Proof.
  intros Hp Hwf. unfold Compositions.filteredCompositions, categoryPass, searchPass in *.
  cbn [Compositions.compositions Compositions.searchQuery Compositions.selectedCategory].
  destruct (selected =? "All") eqn:Hs; cbn [negb bind orb andb] in *.
  - destruct (truthyStr query); cbn [negb orb].
    + cbn [callFilter].
      rewrite (filterM_normal _ (fun c => matchesb query (compositionFields c)));
        [reflexivity|].
      intros x Hx. apply compositions_searchMatch_normal, Hwf; [exact Hx | reflexivity].
    + rewrite filter_all. reflexivity.
  - cbn [callFilter].
    rewrite (filterM_normal _ (fun c => strictEqStr (field "category" c) selected))
      by (intros x Hx; apply present_category, Hp, Hx).
    cbn [bind]. destruct (truthyStr query); cbn [negb orb].
    + cbn [callFilter].
      rewrite (filterM_normal _ (fun c => matchesb query (compositionFields c))).
      * cbn [bind]. rewrite filter_filter. reflexivity.
      * intros x Hx. apply filter_In in Hx as [Hx Hc].
        apply compositions_searchMatch_normal, Hwf; assumption.
    + f_equal. f_equal. apply filter_ext. intros a. rewrite andb_true_r. reflexivity.
Qed.

(** The filter of the modules view on well-shaped modules. *)
Lemma modules_filter_normal items busy err query selected :
  (forall m, In m items -> wfModule m = true) ->
  Modules.filteredModules (Modules.mkView (JArr items) busy err query selected)
  = Normal (JArr (filter (fun m => searchPass query (moduleFields m)
                                   && categoryPass "all" selected m) items)).
Proof.
  intros Hwf. unfold Modules.filteredModules, categoryPass, searchPass.
  cbn [Modules.modules Modules.searchQuery Modules.selectedCategory].
  assert (Hcat : forall l, (forall x, In x l -> In x items) ->
            filterM (Modules.categoryMatch selected) l
            = Normal (filter (fun m => strictEqStr (field "category" m) selected) l)).
  { intros l Hl. apply filterM_normal. intros x Hx.
    apply categoryMatch_normal, wfModule_present, Hwf, Hl, Hx. }
  destruct (truthyStr query); cbn [negb orb].
  - cbn [callFilter].
    rewrite (filterM_normal _ (fun m => matchesb query (moduleFields m)))
      by (intros x Hx; apply modules_searchMatch_normal, Hwf, Hx).
    cbn [bind]. destruct (selected =? "all"); cbn [negb orb callFilter].
    + f_equal. f_equal. apply filter_ext. intros a. rewrite andb_true_r. reflexivity.
    + rewrite Hcat by (intros x Hx; apply filter_In in Hx as [Hx _]; exact Hx).
      cbn [bind]. rewrite filter_filter. reflexivity.
  - cbn [bind]. destruct (selected =? "all"); cbn [negb orb callFilter].
    + rewrite filter_all. reflexivity.
    + rewrite Hcat by (intros x Hx; exact Hx). reflexivity.
Qed.

Lemma truthyStr_lower q : truthyStr (toLowerCase q) = truthyStr q.
Proof. destruct q; reflexivity. Qed.

(** X16.  The search ignores the case of the query: two queries with the
    same lower-cased text give the same result in both views, whatever the
    collection holds. *)
Theorem search_ignores_the_case_of_the_query :
  forall coll q1 q2 selected busy err,
    toLowerCase q1 = toLowerCase q2 ->
    Compositions.filteredCompositions (Compositions.mkView coll q1 selected)
    = Compositions.filteredCompositions (Compositions.mkView coll q2 selected)
    /\ Modules.modulesByCategory (Modules.mkView coll busy err q1 selected)
       = Modules.modulesByCategory (Modules.mkView coll busy err q2 selected).
Proof.
  intros coll q1 q2 selected busy err H.
  assert (Ht : truthyStr q1 = truthyStr q2)
    by (rewrite <- (truthyStr_lower q1), <- (truthyStr_lower q2), H; reflexivity).
  unfold Modules.modulesByCategory, Modules.filteredModules, Compositions.filteredCompositions.
  cbn [Compositions.compositions Compositions.searchQuery Compositions.selectedCategory
       Modules.modules Modules.searchQuery Modules.selectedCategory].
  rewrite Ht, H. split; reflexivity.
Qed.

Lemma search_ignores_the_case_of_the_query_witness :
  Compositions.filteredCompositions
    (Compositions.mkView (JArr [taggedComposition; fullComposition]) "CUDA" "All")
  = Compositions.filteredCompositions
      (Compositions.mkView (JArr [taggedComposition; fullComposition]) "cuda" "All")
  /\ Modules.modulesByCategory
       (Modules.mkView (JArr [taggedComposition; fullComposition]) false EmptyString "CUDA" "All")
     = Modules.modulesByCategory
         (Modules.mkView (JArr [taggedComposition; fullComposition]) false EmptyString "cuda" "All").
Proof.
  exact (search_ignores_the_case_of_the_query (JArr [taggedComposition; fullComposition])
           "CUDA" "cuda" "All" false EmptyString eq_refl).
Defined.

Lemma toLowerCase_app a b : toLowerCase (a ++ b) = toLowerCase a ++ toLowerCase b.
Proof. induction a as [|c a IH]; simpl; [reflexivity | rewrite IH; reflexivity]. Qed.

Lemma append_assoc_string a b c : (a ++ b) ++ c = a ++ (b ++ c).
Proof. induction a as [|x a IH]; simpl; [reflexivity | rewrite IH; reflexivity]. Qed.

Lemma searchPass_narrows q q' fields :
  searchPass (q ++ q') fields = true ->
  searchPass q fields = true /\ searchPass q' fields = true.
Proof.
  unfold searchPass. intros H.
  assert (Hm : truthyStr (q ++ q') = true -> Matches (q ++ q') fields).
  { intros Ht. rewrite Ht in H. apply matchesb_spec. exact H. }
  split.
  - destruct (truthyStr q) eqn:Hq; [|reflexivity]. cbn [negb orb].
    apply matchesb_spec. destruct Hm as [f [Hin [pre [suf E]]]].
    { destruct q; [discriminate Hq | reflexivity]. }
    exists f. split; [exact Hin|]. exists pre, (toLowerCase q' ++ suf).
    rewrite E, toLowerCase_app, append_assoc_string. reflexivity.
  - destruct (truthyStr q') eqn:Hq; [|reflexivity]. cbn [negb orb].
    apply matchesb_spec. destruct Hm as [f [Hin [pre [suf E]]]].
    { destruct q; [exact Hq | reflexivity]. }
    exists f. split; [exact Hin|]. exists (pre ++ toLowerCase q), suf.
    rewrite E, toLowerCase_app, !append_assoc_string. reflexivity.
Qed.

(** X17.  Typing more narrows the result: on well-shaped items, what the
    filter of either view keeps for an ASCII query is kept, in the same order,
    for every query it starts with and every query it ends with. *)
Theorem longer_query_narrows_the_result :
  forall items q q' selected,
    isAscii q = true ->
    isAscii q' = true ->
    (forallb wfComposition items = true ->
     exists r r1 r2,
       Compositions.filteredCompositions (Compositions.mkView (JArr items) (q ++ q') selected)
       = Normal (JArr r)
       /\ Compositions.filteredCompositions (Compositions.mkView (JArr items) q selected)
          = Normal (JArr r1)
       /\ Compositions.filteredCompositions (Compositions.mkView (JArr items) q' selected)
          = Normal (JArr r2)
       /\ Subseq r r1 /\ Subseq r r2)
    /\ (forallb wfModule items = true ->
        forall busy err,
        exists r r1 r2,
          Modules.filteredModules (Modules.mkView (JArr items) busy err (q ++ q') selected)
          = Normal (JArr r)
          /\ Modules.filteredModules (Modules.mkView (JArr items) busy err q selected)
             = Normal (JArr r1)
          /\ Modules.filteredModules (Modules.mkView (JArr items) busy err q' selected)
             = Normal (JArr r2)
          /\ Subseq r r1 /\ Subseq r r2).
Proof.
  intros items q q' selected _ _. split.
  - intros Hwf. rewrite forallb_forall in Hwf.
    assert (Hp : forall c, In c items -> present c = true).
    { intros c Hc. unfold present. rewrite (wfModule_present c); [reflexivity|].
      apply wfComposition_wfModule, Hwf, Hc. }
    assert (Hw : forall c, In c items -> categoryPass "All" selected c = true ->
                           wfComposition c = true) by (intros c Hc _; exact (Hwf c Hc)).
    eexists. eexists. eexists.
    rewrite !(compositions_filter_shielded items _ selected Hp Hw).
    repeat split; apply Subseq_filter; intros x _ H;
      apply andb_true_iff in H as [Hc Hs]; rewrite Hc;
      destruct (searchPass_narrows _ _ _ Hs) as [H1 H2]; [exact H1 | exact H2].
  - intros Hwf busy err. rewrite forallb_forall in Hwf.
    eexists. eexists. eexists.
    rewrite !(modules_filter_normal items busy err _ selected Hwf).
    repeat split; apply Subseq_filter; intros x _ H;
      apply andb_true_iff in H as [Hs Hc]; rewrite Hc;
      destruct (searchPass_narrows _ _ _ Hs) as [H1 H2]; [rewrite H1 | rewrite H2]; reflexivity.
Qed.

Lemma longer_query_narrows_the_result_witness :
  exists r r1 r2,
    Compositions.filteredCompositions
      (Compositions.mkView (JArr [taggedComposition; fullComposition]) ("cu" ++ "da") "All")
    = Normal (JArr r)
    /\ Compositions.filteredCompositions
         (Compositions.mkView (JArr [taggedComposition; fullComposition]) "cu" "All")
       = Normal (JArr r1)
    /\ Compositions.filteredCompositions
         (Compositions.mkView (JArr [taggedComposition; fullComposition]) "da" "All")
       = Normal (JArr r2)
    /\ Subseq r r1 /\ Subseq r r2.
Proof.
  exact (proj1 (longer_query_narrows_the_result [taggedComposition; fullComposition]
                  "cu" "da" "All" eq_refl eq_refl) eq_refl).
Defined.

Lemma filterM_throws f pre c post e :
  (forall x, In x pre -> exists b, f x = Normal b) ->
  f c = Throw e ->
  filterM f (pre ++ c :: post) = Throw e.
Proof.
  intros Hpre Hc. induction pre as [|x pre IH]; cbn [app filterM].
  - rewrite Hc. reflexivity.
  - destruct (Hpre x (or_introl eq_refl)) as [b ->]. cbn [bind].
    rewrite IH by (intros y Hy; apply Hpre; right; exact Hy). reflexivity.
Qed.

(** The search callback of the modules view on an item without tags that
    the query does not find by name or description. *)
Lemma modules_searchMatch_tagless query c :
  tagless c = true ->
  existsb (hit query) (headFields c) = false ->
  Modules.searchMatch query c = Throw TypeError.
Proof.
  unfold tagless, headFields. destruct c; try discriminate. intros H Hm.
  apply andb_true_iff in H as [H Ht]. apply andb_true_iff in H as [Hn Hd].
  unfold Modules.searchMatch. cbn [getProp bind].
  change (lookup "name" props) with (field "name" (JObj props)).
  change (lookup "description" props) with (field "description" (JObj props)).
  change (lookup "tags" props) with (field "tags" (JObj props)).
  rewrite (lowerIncludes_str _ _ Hn), (lowerIncludes_str _ _ Hd), orElse_normal.
  rewrite <- existsb_app, Hm.
  destruct (field "tags" (JObj props)); try discriminate Ht; reflexivity.
Qed.

(** X18.  In the compositions view the category filter runs before the
    search, so under a selected category only the items of that category need
    be well shaped: an item of another category that has no tags is left out
    without being searched.  The modules view searches first: an item without
    tags that the query does not find by name or description makes it throw,
    whatever its category and the category selected, once the items before it
    are well shaped. *)
Theorem category_filter_shields_the_search :
  forall items query selected,
    (selected =? "All") = false ->
    isAscii query = true ->
    (forall c, In c items -> present c = true) ->
    (forall c, In c items -> field "category" c = JStr selected ->
       wfComposition c = true /\ asciiFields (compositionFields c) = true) ->
    Compositions.filteredCompositions (Compositions.mkView (JArr items) query selected)
    = Normal (JArr (filter (fun c => strictEqStr (field "category" c) selected
                                     && searchPass query (compositionFields c)) items))
    /\ (forall pre c post busy err chosen,
        items = (pre ++ c :: post)%list ->
        query <> EmptyString ->
        forallb wfModule pre = true ->
        tagless c = true ->
        asciiFields (headFields c) = true ->
        matchesb query (headFields c) = false ->
        Modules.filteredModules (Modules.mkView (JArr items) busy err query chosen)
        = Throw TypeError
        /\ Modules.modulesByCategory (Modules.mkView (JArr items) busy err query chosen)
           = Throw TypeError).
Proof.
  intros items query selected Hs _ Hp Hwf. split.
  - rewrite (compositions_filter_shielded items query selected Hp).
    + unfold categoryPass. rewrite Hs. reflexivity.
    + intros c Hc H. apply (Hwf c Hc). unfold categoryPass in H. rewrite Hs in H.
      cbn [orb] in H. destruct (field "category" c) as [| | | | t | |]; try discriminate H.
      cbn [strictEqStr] in H. apply String.eqb_eq in H. rewrite H. reflexivity.
  - intros pre c post busy err chosen -> Hq Hpre Ht _ Hm.
    assert (Hf : Modules.filteredModules
                   (Modules.mkView (JArr (pre ++ c :: post)) busy err query chosen)
                 = Throw TypeError).
    { unfold Modules.filteredModules.
      cbn [Modules.modules Modules.searchQuery Modules.selectedCategory].
      assert (Hty : truthyStr query = true).
      { unfold truthyStr. destruct (String.eqb_spec query EmptyString);
          [contradiction | reflexivity]. }
      rewrite Hty. cbn [callFilter].
      rewrite (filterM_throws _ pre c post TypeError); [reflexivity | |].
      - intros x Hx. rewrite forallb_forall in Hpre. eexists.
        exact (modules_searchMatch_normal _ x (Hpre x Hx)).
      - apply modules_searchMatch_tagless; [exact Ht | exact Hm]. }
    split; [exact Hf|]. unfold Modules.modulesByCategory. rewrite Hf. reflexivity.
Qed.

Lemma category_filter_shields_the_search_witness :
  Compositions.filteredCompositions
    (Compositions.mkView (JArr mixedCatalogue) "zz" "Encoder")
  = Normal (JArr [])
  /\ Modules.filteredModules
       (Modules.mkView (JArr mixedCatalogue) false EmptyString "zz" "Encoder")
     = Throw TypeError.
Proof.
  assert (Hp : forall c, In c mixedCatalogue -> present c = true)
    by (intros c [<- | [<- | []]]; reflexivity).
  assert (Hw : forall c, In c mixedCatalogue -> field "category" c = JStr "Encoder" ->
               wfComposition c = true /\ asciiFields (compositionFields c) = true)
    by (intros c [<- | [<- | []]] H; [discriminate H | split; reflexivity]).
  exact (conj
    (proj1 (category_filter_shields_the_search mixedCatalogue "zz" "Encoder"
              eq_refl eq_refl Hp Hw))
    (proj1 (proj2 (category_filter_shields_the_search mixedCatalogue "zz" "Encoder"
                     eq_refl eq_refl Hp Hw)
              [] taglessFilter [moduleRLE] false EmptyString "Encoder"
              eq_refl ltac:(discriminate) eq_refl eq_refl eq_refl eq_refl))).
Defined.

(** ** What the grouping returns *)

Lemma groupsOf_keys l : map fst (groupsOf l) = newSet String.eqb (map keyOf l).
Proof. unfold groupsOf. rewrite map_map. cbn [fst]. apply map_id. Qed.

Lemma groupStep_throws l0 m :
  forallb groupable l0 = true -> groupable m = false ->
  Modules.groupStep (groupsOf l0) m = Throw TypeError.
Proof.
  intros H0 Hm. unfold Modules.groupStep.
  destruct (absent m) eqn:Ha.
  - destruct m; try discriminate Ha; reflexivity.
  - assert (Hc : getProp m "category" = Normal (field "category" m))
      by (destruct m; try discriminate Ha; reflexivity).
    rewrite Hc. cbn [bind].
    destruct (converts (field "category" m)) eqn:Hv.
    + unfold groupable in Hm. rewrite Ha, Hv in Hm. cbn [negb andb] in Hm.
      apply negb_false_iff in Hm.
      rewrite (converts_keyOf _ Hv). cbn [bind]. unfold groupsOf. rewrite ownProp_map.
      destruct (in_dec string_dec (keyOf m) (newSet String.eqb (map keyOf l0))) as [Hin | _].
      * exfalso. apply newSet_In, in_map_iff in Hin as [m0 [E Hin]].
        rewrite forallb_forall in H0.
        destruct (groupable_parts _ (H0 m0 Hin)) as [_ [_ Hi]]. congruence.
      * rewrite Hm. reflexivity.
    + rewrite (converts_false _ Hv). reflexivity.
Qed.

Lemma forEachGroup_throws l0 l :
  forallb groupable l0 = true -> forallb groupable l = false ->
  Modules.forEachGroup l (groupsOf l0) = Throw TypeError.
Proof.
  revert l0. induction l as [|m l IH]; intros l0 H0 H; [discriminate H|].
  cbn [Modules.forEachGroup]. cbn [forallb] in H.
  destruct (groupable m) eqn:Hm.
  - rewrite (groupStep_groupsOf _ _ Hm). cbn [bind]. apply IH; [|exact H].
    rewrite forallb_app, H0. cbn [forallb]. rewrite Hm. reflexivity.
  - rewrite (groupStep_throws _ _ H0 Hm). reflexivity.
Qed.

(** X19.  The grouping returns exactly when every module is present, every
    category can be converted to a property key, and no key is named like a
    member of [Object.prototype]; for any other sequence it throws a
    [TypeError], and for a collection that is not an array too. *)
Theorem grouping_returns_or_throws :
  forall filtered,
    (forall l, filtered = JArr l ->
       Modules.groupBy filtered
       = if forallb groupable l then Normal (groupsOf l) else Throw TypeError)
    /\ (isArray filtered = false -> Modules.groupBy filtered = Throw TypeError).
Proof.
  intros filtered. split.
  - intros l ->. cbn [Modules.groupBy]. destruct (forallb groupable l) eqn:H.
    + exact (forEachGroup_groupsOf [] l H).
    + exact (forEachGroup_throws [] l eq_refl H).
  - intros H. destruct filtered; try reflexivity. discriminate H.
Qed.

(** X20.  In a grouping that is returned the keys are distinct, no bucket
    is empty, every module sits in the bucket of its own category, and the
    bucket counts add up to the number of modules grouped; so the grouping has
    no key exactly when nothing is left to show. *)
Theorem grouping_buckets_are_a_partition :
  forall l g,
    Modules.groupBy (JArr l) = Normal g ->
    NoDup (map fst g)
    /\ (forall k b, In (k, b) g -> b <> [] /\ forall m, In m b -> In m l /\ keyOf m = k)
    /\ list_sum (map (fun e => List.length (snd e)) g) = List.length l
    /\ (g = [] <-> l = []).
Proof.
  intros l g H. change (Modules.forEachGroup l (groupsOf []) = Normal g) in H.
  destruct (forallb groupable l) eqn:Hg.
  - rewrite (forEachGroup_groupsOf [] l Hg) in H. cbn [app] in H. injection H as <-.
    split; [rewrite groupsOf_keys; apply newSet_NoDup | split; [|split]].
    + intros k b Hin. unfold groupsOf in Hin. apply in_map_iff in Hin as [k' [E Hk]].
      injection E as -> <-. apply newSet_In, in_map_iff in Hk as [m [Em Hm]]. split.
      * intros Hb. assert (Hin : In m (bucketOf k l)).
        { unfold bucketOf. apply filter_In. split; [exact Hm|]. rewrite Em. apply String.eqb_refl. }
        rewrite Hb in Hin. exact Hin.
      * intros m' Hm'. unfold bucketOf in Hm'. apply filter_In in Hm' as [Hin E].
        split; [exact Hin | apply String.eqb_eq; exact E].
    + rewrite <- (Permutation_length (groupsOf_flat l)), length_flat_map. reflexivity.
    + split.
      * intros Hnil. destruct l as [|m l]; [reflexivity|]. exfalso.
        assert (Hin : In (keyOf m) (map fst (groupsOf (m :: l)))).
        { rewrite groupsOf_keys. apply newSet_In. left. reflexivity. }
        rewrite Hnil in Hin. exact Hin.
      * intros ->. reflexivity.
  - rewrite (forEachGroup_throws [] l eq_refl Hg) in H. discriminate H.
Qed.

Lemma grouping_buckets_are_a_partition_witness :
  NoDup (map fst (groupsOf alternating))
  /\ (forall k b, In (k, b) (groupsOf alternating) ->
        b <> [] /\ forall m, In m b -> In m alternating /\ keyOf m = k)
  /\ list_sum (map (fun e => List.length (snd e)) (groupsOf alternating))
     = List.length alternating
  /\ (groupsOf alternating = [] <-> alternating = []).
Proof.
  exact (grouping_buckets_are_a_partition alternating (groupsOf alternating) eq_refl).
Defined.

(** ** Facets of any collection *)

Lemma mapM_category_present items :
  forallb present items = true ->
  mapM (fun c => getProp c "category") items = Normal (map (field "category") items).
Proof.
  induction items as [|c items IH]; simpl; [reflexivity|]. intros H.
  apply andb_true_iff in H as [Hc H]. rewrite (IH H).
  destruct c; try discriminate Hc; reflexivity.
Qed.

Lemma mapM_category_absent items :
  forallb present items = false ->
  mapM (fun c => getProp c "category") items = Throw TypeError.
Proof.
  induction items as [|c items IH]; simpl; [discriminate|]. intros H.
  destruct (present c) eqn:Hc.
  - cbn [andb] in H. rewrite (IH H). destruct c; try discriminate Hc; reflexivity.
  - destruct c; try discriminate Hc; reflexivity.
Qed.

Lemma setAdd_length {A} (same : A -> A -> bool) x s :
  List.length (setAdd same x s) <= S (List.length s).
Proof.
  induction s as [|y s IH]; simpl; [apply Nat.le_refl|].
  destruct (same y x); simpl; [apply Nat.le_succ_diag_r | apply le_n_S; exact IH].
Qed.

Lemma newSet_length {A} (same : A -> A -> bool) l :
  List.length (newSet same l) <= List.length l.
Proof.
  induction l as [|x l IH] using rev_ind; [apply Nat.le_refl|].
  rewrite newSet_snoc, length_app. simpl. rewrite Nat.add_1_r.
  apply (Nat.le_trans _ _ _ (setAdd_length same x _)). apply le_n_S. exact IH.
Qed.

Lemma setAdd_keeps {A} (same : A -> A -> bool) x y s :
  In y s -> In y (setAdd same x s).
Proof.
  induction s as [|z s IH]; simpl; [contradiction|].
  destruct (same z x); [trivial|]. intros [-> | H]; [left; reflexivity | right; exact (IH H)].
Qed.

Lemma setAdd_undefined s : In JUndefined (setAdd sameValueZero JUndefined s).
Proof.
  induction s as [|z s IH]; simpl; [left; reflexivity|].
  destruct (sameValueZero z JUndefined) eqn:E.
  - destruct z; try discriminate E. left. reflexivity.
  - right. exact IH.
Qed.

Lemma newSet_undefined l : In JUndefined l -> In JUndefined (newSet sameValueZero l).
Proof.
  induction l as [|x l IH] using rev_ind; [contradiction|].
  rewrite newSet_snoc. intros H. apply in_app_or in H as [H | [-> | []]].
  - apply setAdd_keeps. exact (IH H).
  - apply setAdd_undefined.
Qed.

(** [undefined] goes to the end without being compared as a string. *)
Lemma sortInsert_undefined s : sortInsert JUndefined s = Normal (s ++ [JUndefined])%list.
Proof.
  induction s as [|y s IH]; [reflexivity|].
  cbn [sortInsert sortBefore bind]. rewrite IH. reflexivity.
Qed.

Lemma sortInsert_last x l r :
  sortInsert x l = Normal r ->
  l <> [] -> last l JNull = JUndefined -> last r JNull = JUndefined.
Proof.
  revert r. induction l as [|y l IH]; intros r H Hne Hl; [contradiction|].
  cbn [sortInsert] in H.
  destruct (sortBefore x y) as [[|]|e] eqn:E; cbn [bind] in H; try discriminate H.
  - injection H as <-. exact Hl.
  - destruct (sortInsert x l) as [r'|e] eqn:Er; cbn [bind] in H; [|discriminate H].
    injection H as <-. destruct l as [|z l].
    + simpl in Hl. subst y. cbn [sortInsert] in Er. injection Er as <-.
      destruct x; try discriminate E; reflexivity.
    + destruct (sortInsert_head _ _ _ Er) as [h [t [-> _]]].
      exact (IH (h :: t) eq_refl ltac:(discriminate) Hl).
Qed.

Lemma sortDefault_undefined_last l r :
  sortDefault l = Normal r -> In JUndefined l -> last r JNull = JUndefined.
Proof.
  revert r. induction l as [|x l IH] using rev_ind; intros r H Hin; [contradiction|].
  rewrite sortDefault_snoc in H.
  destruct (sortDefault l) as [s|e] eqn:Es; cbn [bind] in H; [|discriminate H].
  apply in_app_or in Hin as [Hin | [-> | []]].
  - apply (sortInsert_last x s r H); [|exact (IH s eq_refl Hin)].
    intros E. pose proof (Permutation_in _ (Permutation_sym (sortDefault_perm _ _ Es)) Hin) as Hs.
    rewrite E in Hs. exact Hs.
  - rewrite sortInsert_undefined in H. injection H as <-. apply last_last.
Qed.

(** The sort throws nothing but a [TypeError]. *)
Lemma sortBefore_throws x y e : sortBefore x y = Throw e -> e = TypeError.
Proof.
  unfold sortBefore. intros H.
  assert (Hb : (xs <- toStringJs x ;; ys <- toStringJs y ;; Normal (strLtb xs ys)) = Throw e
               -> e = TypeError).
  { destruct (toStringJs x) as [xs|ex] eqn:Ex; cbn [bind].
    - destruct (toStringJs y) as [ys|ey] eqn:Ey; cbn [bind]; [discriminate|].
      intros E. injection E as <-. exact (toStringJs_throws _ _ Ey).
    - intros E. injection E as <-. exact (toStringJs_throws _ _ Ex). }
  destruct x; destruct y; try discriminate H; exact (Hb H).
Qed.

Lemma sortInsert_throws x l e : sortInsert x l = Throw e -> e = TypeError.
Proof.
  induction l as [|y l IH]; cbn [sortInsert]; [discriminate|].
  destruct (sortBefore x y) as [[|]|e'] eqn:E; cbn [bind]; try discriminate.
  - destruct (sortInsert x l) as [r|e']; cbn [bind]; [discriminate|].
    intros H. injection H as <-. exact (IH eq_refl).
  - intros H. injection H as <-. exact (sortBefore_throws _ _ _ E).
Qed.

Lemma sortDefault_throws l e : sortDefault l = Throw e -> e = TypeError.
Proof.
  induction l as [|x l IH] using rev_ind; [discriminate|].
  rewrite sortDefault_snoc. destruct (sortDefault l) as [s|e']; cbn [bind].
  - apply sortInsert_throws.
  - intros H. injection H as <-. exact (IH eq_refl).
Qed.

(** Two values other than [undefined] are compared by their strings. *)
Lemma sortBefore_converts x y b :
  isUndefined x = false -> isUndefined y = false ->
  sortBefore x y = Normal b -> converts x = true /\ converts y = true.
Proof.
  intros Hx Hy H.
  assert (Hb : (xs <- toStringJs x ;; ys <- toStringJs y ;; Normal (strLtb xs ys)) = Normal b).
  { destruct x; try discriminate Hx; destruct y; try discriminate Hy; exact H. }
  unfold converts. destruct (toStringJs x); [|discriminate Hb].
  destruct (toStringJs y); [|discriminate Hb]. split; reflexivity.
Qed.

Lemma sortInsert_headOk x s r :
  sortInsert x s = Normal r -> headOk s = true -> headOk r = true.
Proof.
  destruct s as [|y s]; cbn [sortInsert]; intros H Hs.
  - injection H as <-. cbn [headOk forallb]. apply orb_true_r.
  - destruct (sortBefore x y) as [[|]|e] eqn:E; cbn [bind] in H; try discriminate H.
    + injection H as <-. cbn [headOk].
      destruct x; try reflexivity. discriminate E.
    + destruct (sortInsert x s) as [r'|e] eqn:Er; cbn [bind] in H; [|discriminate H].
      injection H as <-. cbn [headOk] in Hs |- *.
      destruct (isUndefined y) eqn:Hy; [|reflexivity]. cbn [negb orb] in Hs |- *.
      assert (Hx : isUndefined x = true).
      { destruct y; try discriminate Hy. destruct x; try discriminate E; reflexivity. }
      apply forallb_forall. intros v Hv.
      apply (Permutation_in _ (sortInsert_perm _ _ _ Er)) in Hv as [<- | Hv]; [exact Hx|].
      rewrite forallb_forall in Hs. exact (Hs v Hv).
Qed.

Lemma sortDefault_headOk l r : sortDefault l = Normal r -> headOk r = true.
Proof.
  revert r. induction l as [|x l IH] using rev_ind; intros r H.
  - injection H as <-. reflexivity.
  - rewrite sortDefault_snoc in H.
    destruct (sortDefault l) as [s|e]; cbn [bind] in H; [|discriminate H].
    exact (sortInsert_headOk _ _ _ H (IH s eq_refl)).
Qed.

Lemma defined_snoc l x :
  defined (l ++ [x]) = (defined l ++ (if isUndefined x then [] else [x]))%list.
Proof. unfold defined. rewrite filter_app. cbn [filter]. destruct (isUndefined x); reflexivity. Qed.

Lemma defined_In l v : In v (defined l) <-> In v l /\ isUndefined v = false.
Proof. unfold defined. rewrite filter_In, negb_true_iff. reflexivity. Qed.

(** A sort that returns has met at most one value other than [undefined],
    or has converted every such value. *)
Lemma sortDefault_compares l r :
  sortDefault l = Normal r ->
  List.length (defined l) <= 1 \/ forallb converts (defined l) = true.
Proof.
  revert r. induction l as [|x l IH] using rev_ind; intros r H.
  - left. apply Nat.le_0_l.
  - rewrite sortDefault_snoc in H.
    destruct (sortDefault l) as [s|e] eqn:Es; cbn [bind] in H; [|discriminate H].
    specialize (IH s eq_refl). rewrite defined_snoc.
    destruct (isUndefined x) eqn:Hx; [rewrite app_nil_r; exact IH|].
    destruct (defined l) as [|d ds] eqn:Ed; [left; apply Nat.le_refl|].
    right.
    assert (Hd : In d l /\ isUndefined d = false)
      by (apply defined_In; rewrite Ed; left; reflexivity).
    pose proof (sortDefault_perm _ _ Es) as Hperm.
    pose proof (sortDefault_headOk _ _ Es) as Hok.
    destruct s as [|y s'].
    { exfalso. exact (Permutation_in _ (Permutation_sym Hperm) (proj1 Hd)). }
    assert (Hy : isUndefined y = false).
    { destruct (isUndefined y) eqn:Hy; [|reflexivity]. exfalso.
      cbn [headOk] in Hok. rewrite Hy in Hok. cbn [negb orb] in Hok.
      rewrite forallb_forall in Hok.
      destruct (Permutation_in _ (Permutation_sym Hperm) (proj1 Hd)) as [<- | Hin].
      - rewrite (proj2 Hd) in Hy. discriminate Hy.
      - rewrite (Hok d Hin) in Hd. destruct Hd as [_ Hd]. discriminate Hd. }
    cbn [sortInsert] in H.
    destruct (sortBefore x y) as [b|e] eqn:E; cbn [bind] in H; [|discriminate H].
    destruct (sortBefore_converts _ _ _ Hx Hy E) as [Cx Cy].
    rewrite forallb_app. cbn [forallb]. rewrite Cx, andb_true_r.
    destruct IH as [Hlen | Hall]; [|exact Hall].
    destruct ds as [|d' ds]; [|cbn [List.length] in Hlen; lia].
    assert (Hyd : In y (defined l)).
    { apply defined_In. split; [|exact Hy].
      exact (Permutation_in _ Hperm (or_introl eq_refl)). }
    rewrite Ed in Hyd. destruct Hyd as [-> | []]. cbn [forallb]. rewrite Cy. reflexivity.
Qed.

(** With two values or more other than [undefined], one of which cannot be
    converted, the sort throws. *)
Lemma sortDefault_unsortable l :
  2 <= List.length (defined l) ->
  forallb converts (defined l) = false ->
  sortDefault l = Throw TypeError.
Proof.
  intros Hlen Hbad. destruct (sortDefault l) as [r|e] eqn:E.
  - destruct (sortDefault_compares _ _ E) as [H | H]; [lia | congruence].
  - rewrite (sortDefault_throws _ _ E). reflexivity.
Qed.

Lemma forallb_map_comp {A B} (f : B -> bool) (g : A -> B) l :
  forallb f (map g l) = forallb (fun x => f (g x)) l.
Proof. induction l as [|x l IH]; simpl; [reflexivity | rewrite IH; reflexivity]. Qed.

Lemma newSet_converts l :
  forallb converts l = true -> forallb converts (newSet sameValueZero l) = true.
Proof.
  induction l as [|x l IH] using rev_ind; [reflexivity|].
  rewrite forallb_app. intros H. apply andb_true_iff in H as [Hl Hx].
  cbn [forallb] in Hx. rewrite andb_true_r in Hx. rewrite newSet_snoc.
  specialize (IH Hl). induction (newSet sameValueZero l) as [|y s IHs]; cbn [setAdd forallb].
  - rewrite Hx. reflexivity.
  - cbn [forallb] in IH. apply andb_true_iff in IH as [Hy Hs].
    destruct (sameValueZero y x); cbn [forallb]; rewrite Hy; [exact Hs | exact (IHs Hs)].
Qed.

(** X21.  For an array without [null] items whose categories can all be
    converted to strings, the facet list of either view starts with the
    sentinel and goes on with the distinct category values of the collection,
    never more of them than there are items, a missing category coming last.
    When the distinct categories are two or more, [undefined] not counted,
    and one of them cannot be converted, computing the facets throws a
    [TypeError]; so it does for an array with a [null] item and for a
    collection that is not an array. *)
Theorem facets_of_any_collection :
  forall sentinel coll,
    (forall items,
        coll = JArr items -> forallb present items = true ->
        forallb (fun c => converts (field "category" c)) items = true ->
        exists rest,
          facets sentinel coll = Normal (JStr sentinel :: rest)
          /\ Permutation rest (newSet sameValueZero (map (field "category") items))
          /\ List.length rest <= List.length items
          /\ ((exists c, In c items /\ field "category" c = JUndefined) ->
              last rest JNull = JUndefined))
    /\ (forall items,
        coll = JArr items -> forallb present items = true ->
        2 <= List.length (defined (newSet sameValueZero (map (field "category") items))) ->
        forallb converts (defined (newSet sameValueZero (map (field "category") items)))
        = false ->
        facets sentinel coll = Throw TypeError)
    /\ (forall items,
        coll = JArr items -> forallb present items = false ->
        facets sentinel coll = Throw TypeError)
    /\ (isArray coll = false -> facets sentinel coll = Throw TypeError)
    /\ Compositions.categories coll = facets "All" coll
    /\ Modules.categories coll = facets "all" coll.
Proof.
  intros sentinel coll. split; [|split; [|split; [|split; [|split; reflexivity]]]].
  - intros items -> H Hv. unfold facets. cbn [callMap]. rewrite (mapM_category_present _ H).
    cbn [bind].
    destruct (sortDefault_returns (newSet sameValueZero (map (field "category") items)))
      as [rest Hr].
    { apply newSet_converts. rewrite forallb_map_comp. exact Hv. }
    rewrite Hr. cbn [bind]. exists rest.
    pose proof (sortDefault_perm _ _ Hr) as Hperm.
    split; [reflexivity | split; [exact Hperm | split]].
    + rewrite (Permutation_length Hperm).
      apply (Nat.le_trans _ _ _ (newSet_length _ _)). rewrite length_map. apply Nat.le_refl.
    + intros [c [Hc E]]. apply (sortDefault_undefined_last _ _ Hr), newSet_undefined.
      rewrite <- E. apply in_map. exact Hc.
  - intros items -> H Hlen Hbad. unfold facets. cbn [callMap].
    rewrite (mapM_category_present _ H). cbn [bind].
    rewrite (sortDefault_unsortable _ Hlen Hbad). reflexivity.
  - intros items -> H. unfold facets. cbn [callMap]. rewrite (mapM_category_absent _ H).
    reflexivity.
  - intros H. destruct coll; try reflexivity. discriminate H.
Qed.

Lemma facets_of_any_collection_witness :
  (exists rest,
      facets "all" (JArr [ moduleRLE; bareItem ]) = Normal (JStr "all" :: rest)
      /\ Permutation rest
           (newSet sameValueZero (map (field "category") [ moduleRLE; bareItem ]))
      /\ List.length rest <= List.length [ moduleRLE; bareItem ]
      /\ ((exists c, In c [ moduleRLE; bareItem ] /\ field "category" c = JUndefined) ->
          last rest JNull = JUndefined))
  /\ facets "all" (JArr [ moduleRLE; oddCategory ]) = Throw TypeError.
Proof.
  exact (conj
    (proj1 (facets_of_any_collection "all" (JArr [ moduleRLE; bareItem ]))
       [ moduleRLE; bareItem ] eq_refl eq_refl eq_refl)
    (proj1 (proj2 (facets_of_any_collection "all" (JArr [ moduleRLE; oddCategory ])))
       [ moduleRLE; oddCategory ] eq_refl eq_refl (le_n 2) eq_refl)).
Defined.

(** ** Badge colours *)

Lemma groupBy_keys filtered g k b :
  Modules.groupBy filtered = Normal g -> In (k, b) g -> Modules.inherited k = false.
Proof.
  intros H Hin. destruct filtered as [| | | | | l |]; try discriminate H.
  change (Modules.forEachGroup l (groupsOf []) = Normal g) in H.
  destruct (forallb groupable l) eqn:Hg.
  - rewrite (forEachGroup_groupsOf [] l Hg) in H. cbn [app] in H. injection H as <-.
    unfold groupsOf in Hin. apply in_map_iff in Hin as [k' [E Hk]]. injection E as -> _.
    apply newSet_In, in_map_iff in Hk as [m [Em Hm]].
    rewrite forallb_forall in Hg.
    destruct (groupable_parts _ (Hg m Hm)) as [_ [_ Hi]]. rewrite <- Em. exact Hi.
  - rewrite (forEachGroup_throws [] l eq_refl Hg) in H. discriminate H.
Qed.

(** X22.  Every bucket the modules view displays gets a badge whose class
    is one of the eight names of the palette, [secondary] for a category
    outside the table: the key of a bucket never names a member of
    [Object.prototype].  A key that does, which the compositions view does not
    exclude, gets that member in place of a class name. *)
Theorem bucket_badges_come_from_the_palette :
  forall v g k b,
    Modules.modulesByCategory v = Normal g ->
    In (k, b) g ->
    (exists name, ModulesBadges.getCategoryColor k = ClassName name
                  /\ In name ModulesBadges.palette)
    /\ (forall key, Modules.inherited key = true ->
          CompositionsBadges.getCategoryColor key = PrototypeMember key
          /\ CompositionsBadges.getCompressionTypeColor key = PrototypeMember key).
Proof.
  intros v g k b H Hin. split.
  - assert (Hk : Modules.inherited k = false).
    { unfold Modules.modulesByCategory in H.
      destruct (Modules.filteredModules v) as [filtered|e]; [|discriminate H].
      exact (groupBy_keys filtered g k b H Hin). }
    unfold ModulesBadges.getCategoryColor. cbn [lookupOr]. rewrite Hk.
    repeat match goal with
           | |- context [if ?s =? k then _ else _] =>
               destruct (s =? k); [eexists; split; [reflexivity | simpl; tauto]|]
           end.
    eexists. split; [reflexivity | simpl; tauto].
  - intros key Hkey.
    unfold CompositionsBadges.getCategoryColor, CompositionsBadges.getCompressionTypeColor.
    cbn [lookupOr]. rewrite Hkey.
    assert (Hno : forall s, Modules.inherited s = false -> (s =? key) = false).
    { intros s Hs. apply String.eqb_neq. intros ->. congruence. }
    rewrite !Hno by reflexivity. split; reflexivity.
Qed.

Lemma bucket_badges_come_from_the_palette_witness :
  (exists name, ModulesBadges.getCategoryColor "Encoder" = ClassName name
                /\ In name ModulesBadges.palette)
  /\ (forall key, Modules.inherited key = true ->
        CompositionsBadges.getCategoryColor key = PrototypeMember key
        /\ CompositionsBadges.getCompressionTypeColor key = PrototypeMember key).
Proof.
  exact (bucket_badges_come_from_the_palette loadedModules
           [("Encoder", [moduleRLE])] "Encoder" [moduleRLE] eq_refl (or_introl eq_refl)).
Defined.

(** ** The two dataset loaders together *)

(** X23.  When no candidate of either asset answers, [loadAll] keeps the
    community list the view held and sets its error message, puts the embedded
    list back as the benchmark list whatever list the view held, sets no
    benchmark error, and lowers the loading flag; every candidate of both
    assets has been requested. *)
Theorem load_all_with_nothing_answering :
  forall embedded BASE_URL clock net v,
    (forall u, In u (candidatesOf BASE_URL clock "datasets.json") ->
               Fails (Datasets.tryFetch net) u) ->
    (forall u, In u (candidatesOf BASE_URL clock "sdrbench-datasets.json") ->
               Fails (Datasets.tryFetch net) u) ->
    Datasets.loadAll embedded BASE_URL clock net v
    = (Datasets.mkView (Datasets.communityDatasets v) (Datasets.embeddedList embedded) false
         "Failed to load community datasets. Please try again later." EmptyString,
       (candidatesOf BASE_URL clock "datasets.json",
        candidatesOf BASE_URL clock "sdrbench-datasets.json")).
Proof.
  intros embedded BASE_URL clock net v Hc Hs.
  unfold Datasets.loadAll, Datasets.loadCommunityDatasets, Datasets.loadSdrbenchDatasets.
  cbn [Datasets.communityDatasets Datasets.sdrbenchDatasets Datasets.loading Datasets.error
       Datasets.sdrError].
  rewrite (overrideLoop_all_fail _ _ _ Hs).
  destruct (fetchLoop_all_fail _ _ (mkLoop (Datasets.communityDatasets v) None []) Hc)
    as [Hcoll [Hreq Hl]].
  destruct Hl as [e He].
  { destruct (candidatesOf_first BASE_URL clock "datasets.json") as [u [r E]].
    rewrite E. discriminate. }
  rewrite Hcoll, Hreq, He. reflexivity.
Qed.

Lemma load_all_with_nothing_answering_witness :
  Datasets.loadAll (Some (JArr [JStr "CESM-ATM"])) "/Z-Hub/" noon offline
    (Datasets.mkView (JArr [JObj [("name", JStr "NYX")]]) (JArr [JStr "override"]) false
       EmptyString EmptyString)
  = (Datasets.mkView (JArr [JObj [("name", JStr "NYX")]]) (JArr [JStr "CESM-ATM"]) false
       "Failed to load community datasets. Please try again later." EmptyString,
     (candidatesOf "/Z-Hub/" noon "datasets.json",
      candidatesOf "/Z-Hub/" noon "sdrbench-datasets.json")).
Proof.
  exact (load_all_with_nothing_answering (Some (JArr [JStr "CESM-ATM"])) "/Z-Hub/" noon offline
           (Datasets.mkView (JArr [JObj [("name", JStr "NYX")]]) (JArr [JStr "override"]) false
              EmptyString EmptyString)
           (fun u _ => fails_offline_datasets u) (fun u _ => fails_offline_datasets u)).
Defined.

(** ** The order of the buckets on the page *)

Lemma insertIndexed_sorted e l :
  Sorted (fun a b => (fst a <= fst b)%N) l ->
  Sorted (fun a b => (fst a <= fst b)%N) (Modules.insertIndexed e l).
Proof.
  induction l as [|e' l IH]; intros Hs; simpl; [repeat constructor|].
  destruct (fst e <? fst e')%N eqn:E.
  - constructor; [exact Hs|]. constructor. apply N.ltb_lt in E. apply N.lt_le_incl. exact E.
  - inversion Hs as [|? ? Hs' Hd]; subst. constructor; [exact (IH Hs')|].
    apply N.ltb_ge in E. destruct l as [|e'' l]; simpl.
    + constructor. exact E.
    + destruct (fst e <? fst e'')%N; constructor; [exact E | inversion Hd; assumption].
Qed.

Lemma indexedEntries_spec g :
  Sorted (fun a b => (fst a <= fst b)%N) (Modules.indexedEntries g)
  /\ (forall e, In e (Modules.indexedEntries g) ->
        Modules.arrayIndex (fst (snd e)) = Some (fst e)).
Proof.
  induction g as [|[k l] g [IHs IHi]]; simpl; [split; [constructor | intros e []]|].
  destruct (Modules.arrayIndex k) as [n|] eqn:E; [|split; assumption].
  split; [apply insertIndexed_sorted; exact IHs|].
  intros e He. apply (Permutation_in _ (insertIndexed_perm _ _)) in He.
  destruct He as [<- | He]; [exact E | exact (IHi e He)].
Qed.

Lemma Sorted_map_snd l :
  Sorted (fun a b => (fst a <= fst b)%N) l ->
  (forall e, In e l -> Modules.arrayIndex (fst (snd e)) = Some (fst e)) ->
  Sorted indexLe (map snd l).
Proof.
  induction l as [|e l IH]; intros Hs Hi; simpl; [constructor|].
  inversion Hs as [|? ? Hs' Hd]; subst.
  constructor; [apply IH; [exact Hs' | intros x Hx; apply Hi; right; exact Hx]|].
  destruct l as [|e' l]; simpl; constructor.
  unfold indexLe. rewrite (Hi e (or_introl eq_refl)), (Hi e' (or_intror (or_introl eq_refl))).
  inversion Hd; assumption.
Qed.

Lemma indexedEntries_perm g :
  Permutation (map snd (Modules.indexedEntries g)) (filter indexBucket g).
Proof.
  induction g as [|[k l] g IH]; cbn [Modules.indexedEntries filter]; [constructor|].
  unfold indexBucket at 1, namedBucket. cbn [fst].
  destruct (Modules.arrayIndex k) as [n|]; cbn [negb]; [|exact IH].
  rewrite (Permutation_map snd (insertIndexed_perm (n, (k, l)) (Modules.indexedEntries g))).
  cbn [map snd]. apply perm_skip. exact IH.
Qed.

Lemma filter_map_fst (p : string -> bool) (g : Modules.Grouped) :
  map fst (filter (fun e => p (fst e)) g) = filter p (map fst g).
Proof.
  induction g as [|e g IH]; cbn [filter map]; [reflexivity|].
  destruct (p (fst e)); cbn [map]; rewrite IH; reflexivity.
Qed.

Lemma groupBy_groupsOf l g : Modules.groupBy (JArr l) = Normal g -> g = groupsOf l.
Proof.
  intros H. change (Modules.forEachGroup l (groupsOf []) = Normal g) in H.
  destruct (forallb groupable l) eqn:Hg.
  - rewrite (forEachGroup_groupsOf [] l Hg) in H. injection H as <-. reflexivity.
  - rewrite (forEachGroup_throws [] l eq_refl Hg) in H. discriminate H.
Qed.

(** X24.  On the page every bucket of the grouping is displayed once.  The
    buckets whose key is an array index come first, in ascending numeric
    order, whatever the order of the modules; the other buckets follow, their
    keys in the order in which the categories first occur in the sequence
    grouped. *)
Theorem buckets_are_displayed_indices_first :
  forall l g,
    Modules.groupBy (JArr l) = Normal g ->
    exists indexed,
      Modules.objectEntries g = (indexed ++ filter namedBucket g)%list
      /\ Permutation (Modules.objectEntries g) g
      /\ Permutation indexed (filter indexBucket g)
      /\ Sorted indexLe indexed
      /\ map fst (filter namedBucket g)
         = filter namedText (newSet String.eqb (map keyOf l)).
Proof.
  intros l g H. apply groupBy_groupsOf in H. subst g.
  destruct (indexedEntries_spec (groupsOf l)) as [Hs Hi].
  exists (map snd (Modules.indexedEntries (groupsOf l))).
  split; [reflexivity | split; [apply objectEntries_perm | split; [|split]]].
  - apply indexedEntries_perm.
  - exact (Sorted_map_snd _ Hs Hi).
  - rewrite <- groupsOf_keys. exact (filter_map_fst namedText (groupsOf l)).
Qed.

Lemma buckets_are_displayed_indices_first_witness :
  exists indexed,
    Modules.objectEntries mixedKeys = (indexed ++ filter namedBucket mixedKeys)%list
    /\ Permutation (Modules.objectEntries mixedKeys) mixedKeys
    /\ Permutation indexed (filter indexBucket mixedKeys)
    /\ Sorted indexLe indexed
    /\ map fst (filter namedBucket mixedKeys)
       = filter namedText (newSet String.eqb (map keyOf mixedModules)).
Proof.
  exact (buckets_are_displayed_indices_first mixedModules mixedKeys eq_refl).
Defined.
